(** * TreeLab: a shallow embedding of the tree algorithm engine

    The JavaScript classes under [assets/js/trees] and [assets/js/core] are
    embedded as Rocq functions over explicit state.  Conventions:

    - JavaScript numbers that the controller feeds to the numeric structures
      are integers ([parseInt] in [getInputValue]); they are modelled by [Z].
    - An object that is mutated in place and owned by exactly one parent
      becomes a value that the embedded function returns updated.
    - A thrown JavaScript exception is the [Throw] result.  Loops whose
      termination is not structural run on fuel; running out is reported as
      [Throw OutOfFuel] and is shown not to happen where a claim depends on it.
    - Back references ([parent], the B+ leaf link [next]) and the fields that
      the algorithms only write for the renderer (coordinates, highlight flags,
      the animation log with its timestamps) are not part of the embedding:
      no algorithm reads them.
    - [eventBus.emit] is modelled by the list of events an operation emits,
      each carrying the payload the source passes. *)

From Stdlib Require Import ZArith Lia ZifyNat String Ascii.
From stdpp Require Import base list option sorting.

Set Warnings "-register-all".

Local Open Scope Z_scope.

(** ** Results of a call *)

Inductive exn : Type :=
| TypeError    (* property access on null or undefined *)
| RangeError   (* an array length set to a negative number *)
| OutOfFuel.   (* the embedding's loop budget was exhausted *)

Inductive result (A : Type) : Type :=
| Ok (a : A)
| Throw (e : exn).
Arguments Ok {A} a.
Arguments Throw {A} e.

Definition rbind {A B} (m : result A) (f : A -> result B) : result B :=
  match m with
  | Ok a => f a
  | Throw e => Throw e
  end.

Notation "'let*' x := m 'in' k" := (rbind m (fun x => k))
  (at level 10, x pattern, m at level 100, k at level 200).

(** ** The event channel (utils/EventBus.js, constant table [EVENTS]) *)

Inductive EventName : Type :=
| NODE_INSERTED | NODE_DELETED | NODE_SEARCHED | TREE_RESET.

(** The payload [{ value, tree: this }]: [V] is the type of the value, [T] the
    structure's state at the moment of the [emit] call. *)
Record Event (V T : Type) : Type := mkEvent {
  ev_name : EventName;
  ev_value : option V;
  ev_tree : T
}.
Arguments mkEvent {V T} _ _ _.
Arguments ev_name {V T} _.
Arguments ev_value {V T} _.
Arguments ev_tree {V T} _.

(** The payload [{ value, found, tree: this }] of a search. *)
Record SearchEvent (V T : Type) : Type := mkSearchEvent {
  sev_value : V;
  sev_found : bool;
  sev_tree : T
}.
Arguments mkSearchEvent {V T} _ _ _.

(** ** JavaScript arrays

    Reading outside an array yields [undefined]; writing at [j >= length]
    extends the array, the skipped slots reading as [undefined]. *)

Definition aget {A} (l : list A) (i : Z) : option A :=
  if i <? 0 then None else l !! Z.to_nat i.

(** [a[j] = v] on an array whose slots may be [undefined] ([None]). *)
Definition aset {A} (l : list (option A)) (j : nat) (v : option A) : list (option A) :=
  if decide (j < length l)%nat then <[j := v]> l
  else l ++ replicate (j - length l) None ++ [v].

(** [a[j]] on such an array: a hole and a missing slot both read [undefined]. *)
Definition aread {A} (l : list (option A)) (j : nat) : option A :=
  match l !! j with
  | Some v => v
  | None => None
  end.

(** [a.length = n]: truncate, or extend with holes. *)
Definition set_length {A} (n : nat) (l : list (option A)) : list (option A) :=
  take n l ++ replicate (n - length l) None.

(** [for (j = a.length; j > i; j--) a[j] = a[j - 1];  a[i] = v]: open a slot
    at [i]; when [i] is not below the length the loop does not run and the
    assignment extends the array. *)
Definition shift_in {A} (i : nat) (v : option A) (l : list (option A)) : list (option A) :=
  if decide (i < length l)%nat then take i l ++ v :: drop i l
  else aset l i v.

(** [value < key] and [value > key] for a key that may be [undefined]:
    a comparison with [undefined] is false. *)
Definition js_lt (value : Z) (key : option Z) : bool :=
  match key with Some k => value <? k | None => false end.
Definition js_gt (value : Z) (key : option Z) : bool :=
  match key with Some k => k <? value | None => false end.
Definition js_eq (value : Z) (key : option Z) : bool :=
  match key with Some k => value =? k | None => false end.

(** ** core/TreeNode.js *)

Inductive Color : Type := RED | BLACK.

(** [new TreeNode(value)] has [height = 1], [color = 'RED'] and no children. *)
Inductive TreeNode : Type :=
| null
| Node (value : Z) (left right : TreeNode) (height : Z) (color : Color).

Definition newTreeNode (value : Z) : TreeNode := Node value null null 1 RED.

Definition isLeaf (n : TreeNode) : bool :=
  match n with
  | Node _ null null _ _ => true
  | _ => false
  end.

Definition hasOneChild (n : TreeNode) : bool :=
  match n with
  | Node _ null (Node _ _ _ _ _) _ _ => true
  | Node _ (Node _ _ _ _ _) null _ _ => true
  | _ => false
  end.

Definition is_null (n : TreeNode) : bool :=
  match n with null => true | _ => false end.

(** ** core/TreeBase.js: the shared traversal and height helpers *)

Fixpoint _getHeight (node : TreeNode) : Z :=
  match node with
  | null => 0
  | Node _ l r _ _ => 1 + Z.max (_getHeight l) (_getHeight r)
  end.

(** [_inorder] with the callback of [getValues], which pushes [node.value]. *)
Fixpoint _inorder (node : TreeNode) : list Z :=
  match node with
  | null => []
  | Node v l r _ _ => _inorder l ++ v :: _inorder r
  end.

(** A tree is ordered when its in-order sequence is strictly increasing. *)
Definition ordered (t : TreeNode) : Prop := StronglySorted Z.lt (_inorder t).

(** What a recursive insert of [value] does to the in-order sequence, in the
    shape the three binary trees share: the new sequence has at most [value]
    more, and stays increasing. *)
Definition inserted (value : Z) (t t' : TreeNode) : Prop :=
  (forall x, x ∈ _inorder t' -> x = value \/ x ∈ _inorder t) /\
  (ordered t -> ordered t').

(** The state threaded through the recursive helpers of the binary trees is
    [this.nodeCount]; a helper either returns a value and the new count or
    throws. *)
Definition M (A : Type) : Type := Z -> result (A * Z).

Definition ret {A} (a : A) : M A := fun c => Ok (a, c).
Definition bind {A B} (m : M A) (f : A -> M B) : M B :=
  fun c => match m c with
           | Ok (a, c') => f a c'
           | Throw e => Throw e
           end.
Definition throw {A} (e : exn) : M A := fun _ => Throw e.
Definition countUp : M unit := fun c => Ok (tt, c + 1).
Definition countDown : M unit := fun c => Ok (tt, c - 1).

Notation "'do' x <- m ; k" := (bind m (fun x => k))
  (at level 10, x pattern, m at level 100, k at level 200).

(** [_findMin]: follow [left] while it is not null; the callers read only
    the [value] of the node found, which is what is returned.  On [null]
    itself the source throws ([node.left] of null). *)
Fixpoint _findMin_from (v : Z) (l : TreeNode) : Z :=
  match l with
  | null => v
  | Node v' l' _ _ _ => _findMin_from v' l'
  end.

Definition _findMin (node : TreeNode) : result Z :=
  match node with
  | null => Throw TypeError
  | Node v l _ _ _ => Ok (_findMin_from v l)
  end.

(** [_findMax]: follow [right] while it is not null. *)
Fixpoint _findMax_from (v : Z) (r : TreeNode) : Z :=
  match r with
  | null => v
  | Node v' _ r' _ _ => _findMax_from v' r'
  end.

Definition _findMax (node : TreeNode) : result Z :=
  match node with
  | null => Throw TypeError
  | Node v _ r _ _ => Ok (_findMax_from v r)
  end.

(** [_preorder] and [_postorder] with the callback of [getValues]. *)
Fixpoint _preorder (node : TreeNode) : list Z :=
  match node with
  | null => []
  | Node v l r _ _ => v :: _preorder l ++ _preorder r
  end.

Fixpoint _postorder (node : TreeNode) : list Z :=
  match node with
  | null => []
  | Node v l r _ _ => _postorder l ++ _postorder r ++ [v]
  end.

(** [_inorder] with the callback of [toArray], which pushes the node. *)
Fixpoint _inorder_nodes (node : TreeNode) : list TreeNode :=
  match node with
  | null => []
  | Node _ l r _ _ => _inorder_nodes l ++ node :: _inorder_nodes r
  end.

(** The [while (queue.length > 0)] loop of [levelOrderTraversal], with the
    same callback: [queue.shift()], the visit, then the two pushes. *)
Fixpoint levelOrder_loop (fuel : nat) (queue : list TreeNode) : result (list Z) :=
  match queue with
  | [] => Ok []
  | node :: queue' =>
      match fuel with
      | O => Throw OutOfFuel
      | S fuel' =>
          match node with
          | null => Throw TypeError
          | Node v l r _ _ =>
              let queue1 := if is_null l then queue' else queue' ++ [l] in
              let queue2 := if is_null r then queue1 else queue1 ++ [r] in
              let* rest := levelOrder_loop fuel' queue2 in
              Ok (v :: rest)
          end
      end
  end.

Definition levelOrderTraversal (root : TreeNode) : result (list Z) :=
  if is_null root then Ok []
  else levelOrder_loop (length (_inorder root)) [root].

(** [_searchNode(node, value)], which BSTTree, AVLTree and RedBlackTree each
    define with the same body: the node found, or [null]. *)
Fixpoint _searchNode (node : TreeNode) (value : Z) : TreeNode :=
  match node with
  | null => null
  | Node v l r _ _ =>
      if value =? v then node
      else if value <? v then _searchNode l value
      else _searchNode r value
  end.

(** ** The content of a search tree as a list

    The reference the binary search trees are compared with: a strictly
    increasing list, an insertion that ignores a value already present and a
    removal by value. *)

Fixpoint list_insert (value : Z) (l : list Z) : list Z :=
  match l with
  | [] => [value]
  | x :: l' =>
      if value <? x then value :: l
      else if x <? value then x :: list_insert value l'
      else l
  end.

Definition list_delete (value : Z) (l : list Z) : list Z :=
  filter (fun x => x <> value) l.

(** ** utils/EventBus.js (class EventBus)

    A callback is a function object, compared by identity: a handler that
    the client passed, named by a number, or the closure [onceCallback] that
    [once] creates around a handler, which gets a number of its own.  A
    handler is client code; it is taken not to call the bus, so that calling
    it adds to the list of calls made and may throw, nothing else.  [events]
    is the [Map], an association list in insertion order. *)

Module EventBus.

Inductive Callback : Type :=
| Handler (id : nat)
| OnceCallback (closure : nat) (callback : nat).

Definition same (a b : Callback) : bool :=
  match a, b with
  | Handler i, Handler j => Nat.eqb i j
  | OnceCallback c _, OnceCallback d _ => Nat.eqb c d
  | _, _ => false
  end.

Record t : Type := mk {
  events : list (string * list Callback);
  closures : nat                 (* the number the next closure gets *)
}.

Definition empty : t := mk [] 0.

(** [Map.get], [Map.set] and [Map.delete]. *)
Fixpoint get (eventName : string) (m : list (string * list Callback))
  : option (list Callback) :=
  match m with
  | [] => None
  | (k, v) :: m' => if String.eqb k eventName then Some v else get eventName m'
  end.

Fixpoint set (eventName : string) (v : list Callback) (m : list (string * list Callback))
  : list (string * list Callback) :=
  match m with
  | [] => [(eventName, v)]
  | (k, w) :: m' =>
      if String.eqb k eventName then (k, v) :: m' else (k, w) :: set eventName v m'
  end.

Fixpoint remove (eventName : string) (m : list (string * list Callback))
  : list (string * list Callback) :=
  match m with
  | [] => []
  | (k, w) :: m' => if String.eqb k eventName then m' else (k, w) :: remove eventName m'
  end.

(** [index = callbacks.indexOf(callback); if (index > -1) callbacks.splice(index, 1)] *)
Fixpoint remove_first (callback : Callback) (callbacks : list Callback) : list Callback :=
  match callbacks with
  | [] => []
  | cb :: callbacks' =>
      if same cb callback then callbacks' else cb :: remove_first callback callbacks'
  end.

(** [on(eventName, callback)]; the function it returns calls
    [off(eventName, callback)]. *)
Definition on (s : t) (eventName : string) (callback : Callback) : t :=
  let callbacks := match get eventName (events s) with Some cbs => cbs | None => [] end in
  mk (set eventName (callbacks ++ [callback]) (events s)) (closures s).

Definition off (s : t) (eventName : string) (callback : Callback) : t :=
  match get eventName (events s) with
  | None => s
  | Some callbacks =>
      let callbacks' := remove_first callback callbacks in
      match callbacks' with
      | [] => mk (remove eventName (events s)) (closures s)
      | _ :: _ => mk (set eventName callbacks' (events s)) (closures s)
      end
  end.

(** [once(eventName, callback)] subscribes a fresh closure. *)
Definition once (s : t) (eventName : string) (callback : nat) : t :=
  let s' := on s eventName (OnceCallback (closures s) callback) in
  mk (events s') (S (closures s)).

Definition clear (s : t) : t := mk [] (closures s).


Section Emit.
Context {D : Type}.

(** Whether the handler with that number throws when it is called. *)
Variable throws : nat -> bool.

(** One call made by [forEach], inside [try]: a handler is called with
    [data]; a [onceCallback] calls its handler and then [off], which is not
    reached when the handler throws. *)
Definition call (s : t) (eventName : string) (data : D) (cb : Callback)
  : t * list (nat * D) :=
  match cb with
  | Handler id => (s, [(id, data)])
  | OnceCallback _ id =>
      (if throws id then s else off s eventName cb, [(id, data)])
  end.

(** [callbacks.forEach(...)]: the indices below the length that the array
    had at the start are visited in order, [n] of them being left and [k]
    the next; an index that the array no longer has is skipped.  The array
    is the one stored under [eventName], emptied when [off] has deleted the
    entry. *)
Fixpoint forEach (n k : nat) (s : t) (eventName : string) (data : D)
  : t * list (nat * D) :=
  match n with
  | O => (s, [])
  | S n' =>
      let callbacks := match get eventName (events s) with Some cbs => cbs | None => [] end in
      match callbacks !! k with
      | None => forEach n' (S k) s eventName data
      | Some cb =>
          let '(s1, calls1) := call s eventName data cb in
          let '(s2, calls2) := forEach n' (S k) s1 eventName data in
          (s2, calls1 ++ calls2)
      end
  end.

(** [emit(eventName, data)]: the bus afterwards and the calls made. *)
Definition emit (s : t) (eventName : string) (data : D) : t * list (nat * D) :=
  match get eventName (events s) with
  | None => (s, [])
  | Some callbacks => forEach (length callbacks) 0 s eventName data
  end.

End Emit.

(** Every second element of a list, from the first and from the second. *)
Fixpoint evens {A} (l : list A) : list A :=
  match l with
  | [] => []
  | x :: l' =>
      x :: match l' with
           | [] => []
           | _ :: l'' => evens l''
           end
  end.

Definition odds {A} (l : list A) : list A := evens (tail l).

(** The handlers that [emit] of [eventName] would reach: those subscribed
    under the name, a [onceCallback] counting as the handler it wraps. *)
Definition handler (cb : Callback) : nat :=
  match cb with
  | Handler id => id
  | OnceCallback _ id => id
  end.

Definition listeners (s : t) (eventName : string) : list nat :=
  map handler (match get eventName (events s) with Some cbs => cbs | None => [] end).

End EventBus.

(** ** trees/FenwickTree.js *)

Module FenwickTree.

(** [i & (-i)] *)
Definition lowbit (i : Z) : Z := Z.land i (- i).

(** A node of the visual forest: a [TreeNode] carrying [index],
    [originalValue] and a [children] array; the virtual root has the
    string value "Root" and no index. *)
Inductive VNode : Type :=
| VRoot (children : list VNode)
| VIdx (value : option Z) (originalValue : option Z) (index : Z) (children : list VNode).

Record t : Type := mk {
  tree : list Z;
  data : list Z;
  root : option VNode;
  nodeCount : Z
}.

(** [constructor]: [tree = [0]], [data = []], [root = null]. *)
Definition empty : t := mk [0] [] None 0.

(** [this.tree[index] += delta] for a slot that exists. *)
Definition add_at (tr : list Z) (index delta : Z) : list Z :=
  if index <? 0 then tr
  else alter (fun x => x + delta) (Z.to_nat index) tr.

Fixpoint _updateBIT_loop (fuel : nat) (tr : list Z) (index delta : Z) : result (list Z) :=
  if index <? Z.of_nat (length tr) then
    match fuel with
    | O => Throw OutOfFuel
    | S fuel' => _updateBIT_loop fuel' (add_at tr index delta) (index + lowbit index) delta
    end
  else Ok tr.

Definition _updateBIT (tr : list Z) (index delta : Z) : result (list Z) :=
  _updateBIT_loop (length tr) tr index delta.

(** The connect loop of [buildVisualTree]: the children of index [p] are
    the indices [i <= n] with [i + lowbit i = p], in increasing order; all of
    them are smaller than [p]. *)
Fixpoint visualNode (fuel : nat) (tr data : list Z) (n : nat) (i : nat) : VNode :=
  let kids :=
    match fuel with
    | O => []
    | S fuel' =>
        map (visualNode fuel' tr data n)
            (filter (fun j => Z.of_nat j + lowbit (Z.of_nat j) = Z.of_nat i) (seq 1 n))
    end in
  VIdx (tr !! i) (data !! (i - 1)%nat) (Z.of_nat i) kids.

Definition buildVisualTree (tr data : list Z) : option VNode :=
  match data with
  | [] => None
  | _ =>
      let n := length data in
      Some (VRoot (map (visualNode n tr data n)
                       (filter (fun j => Z.of_nat n <? Z.of_nat j + lowbit (Z.of_nat j)) (seq 1 n))))
  end.

(** [insert(value)] for a numeric [value] ([parseInt] is the identity on the
    integers the controller passes; the [isNaN] branch is for other input). *)
Definition insert (s : t) (value : Z) : result (t * list (Event Z t)) :=
  let data' := data s ++ [value] in
  let index := Z.of_nat (length data') in
  let tree1 := if Z.of_nat (length (tree s)) <=? index then tree s ++ [0] else tree s in
  let* tree2 := _updateBIT tree1 index value in
  Ok (mk tree2 data' (buildVisualTree tree2 data') (nodeCount s + 1), []).

(** [query(index)]: [None] is the [NaN] obtained once an [undefined] slot
    has been added to [sum]. *)
Fixpoint query_loop (fuel : nat) (tr : list Z) (i : Z) (sum : option Z) : result (option Z) :=
  if 0 <? i then
    match fuel with
    | O => Throw OutOfFuel
    | S fuel' =>
        query_loop fuel' tr (i - lowbit i)
          (match sum, aget tr i with
           | Some s, Some x => Some (s + x)
           | _, _ => None
           end)
    end
  else Ok sum.

Definition query (s : t) (index : Z) : result (option Z) :=
  query_loop (Z.to_nat index) (tree s) index (Some 0).

(** [delete(value)]: warns on the console and returns [false]. *)
Definition delete {A : Type} (s : t) (value : A)
  : result (t * bool * list (Event Z t)) :=
  Ok (s, false, []).

(** Inserting a sequence of values one after the other. *)
Fixpoint insert_all (s : t) (vs : list Z) : result t :=
  match vs with
  | [] => Ok s
  | v :: vs' => let* (s', _) := insert s v in insert_all s' vs'
  end.

(** [a1 + ... + ai] *)
Definition prefix_sum (vs : list Z) (i : nat) : Z := foldr Z.add 0 (take i vs).

(** [clear()] is the one of TreeBase: [root] and [nodeCount] are reset,
    [tree] and [data] are not touched. *)
Definition clear (s : t) : t * list (Event Z t) :=
  let s' := mk (tree s) (data s) None 0 in
  (s', [mkEvent TREE_RESET None s']).

End FenwickTree.

(** ** trees/SegmentTree.js (class SegmentTree) *)

Module SegmentTree.

(** A [TreeNode] with the attached range [start..end]. *)
Inductive SNode : Type :=
| SLeaf (value : option Z) (start end_ : Z)
| SInner (value : option Z) (start end_ : Z) (left right : SNode).

Definition svalue (n : SNode) : option Z :=
  match n with
  | SLeaf v _ _ => v
  | SInner v _ _ _ _ => v
  end.

Record t : Type := mk {
  data : list Z;
  root : option SNode;
  nodeCount : Z
}.

Definition empty : t := mk [] None 0.

(** [node.left.value + node.right.value]; an [undefined] operand gives [NaN],
    both read back as [None]. *)
Definition vadd (a b : option Z) : option Z :=
  match a, b with
  | Some x, Some y => Some (x + y)
  | _, _ => None
  end.

Fixpoint _buildRecursive (fuel : nat) (data : list Z) (start end_ : Z) : result SNode :=
  if start =? end_ then Ok (SLeaf (aget data start) start end_)
  else
    match fuel with
    | O => Throw OutOfFuel
    | S fuel' =>
        let mid := (start + end_) / 2 in
        let* l := _buildRecursive fuel' data start mid in
        let* r := _buildRecursive fuel' data (mid + 1) end_ in
        Ok (SInner (vadd (svalue l) (svalue r)) start end_ l r)
    end.

Definition buildTree (data : list Z) : result (option SNode) :=
  match data with
  | [] => Ok None
  | _ =>
      let* n := _buildRecursive (length data) data 0 (Z.of_nat (length data) - 1) in
      Ok (Some n)
  end.

Definition insert (s : t) (value : Z) : result (t * list (Event Z t)) :=
  let data' := data s ++ [value] in
  let* r := buildTree data' in
  Ok (mk data' r (Z.of_nat (length data')), []).

(** [delete(value)]: warns on the console and returns [false]. *)
Definition delete {A : Type} (s : t) (value : A)
  : result (t * bool * list (Event Z t)) :=
  Ok (s, false, []).



(** [node.value === value] *)
Definition value_is (v : option Z) (value : Z) : bool :=
  match v with Some x => x =? value | None => false end.

(** [_searchLeaves(node, value)]; a node without children answers for its
    missing [left] and [right] with [null]. *)
Fixpoint _searchLeaves (node : SNode) (value : Z) : option SNode :=
  match node with
  | SLeaf v s e =>
      if s =? e then (if value_is v value then Some node else None)
      else None
  | SInner v s e l r =>
      if s =? e then (if value_is v value then Some node else None)
      else
        match _searchLeaves l value with
        | Some found => Some found
        | None => _searchLeaves r value
        end
  end.

(** [search(value)]; the class emits no notification here. *)
Definition search (s : t) (value : Z) : option SNode :=
  match root s with
  | None => None
  | Some r => _searchLeaves r value
  end.



(** [clear()] is the one of TreeBase: [root] and [nodeCount] are reset,
    [data] is not touched. *)
Definition clear (s : t) : t * list (Event Z t) :=
  let s' := mk (data s) None 0 in
  (s', [mkEvent TREE_RESET None s']).

Fixpoint insert_all (s : t) (vs : list Z) : result t :=
  match vs with
  | [] => Ok s
  | v :: vs' => let* (s', _) := insert s v in insert_all s' vs'
  end.




End SegmentTree.

(** ** trees/SegmentTree.js (class BSTTree) *)

Module BSTTree.

Record t : Type := mk {
  root : TreeNode;
  nodeCount : Z
}.

Definition empty : t := mk null 0.

(** [_insertNode(node, value)]; the updated [node] is returned. *)
Fixpoint _insertNode (node : TreeNode) (value : Z) : M TreeNode :=
  match node with
  | null => throw TypeError
  | Node v l r h c =>
      if value <? v then
        if is_null l then
          do _ <- countUp; ret (Node v (newTreeNode value) r h c)
        else
          do l' <- _insertNode l value; ret (Node v l' r h c)
      else if v <? value then
        if is_null r then
          do _ <- countUp; ret (Node v l (newTreeNode value) h c)
        else
          do r' <- _insertNode r value; ret (Node v l r' h c)
      else ret node
  end.

Definition insert (s : t) (value : Z) : result (t * list (Event Z t)) :=
  if is_null (root s) then
    let s' := mk (newTreeNode value) (nodeCount s + 1) in
    Ok (s', [mkEvent NODE_INSERTED (Some value) s'])
  else
    let* (r, c) := _insertNode (root s) value (nodeCount s) in
    let s' := mk r c in
    Ok (s', [mkEvent NODE_INSERTED (Some value) s']).

Fixpoint _deleteNode (node : TreeNode) (value : Z) : M TreeNode :=
  match node with
  | null => ret null
  | Node v l r h c =>
      if value <? v then
        do l' <- _deleteNode l value; ret (Node v l' r h c)
      else if v <? value then
        do r' <- _deleteNode r value; ret (Node v l r' h c)
      else if isLeaf node then
        do _ <- countDown; ret null
      else if hasOneChild node then
        do _ <- countDown; ret (if is_null l then r else l)
      else
        match _findMin r with
        | Throw e => throw e
        | Ok sv => do r' <- _deleteNode r sv; ret (Node sv l r' h c)
        end
  end.

Definition delete (s : t) (value : Z) : result (t * bool * list (Event Z t)) :=
  let initialCount := nodeCount s in
  let* (r, c) := _deleteNode (root s) value (nodeCount s) in
  let s' := mk r c in
  let deleted := c <? initialCount in
  Ok (s', deleted, if deleted then [mkEvent NODE_DELETED (Some value) s'] else []).

Definition getValues (s : t) : list Z := _inorder (root s).

Fixpoint insert_all (s : t) (vs : list Z) : result t :=
  match vs with
  | [] => Ok s
  | v :: vs' => let* (s', _) := insert s v in insert_all s' vs'
  end.

(** [search(value)]: the node found or [null], and the notification. *)
Definition search (s : t) (value : Z) : TreeNode * list (SearchEvent Z t) :=
  let result := _searchNode (root s) value in
  (result, [mkSearchEvent value (negb (is_null result)) s]).

(** [_isValidBSTHelper(node, min, max)]; [None] is the infinite bound of the
    top call, which no value reaches. *)
Fixpoint _isValidBSTHelper (node : TreeNode) (min max : option Z) : bool :=
  match node with
  | null => true
  | Node v l r _ _ =>
      if match min with Some m => v <=? m | None => false end
         || match max with Some m => m <=? v | None => false end
      then false
      else _isValidBSTHelper l min (Some v) && _isValidBSTHelper r (Some v) max
  end.

Definition isValidBST (s : t) : bool := _isValidBSTHelper (root s) None None.

(** [_buildBalancedTree(nodes, start, end)]: [nodes[mid]] keeps its value,
    height and colour and receives the two rebuilt subtrees. *)
Fixpoint _buildBalancedTree (fuel : nat) (nodes : list TreeNode) (start end_ : Z)
  : result TreeNode :=
  if end_ <? start then Ok null
  else
    match fuel with
    | O => Throw OutOfFuel
    | S fuel' =>
        let mid := (start + end_) / 2 in
        match aget nodes mid with
        | None | Some null => Throw TypeError       (* node.left of undefined *)
        | Some (Node v _ _ h c) =>
            let* l := _buildBalancedTree fuel' nodes start (mid - 1) in
            let* r := _buildBalancedTree fuel' nodes (mid + 1) end_ in
            Ok (Node v l r h c)
        end
    end.

(** [balance()]: nothing happens up to two nodes; otherwise the tree is
    rebuilt from its in-order node list and a reset is notified. *)
Definition balance (s : t) : result (t * list (Event Z t)) :=
  let nodes := _inorder_nodes (root s) in
  if (length nodes <=? 2)%nat then Ok (s, [])
  else
    let* r := _buildBalancedTree (length nodes) nodes 0 (Z.of_nat (length nodes) - 1) in
    let s' := mk r (nodeCount s) in
    Ok (s', [mkEvent TREE_RESET None s']).

(** The calls a client can make, and their effect on a tree. *)
Inductive op : Type := Insert (value : Z) | Delete (value : Z) | Balance.

Definition apply_op (s : t) (o : op) : result t :=
  match o with
  | Insert v => let* (s', _) := insert s v in Ok s'
  | Delete v => let* (s', _, _) := delete s v in Ok s'
  | Balance => let* (s', _) := balance s in Ok s'
  end.

Fixpoint run (s : t) (ops : list op) : result t :=
  match ops with
  | [] => Ok s
  | o :: ops' => let* s' := apply_op s o in run s' ops'
  end.

(** The same calls on the reference list. *)
Definition model (ops : list op) : list Z :=
  foldl (fun l o =>
           match o with
           | Insert v => list_insert v l
           | Delete v => list_delete v l
           | Balance => l
           end) [] ops.

End BSTTree.

(** ** trees/AVLTree.js *)

Module AVLTree.

Record t : Type := mk {
  root : TreeNode;
  nodeCount : Z
}.

Definition empty : t := mk null 0.

Definition _getNodeHeight (node : TreeNode) : Z :=
  match node with
  | null => 0
  | Node _ _ _ h _ => h
  end.

Definition _updateHeight (node : TreeNode) : TreeNode :=
  match node with
  | null => null
  | Node v l r _ c => Node v l r (1 + Z.max (_getNodeHeight l) (_getNodeHeight r)) c
  end.

Definition _getBalance (node : TreeNode) : Z :=
  match node with
  | null => 0
  | Node _ l r _ _ => _getNodeHeight l - _getNodeHeight r
  end.

(** [_rotateRight(y)]: [x = y.left], [T2 = x.right]. *)
Definition _rotateRight (y : TreeNode) : result TreeNode :=
  match y with
  | null => Throw TypeError
  | Node yv yl yr yh yc =>
      match yl with
      | null => Throw TypeError
      | Node xv xl T2 xh xc =>
          let y' := _updateHeight (Node yv T2 yr yh yc) in
          Ok (_updateHeight (Node xv xl y' xh xc))
      end
  end.

(** [_rotateLeft(x)]: [y = x.right], [T2 = y.left]. *)
Definition _rotateLeft (x : TreeNode) : result TreeNode :=
  match x with
  | null => Throw TypeError
  | Node xv xl xr xh xc =>
      match xr with
      | null => Throw TypeError
      | Node yv T2 yr yh yc =>
          let x' := _updateHeight (Node xv xl T2 xh xc) in
          Ok (_updateHeight (Node yv x' yr yh yc))
      end
  end.

(** [n.value] *)
Definition valueOf (n : TreeNode) : result Z :=
  match n with
  | null => Throw TypeError
  | Node v _ _ _ _ => Ok v
  end.

(** The tail of [_insertNode], from "Update height" on; [node] has received
    its new child. *)
Definition rebalanceAfterInsert (node : TreeNode) (value : Z) : result TreeNode :=
  match _updateHeight node with
  | null => Throw TypeError
  | Node v l r h c as node =>
      let balance := _getBalance node in
      (* Left Left Case *)
      let* ll := (if 1 <? balance then let* lv := valueOf l in Ok (value <? lv) else Ok false) in
      if ll then _rotateRight node else
      (* Right Right Case *)
      let* rr := (if balance <? -1 then let* rv := valueOf r in Ok (rv <? value) else Ok false) in
      if rr then _rotateLeft node else
      (* Left Right Case *)
      let* lr := (if 1 <? balance then let* lv := valueOf l in Ok (lv <? value) else Ok false) in
      if lr then
        let* l' := _rotateLeft l in _rotateRight (Node v l' r h c)
      else
      (* Right Left Case *)
      let* rl := (if balance <? -1 then let* rv := valueOf r in Ok (value <? rv) else Ok false) in
      if rl then
        let* r' := _rotateRight r in _rotateLeft (Node v l r' h c)
      else Ok node
  end.

Definition lift {A} (m : result A) : M A :=
  fun c => match m with Ok a => Ok (a, c) | Throw e => Throw e end.

Fixpoint _insertNode (node : TreeNode) (value : Z) : M TreeNode :=
  match node with
  | null => do _ <- countUp; ret (newTreeNode value)
  | Node v l r h c =>
      if value <? v then
        do l' <- _insertNode l value;
        lift (rebalanceAfterInsert (Node v l' r h c) value)
      else if v <? value then
        do r' <- _insertNode r value;
        lift (rebalanceAfterInsert (Node v l r' h c) value)
      else ret node
  end.

Definition insert (s : t) (value : Z) : result (t * list (Event Z t)) :=
  let* (r, c) := _insertNode (root s) value (nodeCount s) in
  let s' := mk r c in
  Ok (s', [mkEvent NODE_INSERTED (Some value) s']).

(** The tail of [_deleteNode], from "Update height" on. *)
Definition rebalanceAfterDelete (node : TreeNode) : result TreeNode :=
  match _updateHeight node with
  | null => Ok null
  | Node v l r h c as node =>
      let balance := _getBalance node in
      (* Left Left Case *)
      if (1 <? balance) && (0 <=? _getBalance l) then _rotateRight node else
      (* Left Right Case *)
      if (1 <? balance) && (_getBalance l <? 0) then
        let* l' := _rotateLeft l in _rotateRight (Node v l' r h c)
      else
      (* Right Right Case *)
      if (balance <? -1) && (_getBalance r <=? 0) then _rotateLeft node else
      (* Right Left Case *)
      if (balance <? -1) && (0 <? _getBalance r) then
        let* r' := _rotateRight r in _rotateLeft (Node v l r' h c)
      else Ok node
  end.

Fixpoint _deleteNode (node : TreeNode) (value : Z) : M TreeNode :=
  match node with
  | null => ret null
  | Node v l r h c =>
      if value <? v then
        do l' <- _deleteNode l value;
        lift (rebalanceAfterDelete (Node v l' r h c))
      else if v <? value then
        do r' <- _deleteNode r value;
        lift (rebalanceAfterDelete (Node v l r' h c))
      else if is_null l || is_null r then
        do _ <- countDown;
        ret (if is_null l then r else l)
      else
        match _findMin r with
        | Throw e => throw e
        | Ok sv =>
            do r' <- _deleteNode r sv;
            lift (rebalanceAfterDelete (Node sv l r' h c))
        end
  end.

Definition delete (s : t) (value : Z) : result (t * bool * list (Event Z t)) :=
  let initialCount := nodeCount s in
  let* (r, c) := _deleteNode (root s) value (nodeCount s) in
  let s' := mk r c in
  let deleted := c <? initialCount in
  Ok (s', deleted, if deleted then [mkEvent NODE_DELETED (Some value) s'] else []).

Definition getValues (s : t) : list Z := _inorder (root s).

(** [_checkBalance]: [|balance| <= 1] at every node, on the stored heights. *)
Fixpoint _checkBalance (node : TreeNode) : bool :=
  match node with
  | null => true
  | Node _ l r _ _ =>
      if 1 <? Z.abs (_getBalance node) then false
      else _checkBalance l && _checkBalance r
  end.

(** The calls a client can make, and their effect on a tree. *)
Inductive op : Type := Insert (value : Z) | Delete (value : Z).

Definition apply_op (s : t) (o : op) : result t :=
  match o with
  | Insert v => let* (s', _) := insert s v in Ok s'
  | Delete v => let* (s', _, _) := delete s v in Ok s'
  end.

Fixpoint run (s : t) (ops : list op) : result t :=
  match ops with
  | [] => Ok s
  | o :: ops' => let* s' := apply_op s o in run s' ops'
  end.

Definition insert_all (s : t) (vs : list Z) : result t := run s (map Insert vs).

(** The balance factor of a node on the real heights of its subtrees. *)
Definition balanceFactor (node : TreeNode) : Z :=
  match node with
  | null => 0
  | Node _ l r _ _ => _getHeight l - _getHeight r
  end.

(** Every node of the tree satisfies [P]. *)
Fixpoint every_node (P : TreeNode -> Prop) (node : TreeNode) : Prop :=
  match node with
  | null => True
  | Node _ l r _ _ => P node /\ every_node P l /\ every_node P r
  end.

(** The AVL invariant on the stored heights: every [height] field is one more
    than the larger child height and the two child heights differ by at most
    one. *)
Fixpoint avl (node : TreeNode) : Prop :=
  match node with
  | null => True
  | Node _ l r h _ =>
      avl l /\ avl r /\
      h = 1 + Z.max (_getNodeHeight l) (_getNodeHeight r) /\
      -1 <= _getNodeHeight l - _getNodeHeight r <= 1
  end.

(** After an insert of [value] made the subtree [node] taller: [value] went
    to one side of the root, and that side is the taller one. *)
Definition grew_side (node : TreeNode) (value : Z) : Prop :=
  match node with
  | null => False
  | Node v l r _ _ =>
      value <> v /\
      (value < v -> _getNodeHeight l = _getNodeHeight r + 1) /\
      (v < value -> _getNodeHeight r = _getNodeHeight l + 1)
  end.

(** [search(value)]: the node found or [null], and the notification. *)
Definition search (s : t) (value : Z) : TreeNode * list (SearchEvent Z t) :=
  let result := _searchNode (root s) value in
  (result, [mkSearchEvent value (negb (is_null result)) s]).

(** The calls of [run] on the reference list. *)
Definition model (ops : list op) : list Z :=
  foldl (fun l o =>
           match o with
           | Insert v => list_insert v l
           | Delete v => list_delete v l
           end) [] ops.

End AVLTree.

(** ** The Red-Black tree (class RedBlackTree) *)

Module RedBlackTree.

Record t : Type := mk {
  root : TreeNode;
  nodeCount : Z
}.

Definition empty : t := mk null 0.

Definition _isRed (node : TreeNode) : bool :=
  match node with
  | Node _ _ _ _ RED => true
  | _ => false
  end.

Definition leftOf (node : TreeNode) : TreeNode :=
  match node with Node _ l _ _ _ => l | null => null end.
Definition rightOf (node : TreeNode) : TreeNode :=
  match node with Node _ _ r _ _ => r | null => null end.

Definition setColor (c : Color) (node : TreeNode) : TreeNode :=
  match node with
  | null => null
  | Node v l r h _ => Node v l r h c
  end.

Definition _flipColors (node : TreeNode) : TreeNode :=
  match node with
  | null => null
  | Node v l r h _ => Node v (setColor BLACK l) (setColor BLACK r) h RED
  end.

(** [x = node.right]; [x] takes [node]'s colour, [node] becomes RED. *)
Definition _rotateLeft (node : TreeNode) : result TreeNode :=
  match node with
  | null => Throw TypeError
  | Node v l r h c =>
      match r with
      | null => Throw TypeError
      | Node xv xl xr xh _ => Ok (Node xv (Node v l xl h RED) xr xh c)
      end
  end.

Definition _rotateRight (node : TreeNode) : result TreeNode :=
  match node with
  | null => Throw TypeError
  | Node v l r h c =>
      match l with
      | null => Throw TypeError
      | Node xv xl xr xh _ => Ok (Node xv xl (Node v xr r h RED) xh c)
      end
  end.

(** The three tests are made one after the other on the current [node]. *)
Definition _fixInsertion (node : TreeNode) : result TreeNode :=
  let node1 :=
    if _isRed (leftOf node) && _isRed (rightOf node) then _flipColors node else node in
  let* node2 :=
    (if _isRed (rightOf node1) && negb (_isRed (leftOf node1))
     then _rotateLeft node1 else Ok node1) in
  if _isRed (leftOf node2) && _isRed (leftOf (leftOf node2))
  then _rotateRight node2 else Ok node2.

Definition lift {A} (m : result A) : M A :=
  fun c => match m with Ok a => Ok (a, c) | Throw e => Throw e end.

Fixpoint _insertNode (node : TreeNode) (value : Z) : M TreeNode :=
  match node with
  | null => do _ <- countUp; ret (newTreeNode value)
  | Node v l r h c =>
      if value <? v then
        do l' <- _insertNode l value;
        lift (_fixInsertion (Node v l' r h c))
      else if v <? value then
        do r' <- _insertNode r value;
        lift (_fixInsertion (Node v l r' h c))
      else ret node
  end.

Definition insert (s : t) (value : Z) : result (t * list (Event Z t)) :=
  let* (r, c) := _insertNode (root s) value (nodeCount s) in
  let s' := mk (setColor BLACK r) c in
  Ok (s', [mkEvent NODE_INSERTED (Some value) s']).

Fixpoint _simpleBSTDelete (node : TreeNode) (value : Z) : M TreeNode :=
  match node with
  | null => ret null
  | Node v l r h c =>
      if value <? v then
        do l' <- _simpleBSTDelete l value; ret (Node v l' r h c)
      else if v <? value then
        do r' <- _simpleBSTDelete r value; ret (Node v l r' h c)
      else if is_null l then
        do _ <- countDown; ret r
      else if is_null r then
        do _ <- countDown; ret l
      else
        match _findMin r with
        | Throw e => throw e
        | Ok sv => do r' <- _simpleBSTDelete r sv; ret (Node sv l r' h c)
        end
  end.

(** The notification is inside [if (deleted && this.root)]. *)
Definition delete (s : t) (value : Z) : result (t * bool * list (Event Z t)) :=
  let initialCount := nodeCount s in
  let* (r, c) := _simpleBSTDelete (root s) value (nodeCount s) in
  let deleted := c <? initialCount in
  if deleted && negb (is_null r) then
    let s' := mk (setColor BLACK r) c in
    Ok (s', deleted, [mkEvent NODE_DELETED (Some value) s'])
  else Ok (mk r c, deleted, []).

Definition getValues (s : t) : list Z := _inorder (root s).

Fixpoint insert_all (s : t) (vs : list Z) : result t :=
  match vs with
  | [] => Ok s
  | v :: vs' => let* (s', _) := insert s v in insert_all s' vs'
  end.

(** [search(value)]: the node found or [null], and the notification. *)
Definition search (s : t) (value : Z) : TreeNode * list (SearchEvent Z t) :=
  let result := _searchNode (root s) value in
  (result, [mkSearchEvent value (negb (is_null result)) s]).

(** The calls a client can make, and their effect on a tree. *)
Inductive op : Type := Insert (value : Z) | Delete (value : Z).

Definition apply_op (s : t) (o : op) : result t :=
  match o with
  | Insert v => let* (s', _) := insert s v in Ok s'
  | Delete v => let* (s', _, _) := delete s v in Ok s'
  end.

Fixpoint run (s : t) (ops : list op) : result t :=
  match ops with
  | [] => Ok s
  | o :: ops' => let* s' := apply_op s o in run s' ops'
  end.

(** The same calls on the reference list. *)
Definition model (ops : list op) : list Z :=
  foldl (fun l o =>
           match o with
           | Insert v => list_insert v l
           | Delete v => list_delete v l
           end) [] ops.

(** The number of BLACK nodes down the left spine, and on every path from
    the node to a null link. *)
Fixpoint blackHeight (node : TreeNode) : nat :=
  match node with
  | null => O
  | Node _ l _ _ c => (match c with BLACK => 1 | RED => 0 end + blackHeight l)%nat
  end.

Fixpoint black_paths (node : TreeNode) : list nat :=
  match node with
  | null => [O]
  | Node _ l r _ c =>
      map (fun k => (match c with BLACK => 1 | RED => 0 end + k)%nat)
          (black_paths l ++ black_paths r)
  end.

(** The red-black shape the insertion keeps: the two subtrees of every node
    have the same black height, a RED node has no RED child, and a RED right
    child comes with a RED left child. *)
Fixpoint redBlack (node : TreeNode) : Prop :=
  match node with
  | null => True
  | Node _ l r _ c =>
      redBlack l /\ redBlack r /\
      blackHeight l = blackHeight r /\
      (c = RED -> _isRed l = false /\ _isRed r = false) /\
      (_isRed r = true -> _isRed l = true)
  end.

(** What [_insertNode] may return for a RED subtree before the parent has
    looked at it: a RED root whose left child is RED too. *)
Definition infrared (node : TreeNode) : Prop :=
  match node with
  | null => False
  | Node _ l r _ c =>
      c = RED /\ _isRed l = true /\ _isRed r = false /\
      redBlack l /\ redBlack r /\ blackHeight l = blackHeight r
  end.

(** What [_insertNode] returns for a subtree [node] of the red-black shape:
    the black height is kept; a subtree that was not RED has the shape again,
    a RED one is still RED and has the shape up to its left child. *)
Definition grown (node node' : TreeNode) : Prop :=
  blackHeight node' = blackHeight node /\
  if _isRed node
  then _isRed node' = true /\ (redBlack node' \/ infrared node')
  else redBlack node'.

End RedBlackTree.

(** ** trees/MinHeap.js *)

Module MinHeap.

Record t : Type := mk {
  array : list Z;
  root : TreeNode;
  nodeCount : Z
}.

Definition empty : t := mk [] null 0.

(** [this.array[i] < this.array[j]]; false when a side is [undefined]. *)
Definition less (a : list Z) (i j : nat) : bool :=
  match a !! i, a !! j with
  | Some x, Some y => x <? y
  | _, _ => false
  end.

(** The destructuring swap; it is only reached after [less] held, so both
    slots exist. *)
Definition swap (a : list Z) (i j : nat) : list Z :=
  match a !! i, a !! j with
  | Some x, Some y => <[i := y]> (<[j := x]> a)
  | _, _ => a
  end.

Fixpoint _heapifyUp_loop (fuel : nat) (a : list Z) (index : nat) : result (list Z) :=
  match index with
  | O => Ok a
  | S _ =>
      let parentIndex := ((index - 1) / 2)%nat in
      if less a index parentIndex then
        match fuel with
        | O => Throw OutOfFuel
        | S fuel' => _heapifyUp_loop fuel' (swap a index parentIndex) parentIndex
        end
      else Ok a
  end.

Definition _heapifyUp (a : list Z) (index : nat) : result (list Z) :=
  _heapifyUp_loop index a index.

Fixpoint _heapifyDown_loop (fuel : nat) (a : list Z) (index : nat) : result (list Z) :=
  let leftChild := (2 * index + 1)%nat in
  let rightChild := (2 * index + 2)%nat in
  let smallest := index in
  let smallest :=
    if (leftChild <? length a)%nat && less a leftChild smallest
    then leftChild else smallest in
  let smallest :=
    if (rightChild <? length a)%nat && less a rightChild smallest
    then rightChild else smallest in
  if decide (smallest = index) then Ok a
  else
    match fuel with
    | O => Throw OutOfFuel
    | S fuel' => _heapifyDown_loop fuel' (swap a index smallest) smallest
    end.

Definition _heapifyDown (a : list Z) (index : nat) : result (list Z) :=
  _heapifyDown_loop (length a) a index.

Fixpoint _buildTreeFromArray_loop (fuel : nat) (a : list Z) (index : nat) : result TreeNode :=
  match a !! index with
  | None => Ok null
  | Some v =>
      match fuel with
      | O => Throw OutOfFuel
      | S fuel' =>
          let* l := _buildTreeFromArray_loop fuel' a (2 * index + 1) in
          let* r := _buildTreeFromArray_loop fuel' a (2 * index + 2) in
          Ok (Node v l r 1 RED)
      end
  end.

Definition _buildTreeFromArray (a : list Z) (index : nat) : result TreeNode :=
  _buildTreeFromArray_loop (length a) a index.

Definition insert (s : t) (value : Z) : result (t * list (Event Z t)) :=
  let a := array s ++ [value] in
  let* a' := _heapifyUp a (length a - 1) in
  let* r := _buildTreeFromArray a' 0 in
  let s' := mk a' r (nodeCount s + 1) in
  Ok (s', [mkEvent NODE_INSERTED (Some value) s']).

(** [delete()]: [min = array[0]], [last = array.pop()]. *)
Definition delete (s : t) : result (t * bool * list (Event Z t)) :=
  match array s with
  | [] => Ok (s, false, [])
  | min :: _ =>
      let last := List.last (array s) min in
      let popped := removelast (array s) in
      let* a' :=
        (match popped with
         | [] => Ok popped
         | _ :: rest => _heapifyDown (last :: rest) 0
         end) in
      let* r := _buildTreeFromArray a' 0 in
      let s' := mk a' r (nodeCount s - 1) in
      Ok (s', true, [mkEvent NODE_DELETED (Some min) s'])
  end.

(** The calls a client can make. *)
Inductive op : Type := Insert (value : Z) | Delete.

Definition apply_op (s : t) (o : op) : result (t * list (Event Z t)) :=
  match o with
  | Insert v => insert s v
  | Delete => let* (s', _, evs) := delete s in Ok (s', evs)
  end.

(** Run the calls in order, collecting every notification. *)
Fixpoint run (s : t) (ops : list op) : result (t * list (Event Z t)) :=
  match ops with
  | [] => Ok (s, [])
  | o :: ops' =>
      let* (s1, e1) := apply_op s o in
      let* (s2, e2) := run s1 ops' in
      Ok (s2, e1 ++ e2)
  end.

(** The min-heap property of the backing array: a slot is at most each of
    its children, where they exist. *)
Definition heap_property (a : list Z) : Prop :=
  forall (i : nat) (x y : Z),
    a !! i = Some x ->
    (a !! (2 * i + 1)%nat = Some y -> x <= y) /\
    (a !! (2 * i + 2)%nat = Some y -> x <= y).

(** The content of slot [j], for [j] inside the array. *)
Definition val (a : list Z) (j : nat) : Z := default 0 (a !! j).

(** While sifting up from [k]: the array is a heap except possibly between
    [k] and its parent, and the children of [k] already respect the parent
    of [k]. *)
Definition up_inv (a : list Z) (k : nat) : Prop :=
  (forall j, (0 < j < length a)%nat -> j <> k -> val a ((j - 1) / 2) <= val a j) /\
  (forall c, (0 < k)%nat -> (c < length a)%nat -> ((c - 1) / 2)%nat = k ->
     val a ((k - 1) / 2) <= val a c).

(** While sifting down from [k]: the array is a heap except possibly between
    [k] and its children, which already respect the parent of [k]. *)
Definition down_inv (a : list Z) (k : nat) : Prop :=
  (forall j, (0 < j < length a)%nat -> ((j - 1) / 2)%nat <> k ->
     val a ((j - 1) / 2) <= val a j) /\
  (forall c, (0 < k)%nat -> (c < length a)%nat -> ((c - 1) / 2)%nat = k ->
     val a ((k - 1) / 2) <= val a c).

(** The values carried by the deletion notifications, in emission order. *)
Definition deleted_values (evs : list (Event Z t)) : list Z :=
  omap (fun e => match ev_name e with NODE_DELETED => ev_value e | _ => None end) evs.

(** [array.indexOf(value)]: the first index holding [value], or [-1]. *)
Fixpoint indexOf (a : list Z) (value : Z) : Z :=
  match a with
  | [] => -1
  | x :: a' =>
      if x =? value then 0
      else let i := indexOf a' value in if i =? -1 then -1 else i + 1
  end.

Fixpoint _findNodeAtIndex (node : TreeNode) (targetIndex currentIndex : Z) : TreeNode :=
  match node with
  | null => null
  | Node _ l r _ _ =>
      if targetIndex <? currentIndex then null
      else if currentIndex =? targetIndex then node
      else
        let leftResult := _findNodeAtIndex l targetIndex (2 * currentIndex + 1) in
        if is_null leftResult
        then _findNodeAtIndex r targetIndex (2 * currentIndex + 2)
        else leftResult
  end.

Definition search (s : t) (value : Z) : TreeNode * list (SearchEvent Z t) :=
  let index := indexOf (array s) value in
  if index =? -1 then (null, [mkSearchEvent value false s])
  else (_findNodeAtIndex (root s) index 0, [mkSearchEvent value true s]).

(** [getMin()]: [None] is the [null] of an empty heap. *)
Definition getMin (s : t) : option Z :=
  match array s with
  | [] => None
  | x :: _ => Some x
  end.

(** [clear()]: the array is emptied, then [super.clear()]. *)
Definition clear (s : t) : t * list (Event Z t) :=
  let s' := mk [] null 0 in
  (s', [mkEvent TREE_RESET None s']).

End MinHeap.

(** ** trees/Trie.js

    Words are ASCII strings; a [Map] from characters to child nodes is an
    association list in insertion order. *)

Module Trie.

Inductive TrieNode : Type :=
| mkNode (char : string) (children : list (ascii * TrieNode)) (isEndOfWord : bool).

Definition newTrieNode (char : string) : TrieNode := mkNode char [] false.

Definition children (n : TrieNode) : list (ascii * TrieNode) :=
  match n with mkNode _ cs _ => cs end.
Definition isEndOfWord (n : TrieNode) : bool :=
  match n with mkNode _ _ e => e end.

Record t : Type := mk {
  root : option TrieNode;
  nodeCount : Z;
  wordCount : Z
}.

(** [constructor]: [this.root = new TrieNode('ROOT')]. *)
Definition empty : t := mk (Some (newTrieNode "ROOT")) 0 0.

(** [Map.get], [Map.set] on a key that is present, [Map.delete]. *)
Fixpoint map_get {V} (c : ascii) (m : list (ascii * V)) : option V :=
  match m with
  | [] => None
  | (k, v) :: m' => if Ascii.eqb k c then Some v else map_get c m'
  end.

Fixpoint map_replace {V} (c : ascii) (v : V) (m : list (ascii * V)) : list (ascii * V) :=
  match m with
  | [] => []
  | (k, w) :: m' => if Ascii.eqb k c then (k, v) :: m' else (k, w) :: map_replace c v m'
  end.

Fixpoint map_delete {V} (c : ascii) (m : list (ascii * V)) : list (ascii * V) :=
  match m with
  | [] => []
  | (k, w) :: m' => if Ascii.eqb k c then m' else (k, w) :: map_delete c m'
  end.

Definition lowerChar (c : ascii) : ascii :=
  let n := nat_of_ascii c in
  if (65 <=? n)%nat && (n <=? 90)%nat then ascii_of_nat (n + 32) else c.

Fixpoint toLowerCase (w : string) : string :=
  match w with
  | EmptyString => EmptyString
  | String c w' => String (lowerChar c) (toLowerCase w')
  end.

(** The [for] loop of [insert] followed by the end-of-word marking, from
    [currentNode] on: the updated node, the number of nodes created and
    whether the word is new. *)
Fixpoint insert_loop (word : string) (currentNode : TrieNode) : TrieNode * Z * bool :=
  match currentNode with
  | mkNode ch cs e =>
      match word with
      | EmptyString => if e then (currentNode, 0, false) else (mkNode ch cs true, 0, true)
      | String c word' =>
          match map_get c cs with
          | Some child =>
              let '(child', n, b) := insert_loop word' child in
              (mkNode ch (map_replace c child' cs) e, n, b)
          | None =>
              let '(child', n, b) := insert_loop word' (newTrieNode (String c EmptyString)) in
              (mkNode ch (cs ++ [(c, child')]) e, n + 1, b)
          end
      end
  end.

Definition insert (s : t) (word : string) : result (t * list (Event string t)) :=
  match word with
  | EmptyString => Ok (s, [])          (* alert, return *)
  | String _ _ =>
      let word := toLowerCase word in
      match root s with
      | None => Throw TypeError        (* currentNode.children of null *)
      | Some r =>
          let '(r', created, isNew) := insert_loop word r in
          let s' := mk (Some r') (nodeCount s + created)
                       (if isNew then wordCount s + 1 else wordCount s) in
          Ok (s', [mkEvent NODE_INSERTED (Some word) s'])
      end
  end.

(** The walk shared by [search] and [startsWith]: the node reached, or
    [None] when a character is missing. *)
Fixpoint walk (word : string) (currentNode : TrieNode) : option TrieNode :=
  match word with
  | EmptyString => Some currentNode
  | String c word' =>
      match map_get c (children currentNode) with
      | Some child => walk word' child
      | None => None
      end
  end.

Definition search (s : t) (word : string)
  : result (option TrieNode * list (SearchEvent string t)) :=
  match word with
  | EmptyString => Ok (None, [])
  | String _ _ =>
      let word := toLowerCase word in
      match root s with
      | None => Throw TypeError
      | Some r =>
          match walk word r with
          | None => Ok (None, [mkSearchEvent word false s])
          | Some n =>
              let found := isEndOfWord n in
              Ok (if found then Some n else None, [mkSearchEvent word found s])
          end
      end
  end.

Definition startsWith (s : t) (prefix : string) : result bool :=
  match toLowerCase prefix with
  | EmptyString => Ok true             (* the loop body never runs *)
  | String _ _ as prefix =>
      match root s with
      | None => Throw TypeError
      | Some r => Ok (bool_decide (is_Some (walk prefix r)))
      end
  end.

(** [_deleteWord(node, word, index)] on the rest of the word: the updated
    node, the returned flag and the number of nodes removed. *)
Fixpoint _deleteWord (word : string) (node : TrieNode) : TrieNode * bool * Z :=
  match node with
  | mkNode ch cs e =>
      match word with
      | EmptyString =>
          if e then (mkNode ch cs false, bool_decide (cs = []), 0)
          else (node, false, 0)
      | String c word' =>
          match map_get c cs with
          | None => (node, false, 0)
          | Some child =>
              let '(child', shouldDeleteChild, n) := _deleteWord word' child in
              if shouldDeleteChild then
                let cs' := map_delete c cs in
                (mkNode ch cs' e, bool_decide (cs' = []) && negb e, n + 1)
              else (mkNode ch (map_replace c child' cs) e, false, n)
          end
      end
  end.

Definition delete (s : t) (word : string) : result (t * bool * list (Event string t)) :=
  match word with
  | EmptyString => Ok (s, false, [])
  | String _ _ =>
      let word := toLowerCase word in
      match root s with
      | None => Throw TypeError
      | Some r =>
          let '(r', deleted, removed) := _deleteWord word r in
          if deleted then
            let s' := mk (Some r') (nodeCount s - removed) (wordCount s - 1) in
            Ok (s', true, [mkEvent NODE_DELETED (Some word) s'])
          else Ok (mk (Some r') (nodeCount s - removed) (wordCount s), false, [])
      end
  end.

(** [clear()]: the fresh root is assigned first, then [super.clear()]
    (TreeBase) sets [this.root = null] and emits the reset. *)
Definition clear (s : t) : t * list (Event string t) :=
  let s1 := mk (Some (newTrieNode "ROOT")) 0 0 in
  let s2 := mk None 0 (wordCount s1) in
  (s2, [mkEvent TREE_RESET None s2]).

(** The calls of a client after a reset.  A call that throws has changed
    nothing but the animation log, so the trie is carried over as it was. *)
Inductive call : Type :=
| CInsert (word : string)
| CSearch (word : string)
| CStartsWith (prefix : string).

Definition call_arg (c : call) : string :=
  match c with CInsert w | CSearch w | CStartsWith w => w end.

Definition is_empty_string (w : string) : bool :=
  match w with EmptyString => true | String _ _ => false end.

Definition threw {A} (r : result A) : bool :=
  match r with Throw TypeError => true | _ => false end.

(** The state after the call and whether the call threw a [TypeError]. *)
Definition perform (s : t) (c : call) : t * bool :=
  match c with
  | CInsert w =>
    (match insert s w with
     | Ok (s', _) => s'
     | Throw _ => s
     end, threw (insert s w))
| CSearch w => (s, threw (search s w))
  | CStartsWith w => (s, threw (startsWith s w))
  end.

Fixpoint perform_all (s : t) (cs : list call) : t * list bool :=
  match cs with
  | [] => (s, [])
  | c :: cs' =>
      let '(s1, b) := perform s c in
      let '(s2, bs) := perform_all s1 cs' in
      (s2, b :: bs)
  end.



(** The calls that change a trie, and their effect. *)
Inductive op : Type := Insert (word : string) | Delete (word : string).

Definition apply_op (s : t) (o : op) : result t :=
  match o with
  | Insert w => let* (s', _) := insert s w in Ok s'
  | Delete w => let* (s', _, _) := delete s w in Ok s'
  end.

Fixpoint run (s : t) (ops : list op) : result t :=
  match ops with
  | [] => Ok s
  | o :: ops' => let* s' := apply_op s o in run s' ops'
  end.

Definition insert_all (s : t) (ws : list string) : result t := run s (map Insert ws).




End Trie.

(** ** trees/BTree.js *)

Module BTree.

(** [keys] may hold [undefined] entries, [children] too. *)
Inductive BTreeNode : Type :=
| mkNode (keys : list (option Z)) (children : list (option BTreeNode)) (isLeaf : bool).

Definition keys (n : BTreeNode) : list (option Z) :=
  match n with mkNode ks _ _ => ks end.
Definition children (n : BTreeNode) : list (option BTreeNode) :=
  match n with mkNode _ cs _ => cs end.
Definition isLeaf (n : BTreeNode) : bool :=
  match n with mkNode _ _ l => l end.

Record t : Type := mk {
  degree : nat;               (* this.t *)
  root : option BTreeNode;
  nodeCount : Z
}.

(** [new BTree(t)]; the factory uses the default [t = 2]. *)
Definition empty (deg : nat) : t := mk deg None 0.

(** [keys.length === 2 * this.t - 1] *)
Definition is_full (deg : nat) (n : BTreeNode) : bool :=
  Z.of_nat (length (keys n)) =? 2 * Z.of_nat deg - 1.

(** [_splitChild(x, i)].  The median is read from [y.keys] after
    [y.keys.length = this.t - 1]. *)
Definition _splitChild (deg : nat) (x : BTreeNode) (i : nat) : result BTreeNode :=
  match aread (children x) i with
  | None => Throw TypeError                       (* y.isLeaf of undefined *)
  | Some y =>
      let zkeys := map (fun j => aread (keys y) (j + deg)) (seq 0 (deg - 1)) in
      let zchildren :=
        if isLeaf y then []
        else map (fun j => aread (children y) (j + deg)) (seq 0 deg) in
      let z := mkNode zkeys zchildren (isLeaf y) in
      match deg with
      | O => Throw RangeError                     (* y.keys.length = -1 *)
      | S _ =>
          let ykeys := set_length (deg - 1) (keys y) in
          let ychildren := set_length (if isLeaf y then 0 else deg) (children y) in
          let y' := mkNode ykeys ychildren (isLeaf y) in
          let xchildren := shift_in (i + 1) (Some z) (<[i := Some y']> (children x)) in
          let xkeys := shift_in i (aread ykeys (deg - 1)) (keys x) in
          Ok (mkNode xkeys xchildren (isLeaf x))
      end
  end.

(** The leaf loop of [_insertNonFull]; [n] is [i + 1]. *)
Fixpoint leaf_loop (n : nat) (ks : list (option Z)) (value : Z) : list (option Z) :=
  match n with
  | O => aset ks 0 (Some value)
  | S i =>
      if js_lt value (aread ks i)
      then leaf_loop i (aset ks (S i) (aread ks i)) value
      else aset ks (S i) (Some value)
  end.

(** The descent loop of [_insertNonFull] followed by [i++]; [n] is [i + 1]. *)
Fixpoint descend_loop (n : nat) (ks : list (option Z)) (value : Z) : nat :=
  match n with
  | O => O
  | S i => if js_lt value (aread ks i) then descend_loop i ks value else S i
  end.

Fixpoint _insertNonFull (fuel : nat) (deg : nat) (x : BTreeNode) (value : Z)
  : result BTreeNode :=
  if isLeaf x then
    Ok (mkNode (leaf_loop (length (keys x)) (keys x) value) (children x) (isLeaf x))
  else
    match fuel with
    | O => Throw OutOfFuel
    | S fuel' =>
        let i := descend_loop (length (keys x)) (keys x) value in
        match aread (children x) i with
        | None => Throw TypeError
        | Some c =>
            let* (x1, i1) :=
              (if is_full deg c then
                 let* x1 := _splitChild deg x i in
                 Ok (x1, if js_gt value (aread (keys x1) i) then S i else i)
               else Ok (x, i)) in
            match aread (children x1) i1 with
            | None => Throw TypeError
            | Some c1 =>
                let* c2 := _insertNonFull fuel' deg c1 value in
                Ok (mkNode (keys x1) (<[i1 := Some c2]> (children x1)) (isLeaf x1))
            end
        end
    end.

(** The number of levels below a node, as a loop budget for the descent. *)
Fixpoint levels (n : BTreeNode) : nat :=
  match n with
  | mkNode _ cs _ =>
      S (foldr (fun oc acc =>
                  match oc with
                  | Some c => Nat.max (levels c) acc
                  | None => acc
                  end) O cs)
  end.

(** [insert(value)]; the class makes no [eventBus.emit] call. *)
Definition insert (s : t) (value : Z) : result (t * list (Event Z t)) :=
  match root s with
  | None => Ok (mk (degree s) (Some (mkNode [Some value] [] true)) (nodeCount s + 1), [])
  | Some r =>
      let* r' :=
        (if is_full (degree s) r then
           let s0 := mkNode [] [Some r] false in
           let* s1 := _splitChild (degree s) s0 0 in
           _insertNonFull (levels s1) (degree s) s1 value
         else _insertNonFull (levels r) (degree s) r value) in
      Ok (mk (degree s) (Some r') (nodeCount s + 1), [])
  end.

(** [delete(value)]: warns on the console and returns [false]. *)
Definition delete {A : Type} (s : t) (value : A)
  : result (t * bool * list (Event Z t)) :=
  Ok (s, false, []).

Fixpoint insert_all (s : t) (vs : list Z) : result t :=
  match vs with
  | [] => Ok s
  | v :: vs' => let* (s', _) := insert s v in insert_all s' vs'
  end.



(** The shape of a subtree with [h] levels below its root: the root holds
    between [lo] and [2t - 1] keys; with [h = 0] it is a leaf without
    children, otherwise it is internal with one child more than keys, and
    every child is a subtree of [h - 1] levels holding at least [t - 1]
    keys. *)
Fixpoint wf (deg lo h : nat) (n : BTreeNode) : Prop :=
  (lo <= length (keys n) <= 2 * deg - 1)%nat /\
  match h with
  | O => isLeaf n = true /\ children n = []
  | S h' =>
      isLeaf n = false /\
      length (children n) = S (length (keys n)) /\
      Forall (fun oc => match oc with
                        | Some c => wf deg (deg - 1) h' c
                        | None => False
                        end) (children n)
  end.

(** A child slot that holds a subtree of [h] levels. *)
Definition good (deg h : nat) (oc : option BTreeNode) : Prop :=
  match oc with
  | Some c => wf deg (deg - 1) h c
  | None => False
  end.

(** With [t = 0] no node is ever full ([2t - 1 = -1]): the tree stays a
    single leaf. *)
Definition single_leaf (s : t) : Prop :=
  degree s = 0%nat /\
  match root s with
  | None => True
  | Some r => BTree.isLeaf r = true /\ children r = []
  end.

(** The invariant of a B-Tree object: its root, when present, is a subtree
    of some number of levels whose own key count has no lower bound. *)
Definition tree_ok (deg : nat) (s : t) : Prop :=
  degree s = deg /\
  match root s with
  | None => True
  | Some r => exists h, wf deg 0 h r
  end.

(** The scan [while (i < node.keys.length && value > node.keys[i]) i++] of
    [_searchNode], from the front of [ks]: the index where it stops. *)
Fixpoint scan (ks : list (option Z)) (value : Z) : nat :=
  match ks with
  | [] => O
  | k :: ks' => if js_gt value k then S (scan ks' value) else O
  end.

(** [_searchNode(node, value)]: the hit [{ node, index }] or [null]. *)
Fixpoint _searchNode (fuel : nat) (node : BTreeNode) (value : Z)
  : result (option (BTreeNode * nat)) :=
  let i := scan (keys node) value in
  if (i <? length (keys node))%nat && js_eq value (aread (keys node) i)
  then Ok (Some (node, i))
  else if isLeaf node then Ok None
  else
    match fuel with
    | O => Throw OutOfFuel
    | S fuel' =>
        match aread (children node) i with
        | None => Throw TypeError                 (* node.keys of undefined *)
        | Some c => _searchNode fuel' c value
        end
    end.

Definition search (s : t) (value : Z) : result (option (BTreeNode * nat)) :=
  match root s with
  | None => Ok None
  | Some r => _searchNode (levels r) r value
  end.

End BTree.

(** ** trees/BPlusTree.js *)

Module BPlusTree.

Inductive BPlusTreeNode : Type :=
| mkNode (keys : list (option Z)) (children : list (option BPlusTreeNode)) (isLeaf : bool).

Definition keys (n : BPlusTreeNode) : list (option Z) :=
  match n with mkNode ks _ _ => ks end.
Definition children (n : BPlusTreeNode) : list (option BPlusTreeNode) :=
  match n with mkNode _ cs _ => cs end.
Definition isLeaf (n : BPlusTreeNode) : bool :=
  match n with mkNode _ _ l => l end.

Record t : Type := mk {
  degree : nat;               (* this.t *)
  root : option BPlusTreeNode;
  nodeCount : Z
}.

Definition empty (deg : nat) : t := mk deg None 0.

Definition is_full (deg : nat) (n : BPlusTreeNode) : bool :=
  Z.of_nat (length (keys n)) =? 2 * Z.of_nat deg - 1.

(** The second copy loop of the leaf branch, run after
    [y.keys.length = this.t]:
    [for (j = 0; j < t; j++) if (pivotIndex + j < y.keys.length) z.keys[j] = y.keys[pivotIndex + j]]. *)
Definition copy_from_pivot (deg : nat) (ykeys zkeys : list (option Z)) : list (option Z) :=
  let pivotIndex := (deg - 1)%nat in
  foldl (fun zk j =>
           if (pivotIndex + j <? length ykeys)%nat
           then aset zk j (aread ykeys (pivotIndex + j))
           else zk)
        zkeys (seq 0 deg).

Definition _splitChild (deg : nat) (x : BPlusTreeNode) (index : nat) : result BPlusTreeNode :=
  match aread (children x) index with
  | None => Throw TypeError
  | Some y =>
      if isLeaf y then
        let zkeys0 := map (fun j => aread (keys y) (j + deg)) (seq 0 (deg - 1)) in
        let ykeys1 := set_length deg (keys y) in
        let zkeys := copy_from_pivot deg ykeys1 zkeys0 in
        let z := mkNode zkeys [] true in
        match deg with
        | O => Throw RangeError
        | S _ =>
            let y' := mkNode (set_length (deg - 1) ykeys1) (children y) true in
            let xchildren := shift_in (index + 1) (Some z) (<[index := Some y']> (children x)) in
            (* Copy pivot to parent: x.keys[index] = z.keys[0] *)
            let xkeys := shift_in index (aread zkeys 0) (keys x) in
            Ok (mkNode xkeys xchildren (isLeaf x))
        end
      else
        let zkeys := map (fun j => aread (keys y) (j + deg)) (seq 0 (deg - 1)) in
        let zchildren := map (fun j => aread (children y) (j + deg)) (seq 0 deg) in
        let z := mkNode zkeys zchildren false in
        match deg with
        | O => Throw RangeError
        | S _ =>
            let ykeys := set_length (deg - 1) (keys y) in
            let y' := mkNode ykeys (set_length deg (children y)) false in
            let xchildren := shift_in (index + 1) (Some z) (<[index := Some y']> (children x)) in
            (* x.keys[index] = y.keys[this.t - 1], read after the truncation *)
            let xkeys := shift_in index (aread ykeys (deg - 1)) (keys x) in
            Ok (mkNode xkeys xchildren (isLeaf x))
        end
  end.

Fixpoint leaf_loop (n : nat) (ks : list (option Z)) (value : Z) : list (option Z) :=
  match n with
  | O => aset ks 0 (Some value)
  | S i =>
      if js_lt value (aread ks i)
      then leaf_loop i (aset ks (S i) (aread ks i)) value
      else aset ks (S i) (Some value)
  end.

Fixpoint descend_loop (n : nat) (ks : list (option Z)) (value : Z) : nat :=
  match n with
  | O => O
  | S i => if js_lt value (aread ks i) then descend_loop i ks value else S i
  end.

Fixpoint _insertNonFull (fuel : nat) (deg : nat) (x : BPlusTreeNode) (value : Z)
  : result BPlusTreeNode :=
  if isLeaf x then
    Ok (mkNode (leaf_loop (length (keys x)) (keys x) value) (children x) (isLeaf x))
  else
    match fuel with
    | O => Throw OutOfFuel
    | S fuel' =>
        let i := descend_loop (length (keys x)) (keys x) value in
        match aread (children x) i with
        | None => Throw TypeError
        | Some c =>
            let* (x1, i1) :=
              (if is_full deg c then
                 let* x1 := _splitChild deg x i in
                 Ok (x1, if js_gt value (aread (keys x1) i) then S i
                         else if js_eq value (aread (keys x1) i) then S i
                         else i)
               else Ok (x, i)) in
            match aread (children x1) i1 with
            | None => Throw TypeError
            | Some c1 =>
                let* c2 := _insertNonFull fuel' deg c1 value in
                Ok (mkNode (keys x1) (<[i1 := Some c2]> (children x1)) (isLeaf x1))
            end
        end
    end.

Fixpoint levels (n : BPlusTreeNode) : nat :=
  match n with
  | mkNode _ cs _ =>
      S (foldr (fun oc acc =>
                  match oc with
                  | Some c => Nat.max (levels c) acc
                  | None => acc
                  end) O cs)
  end.

(** [insert(value)]; the class makes no [eventBus.emit] call. *)
Definition insert (s : t) (value : Z) : result (t * list (Event Z t)) :=
  match root s with
  | None => Ok (mk (degree s) (Some (mkNode [Some value] [] true)) (nodeCount s + 1), [])
  | Some r =>
      let* r' :=
        (if is_full (degree s) r then
           let s0 := mkNode [] [Some r] false in
           let* s1 := _splitChild (degree s) s0 0 in
           _insertNonFull (levels s1) (degree s) s1 value
         else _insertNonFull (levels r) (degree s) r value) in
      Ok (mk (degree s) (Some r') (nodeCount s + 1), [])
  end.

(** [delete(value)]: warns on the console and returns [false]. *)
Definition delete {A : Type} (s : t) (value : A)
  : result (t * bool * list (Event Z t)) :=
  Ok (s, false, []).

Fixpoint insert_all (s : t) (vs : list Z) : result t :=
  match vs with
  | [] => Ok s
  | v :: vs' => let* (s', _) := insert s v in insert_all s' vs'
  end.

End BPlusTree.

(** * Properties *)

(** ** Unsupported delete (Segment, Fenwick, B-Tree, B+ Tree) *)

(** C3: on each of the four structures, for every state and every argument
    (of any type), [delete] returns normally (it does not throw) with the failure indicator
    [false], the state it returns is the state it was given (data, node graph
    and count), and it emits nothing. *)
Theorem C3_delete_unsupported (A : Type) (value : A) :
  (forall s, SegmentTree.delete s value = Ok (s, false, [])) /\
  (forall s, FenwickTree.delete s value = Ok (s, false, [])) /\
  (forall s, BTree.delete s value = Ok (s, false, [])) /\
  (forall s, BPlusTree.delete s value = Ok (s, false, [])).
Proof. repeat split. Qed.

(** ** Fenwick tree: what [query] returns *)

Section Fenwick.
Import FenwickTree.

Lemma lowbit_pos (i : Z) : 1 <= i -> 1 <= lowbit i.
Proof.
  intros Hi. unfold lowbit.
  rewrite <- (Z.lnot_pred i), <- Z.ldiff_land.
  assert (0 <= Z.ldiff i (i - 1)) by (apply Z.ldiff_nonneg; lia).
  assert (Z.ldiff i (i - 1) <> 0).
  { intros E. apply Z.ldiff_le in E; lia. }
  lia.
Qed.

(** The update made by [insert]: the slot just appended is the only one
    below the array length on the path [index += lowbit(index)]. *)
Lemma updateBIT_loop_unfold fuel (tr : list Z) index delta :
  _updateBIT_loop fuel tr index delta =
    if index <? Z.of_nat (length tr) then
      match fuel with
      | O => Throw OutOfFuel
      | S fuel' => _updateBIT_loop fuel' (add_at tr index delta) (index + lowbit index) delta
      end
    else Ok tr.
Proof. destruct fuel; reflexivity. Qed.

Lemma updateBIT_last (tr : list Z) (delta : Z) :
  tr <> [] ->
  _updateBIT (tr ++ [0]) (Z.of_nat (length tr)) delta = Ok (tr ++ [delta]).
Proof.
  intros Hne. unfold _updateBIT.
  assert (Hlen : (1 <= length tr)%nat) by (destruct tr; [done|simpl; lia]).
  pose proof (lowbit_pos (Z.of_nat (length tr)) ltac:(lia)) as Hlow.
  assert (Hadd : add_at (tr ++ [0]) (Z.of_nat (length tr)) delta = tr ++ [delta]).
  { unfold add_at. destruct (Z.ltb_spec (Z.of_nat (length tr)) 0); [lia|].
    rewrite Nat2Z.id. apply list_eq. intros j.
    destruct (decide (j = length tr)) as [->|Hj].
    - rewrite list_lookup_alter_eq, !lookup_app_r, Nat.sub_diag by lia. done.
    - rewrite list_lookup_alter_ne by done.
      destruct (decide (j < length tr)%nat).
      + by rewrite !lookup_app_l by lia.
      + rewrite !lookup_app_r by lia.
        destruct (j - length tr)%nat as [|k] eqn:E; [lia|done]. }
  rewrite updateBIT_loop_unfold.
  destruct (Z.ltb_spec (Z.of_nat (length tr)) (Z.of_nat (length (tr ++ [0]))))
    as [_|Hge]; [|rewrite length_app in Hge; simpl in Hge; lia].
  rewrite length_app. cbn [length].
  replace (length tr + 1)%nat with (S (length tr)) by lia.
  rewrite Hadd, updateBIT_loop_unfold.
  destruct (Z.ltb_spec (Z.of_nat (length tr) + lowbit (Z.of_nat (length tr)))
              (Z.of_nat (length (tr ++ [delta])))) as [Hlt|_]; [|done].
  rewrite length_app in Hlt. simpl in Hlt. lia.
Qed.

(** After any sequence of inserts the BIT array is the data behind the dummy
    slot 0: no slot ever aggregates more than its own value. *)
Lemma fenwick_tree_is_shifted_data (vs : list Z) : forall s,
  tree s = 0 :: data s ->
  exists s', insert_all s vs = Ok s' /\
             data s' = data s ++ vs /\ tree s' = 0 :: data s'.
Proof.
  induction vs as [|v vs IH]; intros s Hs; cbn [insert_all].
  - exists s. by rewrite app_nil_r.
  - unfold insert. rewrite Hs. cbn [length].
    rewrite length_app. cbn [length].
    destruct (Z.leb_spec (Z.of_nat (S (length (data s))))
                (Z.of_nat (length (data s) + 1))); [|lia].
    replace (Z.of_nat (length (data s) + 1)) with (Z.of_nat (length (0 :: data s)))
      by (cbn [length]; lia).
    rewrite updateBIT_last by done. cbn [rbind].
    set (s1 := mk _ _ _ _).
    destruct (IH s1) as (s' & Hs' & Hd & Ht).
    { subst s1. cbn [tree data]. done. }
    exists s'. split; [done|]. split; [|done].
    rewrite Hd. subst s1. cbn [data]. by rewrite <- app_assoc.
Qed.

(** Hence [query(2)] is the second value, whatever was inserted first. *)
Lemma fenwick_query_2 (a1 a2 : Z) (rest : list Z) :
  exists s, insert_all empty (a1 :: a2 :: rest) = Ok s /\
            query s 2 = Ok (Some a2).
Proof.
  destruct (fenwick_tree_is_shifted_data (a1 :: a2 :: rest) empty eq_refl)
    as (s & Hs & Hd & Ht).
  exists s. split; [done|]. unfold query. rewrite Ht, Hd. reflexivity.
Qed.

(** C1 (violated by the code): after inserting 1 and then 2 into an empty
    Fenwick tree, [query(2)] returns 2 although the prefix sum is 3. *)
Theorem C1_query_is_not_prefix_sum :
  exists s, insert_all empty [1; 2] = Ok s /\
            query s 2 = Ok (Some 2) /\
            prefix_sum [1; 2] 2 = 3.
Proof.
  eexists. split; [reflexivity|]. split; reflexivity.
Qed.

End Fenwick.

(** ** Trie: the root after [clear] *)

Section TrieClear.
Import Trie.
Local Open Scope string_scope.

Lemma toLowerCase_empty (w : string) : toLowerCase w = "" <-> w = "".
Proof. destruct w; simpl; split; congruence. Qed.

Lemma clear_root (s : t) : root (fst (clear s)) = None.
Proof. reflexivity. Qed.

(** One call on a trie whose root is null: it throws exactly when its
    argument is not the empty string, and the root stays null. *)
Lemma perform_null_root (s : t) (c : call) :
  root s = None ->
  root (fst (perform s c)) = None /\
  snd (perform s c) = negb (is_empty_string (call_arg c)).
Proof.
  intros Hs. destruct c as [w|w|w]; destruct w as [|a w]; simpl;
    unfold insert, search, startsWith; simpl; rewrite ?Hs; simpl; auto.
Qed.

(** The claim of C10 fails for the empty string: on the cleared trie
    [startsWith("")] returns [true], and [insert("")] and [search("")]
    return without touching the root. *)
Lemma C10_empty_string_does_not_fail :
  let s := fst (clear empty) in
  root s = None /\
  startsWith s "" = Ok true /\
  insert s "" = Ok (s, []) /\
  search s "" = Ok (None, []).
Proof. repeat split. Qed.

(** C10 (amended): after [clear()] the root is null, and in every sequence
    of subsequent [insert], [search] and [startsWith] calls the root stays
    null and a call throws a [TypeError] exactly when its argument is not
    the empty string. *)
Theorem C10_cleared_trie_throws (s : t) (cs : list call) :
  root (fst (clear s)) = None /\
  root (fst (perform_all (fst (clear s)) cs)) = None /\
  snd (perform_all (fst (clear s)) cs)
    = map (fun c => negb (is_empty_string (call_arg c))) cs.
Proof.
  split; [reflexivity|].
  generalize (clear_root s). generalize (fst (clear s)) as s0.
  induction cs as [|c cs IH]; intros s0 Hs0; simpl; [auto|].
  destruct (perform_null_root s0 c Hs0) as [Hr Hb].
  destruct (perform s0 c) as [s1 b] eqn:Hp. simpl in Hr, Hb.
  destruct (IH s1 Hr) as [IH1 IH2].
  destruct (perform_all s1 cs) as [s2 bs]. simpl in *.
  split; [assumption|]. congruence.
Qed.

End TrieClear.

(** ** JavaScript array helpers *)

Section Arrays.
Context {A : Type}.
Implicit Types (l : list (option A)) (v : option A).

Lemma length_set_length n l : length (set_length n l) = n.
Proof.
  unfold set_length. rewrite length_app, length_take, length_replicate. lia.
Qed.

Lemma aread_ge l j : (length l <= j)%nat -> aread l j = None.
Proof. intros H. unfold aread. by rewrite lookup_ge_None_2. Qed.

Lemma aread_set_length_ge n l j : (n <= j)%nat -> aread (set_length n l) j = None.
Proof. intros H. apply aread_ge. by rewrite length_set_length. Qed.

Lemma aread_set_length_lt n l j :
  (j < n)%nat -> (n <= length l)%nat -> aread (set_length n l) j = aread l j.
Proof.
  intros H1 H2. unfold aread, set_length.
  rewrite lookup_app_l by (rewrite length_take; lia).
  by rewrite lookup_take_lt.
Qed.

Lemma set_length_exact n l : (n <= length l)%nat -> set_length n l = take n l.
Proof.
  intros H. unfold set_length.
  replace (n - length l)%nat with 0%nat by lia. simpl. apply app_nil_r.
Qed.

Lemma length_aset l j v :
  length (aset l j v) = if decide (j < length l)%nat then length l else S j.
Proof.
  unfold aset. destruct (decide _).
  - apply length_insert.
  - rewrite !length_app, length_replicate. simpl. lia.
Qed.

Lemma aread_aset_eq l j v : aread (aset l j v) j = v.
Proof.
  unfold aread, aset. destruct (decide _).
  - by rewrite list_lookup_insert_eq.
  - rewrite lookup_app_r by lia.
    rewrite lookup_app_r by (rewrite length_replicate; lia).
    rewrite length_replicate.
    replace (j - length l - (j - length l))%nat with 0%nat by lia. done.
Qed.

Lemma aread_aset_ne l j k v :
  (k < length l)%nat -> j <> k -> aread (aset l j v) k = aread l k.
Proof.
  intros Hk Hne. unfold aread, aset. destruct (decide _).
  - by rewrite list_lookup_insert_ne.
  - by rewrite lookup_app_l.
Qed.

Lemma length_shift_in i v l :
  length (shift_in i v l) = if decide (i < length l)%nat then S (length l) else S i.
Proof.
  unfold shift_in. destruct (decide _) as [H|H].
  - rewrite length_app, length_take. simpl. rewrite length_drop. lia.
  - rewrite length_aset. destruct (decide _); [lia|done].
Qed.

Lemma length_shift_in_le i v l :
  (i <= length l)%nat -> length (shift_in i v l) = S (length l).
Proof.
  intros H. rewrite length_shift_in. destruct (decide _); lia.
Qed.

Lemma aread_shift_in_eq i v l : aread (shift_in i v l) i = v.
Proof.
  unfold shift_in. destruct (decide _) as [H|H].
  - unfold aread. rewrite lookup_app_r by (rewrite length_take; lia).
    rewrite length_take. replace (i - i `min` length l)%nat with 0%nat by lia. done.
  - apply aread_aset_eq.
Qed.

Lemma shift_in_le i v l :
  (i <= length l)%nat -> shift_in i v l = take i l ++ v :: drop i l.
Proof.
  intros H. unfold shift_in. destruct (decide _) as [H'|H']; [done|].
  assert (i = length l) as -> by lia.
  unfold aset. destruct (decide _); [lia|].
  rewrite firstn_all, drop_all. replace (length l - length l)%nat with 0%nat by lia.
  done.
Qed.

Lemma aread_lookup l i x : l !! i = Some x -> aread l i = x.
Proof. unfold aread. by intros ->. Qed.

Lemma read_from_offset l (k n : nat) :
  (k + n <= length l)%nat ->
  map (fun j => aread l (j + k)) (seq 0 n) = take n (drop k l).
Proof.
  intros Hlen. change (map ?f ?l) with (f <$> l). apply list_eq. intros i.
  destruct (decide (i < n)%nat) as [Hi|Hi].
  - rewrite list_lookup_fmap, lookup_seq_lt by done. simpl.
    rewrite lookup_take_lt, lookup_drop by done.
    destruct (lookup_lt_is_Some_2 l (k + i)%nat ltac:(lia)) as [x Hx].
    rewrite Hx. f_equal. apply aread_lookup. rewrite <- Hx. f_equal. lia.
  - rewrite lookup_take_ge by lia.
    apply lookup_ge_None_2. rewrite length_fmap, length_seq. lia.
Qed.

Lemma insert_middle (cs1 cs2 : list (option A)) a b :
  <[length cs1 := b]> (cs1 ++ a :: cs2) = cs1 ++ b :: cs2.
Proof.
  rewrite insert_app_r_alt by lia. by rewrite Nat.sub_diag.
Qed.

Lemma shift_in_middle (cs1 cs2 : list (option A)) v :
  shift_in (length cs1) v (cs1 ++ cs2) = cs1 ++ v :: cs2.
Proof.
  rewrite shift_in_le by (rewrite length_app; lia).
  by rewrite take_app_length, drop_app_length.
Qed.

End Arrays.

(** ** B+ tree: what a split sends to the parent *)

Section BPlusSplit.
Import BPlusTree.

Lemma copy_from_pivot_tail (p : nat) (ykeys : list (option Z)) (js : list nat) zk :
  Forall (fun j => length ykeys <= p + j)%nat js ->
  foldl (fun zk j =>
           if (p + j <? length ykeys)%nat
           then aset zk j (aread ykeys (p + j))
           else zk) zk js = zk.
Proof.
  intros H. revert zk. induction H as [|j js Hj _ IH]; intros zk; simpl; [done|].
  destruct (Nat.ltb_spec (p + j) (length ykeys)); [lia|]. apply IH.
Qed.

(** Run after [y.keys.length = t], the loop copies one key: the pivot. *)
Lemma copy_from_pivot_spec (deg : nat) (ykeys zkeys : list (option Z)) :
  (1 <= deg)%nat -> length ykeys = deg ->
  copy_from_pivot deg ykeys zkeys = aset zkeys 0 (aread ykeys (deg - 1)).
Proof.
  intros Hd Hl. unfold copy_from_pivot.
  destruct deg as [|d]; [lia|].
  replace (S d - 1)%nat with d by lia.
  change (seq 0 (S d)) with (0%nat :: seq 1 d). cbn [foldl].
  replace (d + 0)%nat with d by lia.
  destruct (Nat.ltb_spec d (length ykeys)); [|lia].
  apply copy_from_pivot_tail.
  apply Forall_forall. intros j Hj. apply list_elem_of_In, in_seq in Hj. lia.
Qed.

(** Leaf split: the parent's new key at [index] is the middle key of the
    full leaf, and the same key is the first key of the new right leaf. *)
Lemma leaf_split_copies_middle_key (deg : nat) (x y : BPlusTreeNode) (index : nat) :
  (1 <= deg)%nat ->
  aread (children x) index = Some y ->
  isLeaf y = true ->
  is_full deg y = true ->
  exists x' z,
    _splitChild deg x index = Ok x' /\
    aread (keys x') index = aread (keys y) (deg - 1) /\
    aread (children x') (index + 1) = Some z /\
    isLeaf z = true /\
    aread (keys z) 0 = aread (keys y) (deg - 1).
Proof.
  intros Hd Hy Hleaf Hfull.
  unfold is_full in Hfull. apply Z.eqb_eq in Hfull.
  unfold _splitChild. rewrite Hy, Hleaf.
  destruct deg as [|d]; [lia|].
  rewrite copy_from_pivot_spec by (rewrite ?length_set_length; lia).
  do 2 eexists. split; [reflexivity|]. simpl keys. simpl children.
  rewrite !aread_shift_in_eq, aread_aset_eq.
  rewrite aread_set_length_lt by lia.
  replace (d - 0)%nat with d by lia. replace (S d - 1)%nat with d by lia.
  split; [reflexivity|]. split; [reflexivity|]. split; [reflexivity|].
  simpl keys. apply aread_aset_eq.
Qed.

(** Internal split: the key stored in the parent at [index] is read from
    [y.keys] after the truncation, hence [undefined]. *)
Lemma internal_split_parent_key_undefined (deg : nat) (x y : BPlusTreeNode) (index : nat) :
  (1 <= deg)%nat ->
  aread (children x) index = Some y ->
  isLeaf y = false ->
  exists x', _splitChild deg x index = Ok x' /\ aread (keys x') index = None.
Proof.
  intros Hd Hy Hleaf. unfold _splitChild. rewrite Hy, Hleaf.
  destruct deg as [|d]; [lia|].
  eexists. split; [reflexivity|]. simpl keys.
  rewrite aread_shift_in_eq. apply aread_set_length_ge. lia.
Qed.

(** C9 (violated by the code on internal splits): with [t = 2], inserting
    1..8 leaves a full internal root with keys 2, 4, 6; inserting 9 splits
    it, and the key the new parent receives is [undefined], not the middle
    key 4, which is in neither child either. *)
Theorem C9_internal_split_drops_middle_key :
  exists s8 r8 s9 r9 y z,
    insert_all (empty 2) [1; 2; 3; 4; 5; 6; 7; 8] = Ok s8 /\
    root s8 = Some r8 /\
    isLeaf r8 = false /\ keys r8 = [Some 2; Some 4; Some 6] /\
    insert s8 9 = Ok (s9, []) /\
    root s9 = Some r9 /\
    keys r9 = [None] /\
    children r9 = [Some y; Some z] /\
    keys y = [Some 2] /\ keys z = [Some 6].
Proof.
  do 6 eexists.
  split; [vm_compute; reflexivity|].
  split; [reflexivity|]. split; [reflexivity|]. split; [reflexivity|].
  split; [vm_compute; reflexivity|].
  repeat split; reflexivity.
Qed.

End BPlusSplit.

(** ** Completion notifications *)

Section Notifications.
Local Open Scope string_scope.





End Notifications.

(** ** Min-Heap: the heap order *)

Section HeapOrder.
Import MinHeap.
Implicit Types (a : list Z) (i j k : nat).

Lemma val_lookup a j x : a !! j = Some x -> val a j = x.
Proof. unfold val. by intros ->. Qed.

Lemma lookup_val a j : (j < length a)%nat -> a !! j = Some (val a j).
Proof.
  intros H. destruct (lookup_lt_is_Some_2 a j H) as [x Hx].
  by rewrite (val_lookup _ _ _ Hx).
Qed.

(** The heap property read from a child towards its parent. *)
Lemma heap_property_parent a :
  heap_property a <->
  forall j, (0 < j < length a)%nat -> val a ((j - 1) / 2) <= val a j.
Proof.
  split.
  - intros H j Hj.
    destruct (H ((j - 1) / 2)%nat (val a ((j - 1) / 2)) (val a j)) as [H1 H2].
    { apply lookup_val. lia. }
    assert (j = 2 * ((j - 1) / 2) + 1 \/ j = 2 * ((j - 1) / 2) + 2)%nat as [E|E] by lia.
    + apply H1. rewrite <- E. apply lookup_val. lia.
    + apply H2. rewrite <- E. apply lookup_val. lia.
  - intros H i x y Hx. split; intros Hy.
    + pose proof (lookup_lt_Some _ _ _ Hy).
      specialize (H (2 * i + 1)%nat ltac:(lia)).
      replace ((2 * i + 1 - 1) / 2)%nat with i in H by lia.
      by rewrite (val_lookup _ _ _ Hx), (val_lookup _ _ _ Hy) in H.
    + pose proof (lookup_lt_Some _ _ _ Hy).
      specialize (H (2 * i + 2)%nat ltac:(lia)).
      replace ((2 * i + 2 - 1) / 2)%nat with i in H by lia.
      by rewrite (val_lookup _ _ _ Hx), (val_lookup _ _ _ Hy) in H.
Qed.

Lemma swap_length a i j : length (swap a i j) = length a.
Proof.
  unfold swap. destruct (a !! i), (a !! j); try done.
  by rewrite !length_insert.
Qed.

Lemma swap_lookup a i j k :
  (i < length a)%nat -> (j < length a)%nat ->
  swap a i j !! k =
    if decide (k = i) then a !! j else if decide (k = j) then a !! i else a !! k.
Proof.
  intros Hi Hj. unfold swap.
  destruct (lookup_lt_is_Some_2 a i Hi) as [x Hx].
  destruct (lookup_lt_is_Some_2 a j Hj) as [y Hy].
  rewrite Hx, Hy.
  destruct (decide (k = i)) as [->|Hki].
  - by rewrite list_lookup_insert_eq by (rewrite length_insert; lia).
  - rewrite list_lookup_insert_ne by done.
    destruct (decide (k = j)) as [->|Hkj].
    + by rewrite list_lookup_insert_eq.
    + by rewrite list_lookup_insert_ne.
Qed.

Lemma val_swap a i j k :
  (i < length a)%nat -> (j < length a)%nat ->
  val (swap a i j) k =
    if decide (k = i) then val a j else if decide (k = j) then val a i else val a k.
Proof.
  intros Hi Hj. unfold val. rewrite swap_lookup by done.
  repeat case_decide; done.
Qed.

Lemma val_swap_l a i j :
  (i < length a)%nat -> (j < length a)%nat -> val (swap a i j) i = val a j.
Proof. intros. rewrite val_swap by done. by rewrite decide_True. Qed.

Lemma val_swap_r a i j :
  (i < length a)%nat -> (j < length a)%nat -> val (swap a i j) j = val a i.
Proof. intros. rewrite val_swap by done. repeat case_decide; by subst. Qed.

Lemma val_swap_ne a i j k :
  (i < length a)%nat -> (j < length a)%nat -> k <> i -> k <> j ->
  val (swap a i j) k = val a k.
Proof. intros. rewrite val_swap by done. by rewrite !decide_False. Qed.

Lemma swap_Permutation a i j :
  (i < length a)%nat -> (j < length a)%nat -> swap a i j ≡ₚ a.
Proof.
  intros Hi Hj. apply Permutation_inj. split; [apply swap_length|].
  exists (fun k => if decide (k = i) then j else if decide (k = j) then i else k).
  split.
  - intros k1 k2. repeat case_decide; lia.
  - intros k. rewrite swap_lookup by done. repeat case_decide; subst; done.
Qed.

Lemma less_val a i j :
  (i < length a)%nat -> (j < length a)%nat ->
  less a i j = bool_decide (val a i < val a j).
Proof.
  intros Hi Hj. unfold less. rewrite (lookup_val a i Hi), (lookup_val a j Hj).
  destruct (Z.ltb_spec (val a i) (val a j)); symmetry;
    [by apply bool_decide_eq_true|apply bool_decide_eq_false; lia].
Qed.

(** Name every parent index, keep its defining inequalities, and split on
    the index comparisons. *)
Ltac heap_cases :=
  repeat match goal with
    | |- context [((?j - 1) / 2)%nat] =>
        let q := fresh "q" in
        let Hq := fresh "Hq" in
        remember ((j - 1) / 2)%nat as q eqn:Hq in *;
        assert (j = 0 /\ q = 0 \/ j = 2 * q + 1 \/ j = 2 * q + 2)%nat by lia;
        clear Hq
    | H : context [((?j - 1) / 2)%nat] |- _ =>
        let q := fresh "q" in
        let Hq := fresh "Hq" in
        remember ((j - 1) / 2)%nat as q eqn:Hq in *;
        assert (j = 0 /\ q = 0 \/ j = 2 * q + 1 \/ j = 2 * q + 2)%nat by lia;
        clear Hq
    end;
  repeat case_decide; subst; try lia.

(** *** Sifting up *)

Lemma heapifyUp_loop_spec fuel : forall a k,
  (k <= fuel)%nat -> (k < length a)%nat -> up_inv a k ->
  exists a', _heapifyUp_loop fuel a k = Ok a' /\ heap_property a' /\ a' ≡ₚ a.
Proof.
  induction fuel as [|fuel IH]; intros a k Hfuel Hk [Hrest Hgrand].
  - assert (k = 0)%nat as -> by lia. simpl. exists a. split; [done|]. split; [|done].
    apply heap_property_parent. intros j Hj. apply Hrest; lia.
  - destruct (decide (k = 0)%nat) as [->|Hk0].
    { simpl. exists a. split; [done|]. split; [|done].
      apply heap_property_parent. intros j Hj. apply Hrest; lia. }
    remember ((k - 1) / 2)%nat as p eqn:Hp.
    assert (Hpk : (p < k)%nat) by lia.
    assert (Hstep : _heapifyUp_loop (S fuel) a k =
                    if less a k p then _heapifyUp_loop fuel (swap a k p) p else Ok a).
    { destruct k; [done|]. cbn [_heapifyUp_loop]. by rewrite <- Hp. }
    rewrite Hstep, less_val by lia. clear Hstep.
    case_bool_decide as Hlt.
    + (* swap and continue from the parent *)
      destruct (IH (swap a k p) p) as (a' & Ha' & Hheap & Hperm).
      * lia.
      * rewrite swap_length. lia.
      * split.
        -- intros j Hj Hjp. rewrite swap_length in Hj.
           rewrite !val_swap by lia.
           pose proof (Hrest j Hj). pose proof (Hgrand j).
           clear Hrest Hgrand IH. heap_cases.
        -- intros c Hp0 Hc Hcp. rewrite swap_length in Hc.
           rewrite !val_swap by lia.
           pose proof (Hrest p). pose proof (Hrest c).
           clear Hrest Hgrand IH. heap_cases.
      * exists a'. split; [done|]. split; [done|].
        rewrite Hperm. apply swap_Permutation; lia.
    + exists a. split; [done|]. split; [|done].
      apply heap_property_parent. intros j Hj.
      destruct (decide (j = k)) as [->|Hjk]; [|by apply Hrest].
      rewrite <- Hp. lia.
Qed.

(** *** Sifting down *)

Lemma heapifyDown_loop_spec fuel : forall a k,
  (length a <= fuel + k)%nat -> (k < length a)%nat -> down_inv a k ->
  exists a', _heapifyDown_loop fuel a k = Ok a' /\ heap_property a' /\ a' ≡ₚ a.
Proof.
  induction fuel as [|fuel IH]; intros a k Hfuel Hk [Hrest Hgrand]; [lia|].
  cbn [_heapifyDown_loop].
  set (l := (2 * k + 1)%nat). set (r := (2 * k + 2)%nat).
  (* the first comparison *)
  assert (exists s1, (if (l <? length a)%nat && less a l k then l else k) = s1 /\
            (s1 = k \/ s1 = l /\ (l < length a)%nat /\ val a l < val a k) /\
            val a s1 <= val a k /\ ((l < length a)%nat -> val a s1 <= val a l))
    as (s1 & -> & Hs1 & Hs1k & Hs1l).
  { destruct (Nat.ltb_spec l (length a)) as [Hl|Hl]; simpl.
    - rewrite less_val by lia. case_bool_decide; eexists; (split; [done|]);
        repeat split; lia.
    - eexists; split; [done|]. repeat split; lia. }
  assert (Hs1len : (s1 < length a)%nat) by lia.
  assert (exists s2, (if (r <? length a)%nat && less a r s1 then r else s1) = s2 /\
            (s2 = k \/ (s2 = l \/ s2 = r) /\ (s2 < length a)%nat /\ val a s2 < val a k) /\
            val a s2 <= val a k /\ ((l < length a)%nat -> val a s2 <= val a l) /\
            ((r < length a)%nat -> val a s2 <= val a r))
    as (s2 & -> & Hs2 & Hs2k & Hs2l & Hs2r).
  { destruct (Nat.ltb_spec r (length a)) as [Hr|Hr]; simpl.
    - rewrite less_val by lia. case_bool_decide; eexists; (split; [done|]);
        (split; [|split; [|split]]); try lia.
    - eexists; split; [done|]. (split; [|split; [|split]]); try lia. }
  destruct (decide (s2 = k)) as [->|Hne].
  - (* nothing to exchange: both children are at least a[k] *)
    exists a. split; [done|]. split; [|done].
    apply heap_property_parent. intros j Hj.
    destruct (decide (((j - 1) / 2)%nat = k)) as [Hjk|Hjk]; [|by apply Hrest].
    rewrite Hjk. assert (j = l \/ j = r) as [->| ->] by lia; [apply Hs2l|apply Hs2r]; lia.
  - destruct Hs2 as [?|(Hs2 & Hs2len & Hs2lt)]; [done|].
    destruct (IH (swap a k s2) s2) as (a' & Ha' & Hheap & Hperm).
    + rewrite swap_length. lia.
    + rewrite swap_length. lia.
    + assert (Hpar : ((s2 - 1) / 2)%nat = k) by lia.
      assert (Hks : (k < s2)%nat) by lia.
      split.
      * intros j Hj Hjs. rewrite swap_length in Hj.
        destruct (decide (((j - 1) / 2)%nat = k)) as [Hq|Hq].
        -- rewrite Hq, val_swap_l by lia.
           destruct (decide (j = s2)) as [->|Hjs2].
           ++ rewrite val_swap_r by lia. lia.
           ++ rewrite val_swap_ne by lia.
              assert (j = l \/ j = r) as [->| ->] by lia; [apply Hs2l|apply Hs2r]; lia.
        -- rewrite (val_swap_ne _ _ _ ((j - 1) / 2)) by lia.
           destruct (decide (j = k)) as [->|Hjk].
           ++ rewrite val_swap_l by lia. apply Hgrand; lia.
           ++ rewrite val_swap_ne by lia. apply Hrest; lia.
      * intros c _ Hc Hcs. rewrite swap_length in Hc.
        rewrite Hpar, val_swap_l, val_swap_ne by lia.
        specialize (Hrest c ltac:(lia) ltac:(lia)). rewrite Hcs in Hrest. lia.
    + exists a'. split; [done|]. split; [done|].
      rewrite Hperm. apply swap_Permutation; lia.
Qed.

(** *** The public operations *)

Lemma buildTreeFromArray_loop_ok fuel : forall a index,
  (length a <= fuel + index)%nat ->
  exists r, _buildTreeFromArray_loop fuel a index = Ok r.
Proof.
  induction fuel as [|fuel IH]; intros a index Hfuel; simpl.
  - rewrite lookup_ge_None_2 by lia. eauto.
  - destruct (a !! index) as [v|] eqn:Hv; [|eauto].
    apply lookup_lt_Some in Hv.
    destruct (IH a (index + (index + 0) + 1)%nat ltac:(lia)) as [l ->].
    destruct (IH a (index + (index + 0) + 2)%nat ltac:(lia)) as [r ->].
    simpl. eauto.
Qed.

Lemma buildTreeFromArray_ok a : exists r, _buildTreeFromArray a 0 = Ok r.
Proof. apply buildTreeFromArray_loop_ok. lia. Qed.

Lemma heap_property_nil : heap_property [].
Proof. intros i x y Hx. by rewrite lookup_nil in Hx. Qed.

Lemma heapifyUp_snoc a v :
  heap_property a ->
  exists a', _heapifyUp (a ++ [v]) (length (a ++ [v]) - 1) = Ok a' /\
             heap_property a' /\ a' ≡ₚ v :: a.
Proof.
  intros Hheap. rewrite length_app. simpl length.
  replace (length a + 1 - 1)%nat with (length a) by lia.
  destruct (heapifyUp_loop_spec (length a) (a ++ [v]) (length a)) as (a' & Ha' & H1 & H2).
  - lia.
  - rewrite length_app. simpl. lia.
  - rewrite heap_property_parent in Hheap. split.
    + intros j Hj Hne. rewrite length_app in Hj. simpl in Hj.
      unfold val. rewrite !lookup_app_l by lia. apply Hheap. lia.
    + intros c Hk Hc Hpar. rewrite length_app in Hc. simpl in Hc. lia.
  - exists a'. split; [done|]. split; [done|].
    rewrite H2. by rewrite Permutation_app_comm.
Qed.

Lemma heap_insert_spec s v :
  heap_property (array s) ->
  exists s', insert s v = Ok (s', [mkEvent NODE_INSERTED (Some v) s']) /\
             heap_property (array s') /\ array s' ≡ₚ v :: array s.
Proof.
  intros Hheap. unfold insert.
  destruct (heapifyUp_snoc (array s) v Hheap) as (a' & -> & H1 & H2).
  destruct (buildTreeFromArray_ok a') as [r Hr]. simpl. rewrite Hr. simpl.
  eexists. split; [reflexivity|]. simpl. done.
Qed.

(** In a heap the first slot holds a least element. *)
Lemma heap_root_least a :
  heap_property a -> forall j, (j < length a)%nat -> val a 0 <= val a j.
Proof.
  intros Hheap. rewrite heap_property_parent in Hheap.
  intros j. induction (lt_wf j) as [j _ IH]. intros Hj.
  destruct (decide (j = 0)%nat) as [->|Hj0]; [lia|].
  specialize (IH ((j - 1) / 2)%nat ltac:(lia) ltac:(lia)).
  specialize (Hheap j ltac:(lia)). lia.
Qed.

Lemma heapifyDown_replaced_root m rest last :
  heap_property (m :: rest ++ [last]) ->
  exists a', _heapifyDown (last :: rest) 0 = Ok a' /\
             heap_property a' /\ a' ≡ₚ rest ++ [last].
Proof.
  intros Hheap. rewrite heap_property_parent in Hheap.
  destruct (heapifyDown_loop_spec (length (last :: rest)) (last :: rest) 0)
    as (a' & Ha' & H1 & H2).
  - lia.
  - simpl. lia.
  - split.
    + intros j Hj Hpar. rewrite length_cons in Hj.
      specialize (Hheap j). rewrite length_cons, length_app, length_cons in Hheap.
      specialize (Hheap ltac:(lia)).
      assert (Hsame : forall i, (0 < i < S (length rest))%nat ->
                val (m :: rest ++ [last]) i = val (last :: rest) i).
      { intros i Hi. unfold val. destruct i as [|i]; [lia|].
        rewrite !lookup_cons_ne_0 by lia. cbn [pred]. by rewrite lookup_app_l by lia. }
      rewrite !Hsame in Hheap by lia. done.
    + intros c Hk. lia.
  - exists a'. split; [done|]. split; [done|].
    rewrite H2. by rewrite Permutation_app_comm.
Qed.

Lemma heap_delete_spec s :
  heap_property (array s) -> array s <> [] ->
  exists m s',
    delete s = Ok (s', true, [mkEvent NODE_DELETED (Some m) s']) /\
    array s !! 0%nat = Some m /\
    heap_property (array s') /\
    array s ≡ₚ m :: array s' /\
    (forall x, x ∈ array s -> m <= x).
Proof.
  intros Hheap Hne. unfold delete.
  destruct (array s) as [|m rest] eqn:Ha; [done|].
  assert (Hleast : forall x, x ∈ m :: rest -> m <= x).
  { intros x Hx. apply list_elem_of_lookup in Hx as [j Hj].
    pose proof (lookup_lt_Some _ _ _ Hj) as Hlt.
    pose proof (heap_root_least _ Hheap j Hlt) as Hle.
    by rewrite (val_lookup _ _ _ Hj) in Hle. }
  destruct rest as [|v rest _] using rev_ind.
  - cbn [List.last removelast rbind].
    destruct (buildTreeFromArray_ok []) as [r Hr]. rewrite Hr. cbn [rbind].
    exists m. eexists. split; [reflexivity|]. simpl.
    split; [done|]. split; [apply heap_property_nil|]. done.
  - change (m :: rest ++ [v]) with ((m :: rest) ++ [v]).
    rewrite last_last, removelast_last.
    destruct (heapifyDown_replaced_root m rest v Hheap) as (a' & Ha' & H1 & H2).
    rewrite Ha'. cbn [rbind].
    destruct (buildTreeFromArray_ok a') as [r Hr]. rewrite Hr. cbn [rbind].
    exists m. eexists. split; [reflexivity|]. simpl.
    split; [done|]. split; [done|]. split; [by rewrite H2|done].
Qed.

Lemma heap_apply_op_spec s o :
  heap_property (array s) ->
  exists s' evs, apply_op s o = Ok (s', evs) /\ heap_property (array s').
Proof.
  intros Hheap. destruct o as [v|]; simpl.
  - destruct (heap_insert_spec s v Hheap) as (s' & -> & H1 & _). eauto.
  - destruct (decide (array s = [])) as [He|Hne].
    + unfold delete. rewrite He. simpl. eauto.
    + destruct (heap_delete_spec s Hheap Hne) as (m & s' & -> & _ & H1 & _). simpl. eauto.
Qed.

Lemma heap_run_spec ops : forall s,
  heap_property (array s) ->
  exists s' evs, run s ops = Ok (s', evs) /\ heap_property (array s').
Proof.
  induction ops as [|o ops IH]; intros s Hheap; simpl; [eauto|].
  destruct (heap_apply_op_spec s o Hheap) as (s1 & e1 & -> & H1). simpl.
  destruct (IH s1 H1) as (s2 & e2 & -> & H2). simpl. eauto.
Qed.

Lemma heap_run_app ops1 : forall ops2 s,
  run s (ops1 ++ ops2) =
    let* (s1, e1) := run s ops1 in
    let* (s2, e2) := run s1 ops2 in
    Ok (s2, e1 ++ e2).
Proof.
  induction ops1 as [|o ops1 IH]; intros ops2 s; simpl.
  - destruct (run s ops2) as [[s2 e2]|]; done.
  - destruct (apply_op s o) as [[s1 e1]|]; simpl; [|done].
    rewrite IH. destruct (run s1 ops1) as [[s2 e2]|]; simpl; [|done].
    destruct (run s2 ops2) as [[s3 e3]|]; simpl; [|done].
    by rewrite app_assoc.
Qed.

Lemma deleted_values_app e1 e2 :
  deleted_values (e1 ++ e2) = deleted_values e1 ++ deleted_values e2.
Proof. unfold deleted_values. apply omap_app. Qed.

Lemma heap_run_inserts vs : forall s,
  heap_property (array s) ->
  exists s' evs, run s (map Insert vs) = Ok (s', evs) /\
                 heap_property (array s') /\
                 array s' ≡ₚ vs ++ array s /\
                 deleted_values evs = [].
Proof.
  induction vs as [|v vs IH]; intros s Hheap; simpl.
  - exists s, []. done.
  - destruct (heap_insert_spec s v Hheap) as (s1 & -> & H1 & P1). simpl.
    destruct (IH s1 H1) as (s2 & e2 & -> & H2 & P2 & D2). simpl.
    exists s2. eexists. split; [reflexivity|]. split; [done|]. split.
    + rewrite P2, P1. by rewrite Permutation_middle.
    + done.
Qed.

(** Emptying a heap by repeated [delete()] emits its elements in
    non-decreasing order. *)
Lemma heap_run_deletes n : forall s,
  heap_property (array s) -> length (array s) = n ->
  exists s' evs, run s (replicate n Delete) = Ok (s', evs) /\
                 array s' = [] /\
                 deleted_values evs ≡ₚ array s /\
                 StronglySorted Z.le (deleted_values evs).
Proof.
  induction n as [|n IH]; intros s Hheap Hlen; simpl.
  - exists s, []. split; [done|]. apply nil_length_inv in Hlen. rewrite Hlen.
    split; [done|]. split; [done|]. constructor.
  - destruct (heap_delete_spec s Hheap) as (m & s1 & Hd & _ & H1 & P1 & Hleast).
    { intros He. by rewrite He in Hlen. }
    rewrite Hd. simpl.
    destruct (IH s1 H1) as (s2 & e2 & -> & He & P2 & S2).
    { apply Permutation_length in P1. simpl in P1. lia. }
    simpl. exists s2. eexists. split; [reflexivity|]. split; [done|].
    unfold deleted_values at 1 2. simpl. fold (deleted_values e2). split.
    + by rewrite P1, P2.
    + constructor; [done|]. apply Forall_forall. intros x Hx.
      apply Hleast. rewrite P1. right. by rewrite <- P2.
Qed.

(** C8: after every sequence of [insert] and [delete] calls on an empty
    Min-Heap (each call returns), every slot of the backing array is at most
    its left child [2i+1] and its right child [2i+2], where these exist. *)
Theorem C8_heap_property_maintained (ops : list op) :
  exists s evs,
    run empty ops = Ok (s, evs) /\
    forall (i : nat) (x y : Z),
      array s !! i = Some x ->
      (array s !! (2 * i + 1)%nat = Some y -> x <= y) /\
      (array s !! (2 * i + 2)%nat = Some y -> x <= y).
Proof.
  destruct (heap_run_spec ops empty heap_property_nil) as (s & evs & Hrun & Hheap).
  exists s, evs. split; [done|]. apply Hheap.
Qed.

(** C7: on a non-empty Min-Heap reached by [insert] and [delete] calls,
    [delete()] returns [true], notifies the value of the first slot, that
    value is a minimum of the array, and the array afterwards holds the same
    elements without one copy of it.  Hence inserting seven values and calling
    [delete()] seven times removes them in non-decreasing order. *)
Theorem C7_delete_removes_minimum :
  (forall ops s evs,
     run empty ops = Ok (s, evs) -> array s <> [] ->
     exists m s',
       delete s = Ok (s', true, [mkEvent NODE_DELETED (Some m) s']) /\
       (forall x, x ∈ array s -> m <= x) /\
       array s ≡ₚ m :: array s') /\
  (forall vs, length vs = 7%nat ->
     exists s evs,
       run empty (map Insert vs ++ replicate 7 Delete) = Ok (s, evs) /\
       array s = [] /\
       deleted_values evs ≡ₚ vs /\
       Sorted Z.le (deleted_values evs)).
Proof.
  split.
  - intros ops s evs Hrun Hne.
    destruct (heap_run_spec ops empty heap_property_nil) as (s0 & e0 & Hrun0 & Hheap).
    rewrite Hrun in Hrun0. simplify_eq.
    destruct (heap_delete_spec s0 Hheap Hne) as (m & s' & Hd & _ & _ & P & Hleast).
    exists m, s'. done.
  - intros vs Hlen. rewrite heap_run_app.
    destruct (heap_run_inserts vs empty heap_property_nil) as (s1 & e1 & -> & H1 & P1 & D1).
    cbn [rbind]. rewrite app_nil_r in P1.
    destruct (heap_run_deletes 7 s1 H1) as (s2 & e2 & -> & He & P2 & S2).
    { apply Permutation_length in P1. lia. }
    cbn [rbind]. exists s2. eexists. split; [reflexivity|]. split; [done|].
    rewrite deleted_values_app, D1. cbn [app]. split.
    + by rewrite P2, P1.
    + by apply StronglySorted_Sorted.
Qed.

Lemma C7_witness :
  exists s evs,
    run empty (map Insert [5; 3; 8; 1; 9; 2; 7] ++ replicate 7 Delete) = Ok (s, evs) /\
    array s = [] /\
    deleted_values evs ≡ₚ [5; 3; 8; 1; 9; 2; 7] /\
    Sorted Z.le (deleted_values evs).
Proof. exact (proj2 C7_delete_removes_minimum [5; 3; 8; 1; 9; 2; 7] eq_refl). Defined.

End HeapOrder.

(** ** In-order traversals of the binary trees *)

Section InOrder.

Lemma ordered_node v l r h c :
  ordered (Node v l r h c) <->
  ordered l /\ ordered r /\
  (forall x, x ∈ _inorder l -> x < v) /\ (forall x, x ∈ _inorder r -> v < x).
Proof.
  unfold ordered. simpl. rewrite StronglySorted_app. split.
  - intros (Hlr & Hl & Hr). apply StronglySorted_cons in Hr as [Hv Hr'].
    rewrite Forall_forall in Hv. repeat split; try done.
    intros x Hx. apply (Hlr x v Hx). by left.
  - intros (Hl & Hr & Hlv & Hrv). split; [|split; [done|]].
    + intros x1 x2 H1 H2. apply elem_of_cons in H2 as [->|H2]; [by apply Hlv|].
      specialize (Hlv x1 H1). specialize (Hrv x2 H2). lia.
    + apply StronglySorted_cons. split; [|done]. by apply Forall_forall.
Qed.

Lemma increasing_nondecreasing (l : list Z) :
  StronglySorted Z.lt l -> Sorted Z.le l.
Proof.
  intros H. apply StronglySorted_Sorted.
  induction H as [|x l Hl IH Hx]; constructor; [done|].
  eapply Forall_impl; [exact Hx|]. intros y Hy. simpl in Hy. lia.
Qed.

Lemma inserted_leaf value : inserted value null (newTreeNode value).
Proof.
  split.
  - intros x Hx. simpl in Hx. apply list_elem_of_singleton in Hx. by left.
  - intros _. unfold ordered. simpl. constructor; [constructor|constructor].
Qed.

Lemma inserted_refl value t : inserted value t t.
Proof. split; auto. Qed.

Lemma inserted_same_inorder value t t' t'' :
  inserted value t t' -> _inorder t'' = _inorder t' -> inserted value t t''.
Proof. intros [H1 H2] E. unfold inserted, ordered in *. rewrite E. done. Qed.

Lemma inserted_left value v l l' r h c h' c' :
  value < v -> inserted value l l' ->
  inserted value (Node v l r h c) (Node v l' r h' c').
Proof.
  intros Hlt [Hmem Hord]. split.
  - intros x Hx. simpl in *. rewrite elem_of_app, elem_of_cons in *.
    destruct Hx as [Hx|Hx]; [|by right; right].
    destruct (Hmem x Hx); [by left|by right; left].
  - rewrite !ordered_node. intros (Hl & Hr & Hlv & Hrv).
    repeat split; try done; [by apply Hord|].
    intros x Hx. destruct (Hmem x Hx) as [->|Hx']; [done|by apply Hlv].
Qed.

Lemma inserted_right value v l r r' h c h' c' :
  v < value -> inserted value r r' ->
  inserted value (Node v l r h c) (Node v l r' h' c').
Proof.
  intros Hlt [Hmem Hord]. split.
  - intros x Hx. simpl in *. rewrite elem_of_app, elem_of_cons in *.
    destruct Hx as [Hx|[Hx|Hx]]; [by right; left|by right; right; left|].
    destruct (Hmem x Hx); [by left|by right; right; right].
  - rewrite !ordered_node. intros (Hl & Hr & Hlv & Hrv).
    repeat split; try done; [by apply Hord|].
    intros x Hx. destruct (Hmem x Hx) as [->|Hx']; [done|by apply Hrv].
Qed.

(** *** Binary search tree *)

Lemma bst_insertNode_spec t value c :
  t <> null ->
  exists t' c', BSTTree._insertNode t value c = Ok (t', c') /\ inserted value t t'.
Proof.
  revert c. induction t as [|v l IHl r IHr h col]; intros c Hnn; [done|].
  cbn [BSTTree._insertNode].
  destruct (Z.ltb_spec value v) as [Hlt|Hge].
  - destruct l as [|lv ll lr lh lc].
    + cbn. do 2 eexists. split; [reflexivity|].
      apply inserted_left; [done|apply inserted_leaf].
    + cbn [is_null]. unfold bind.
      destruct (IHl c ltac:(done)) as (l' & c' & -> & Hins).
      do 2 eexists. split; [reflexivity|]. by apply inserted_left.
  - destruct (Z.ltb_spec v value) as [Hgt|Hle].
    + destruct r as [|rv rl rr rh rc].
      * cbn. do 2 eexists. split; [reflexivity|].
        apply inserted_right; [done|apply inserted_leaf].
      * cbn [is_null]. unfold bind.
        destruct (IHr c ltac:(done)) as (r' & c' & -> & Hins).
        do 2 eexists. split; [reflexivity|]. by apply inserted_right.
    + do 2 eexists. split; [reflexivity|]. apply inserted_refl.
Qed.

Lemma bst_insert_spec s value :
  StronglySorted Z.lt (BSTTree.getValues s) ->
  exists s' evs, BSTTree.insert s value = Ok (s', evs) /\
                 StronglySorted Z.lt (BSTTree.getValues s').
Proof.
  intros Hord. unfold BSTTree.insert, BSTTree.getValues in *. fold (ordered (BSTTree.root s)) in Hord.
  destruct (BSTTree.root s) as [|v l r h c] eqn:Hroot.
  - cbn. do 2 eexists. split; [reflexivity|]. cbn. by apply inserted_leaf.
  - cbn [is_null].
    destruct (bst_insertNode_spec (Node v l r h c) value (BSTTree.nodeCount s) ltac:(done))
      as (t' & c' & -> & Hins).
    cbn. do 2 eexists. split; [reflexivity|]. cbn. by apply Hins.
Qed.

Lemma bst_insert_all_spec vs : forall s,
  StronglySorted Z.lt (BSTTree.getValues s) ->
  exists s', BSTTree.insert_all s vs = Ok s' /\
             StronglySorted Z.lt (BSTTree.getValues s').
Proof.
  induction vs as [|v vs IH]; intros s Hord; cbn [BSTTree.insert_all]; [eauto|].
  destruct (bst_insert_spec s v Hord) as (s1 & e1 & -> & H1). cbn. by apply IH.
Qed.

(** *** Red-Black tree *)

Lemma rb_setColor_inorder col t : _inorder (RedBlackTree.setColor col t) = _inorder t.
Proof. by destruct t. Qed.

Lemma rb_flipColors_inorder t : _inorder (RedBlackTree._flipColors t) = _inorder t.
Proof. destruct t; [done|]. simpl. by rewrite !rb_setColor_inorder. Qed.

Lemma rb_rotateLeft_spec t :
  RedBlackTree._isRed (RedBlackTree.rightOf t) = true ->
  exists t', RedBlackTree._rotateLeft t = Ok t' /\ _inorder t' = _inorder t.
Proof.
  destruct t as [|v l r h c]; [done|]. destruct r as [|xv xl xr xh xc]; [done|].
  intros _. eexists. split; [reflexivity|]. simpl. by rewrite <- app_assoc.
Qed.

Lemma rb_rotateRight_spec t :
  RedBlackTree._isRed (RedBlackTree.leftOf t) = true ->
  exists t', RedBlackTree._rotateRight t = Ok t' /\ _inorder t' = _inorder t.
Proof.
  destruct t as [|v l r h c]; [done|]. destruct l as [|xv xl xr xh xc]; [done|].
  intros _. eexists. split; [reflexivity|]. simpl. by rewrite <- app_assoc.
Qed.

Lemma rb_fixInsertion_spec t :
  exists t', RedBlackTree._fixInsertion t = Ok t' /\ _inorder t' = _inorder t.
Proof.
  unfold RedBlackTree._fixInsertion.
  set (t1 := if RedBlackTree._isRed (RedBlackTree.leftOf t)
                  && RedBlackTree._isRed (RedBlackTree.rightOf t)
              then RedBlackTree._flipColors t else t).
  assert (E1 : _inorder t1 = _inorder t).
  { subst t1. destruct (_ && _); [apply rb_flipColors_inorder|done]. }
  clearbody t1.
  assert (exists t2, (if RedBlackTree._isRed (RedBlackTree.rightOf t1)
                         && negb (RedBlackTree._isRed (RedBlackTree.leftOf t1))
                      then RedBlackTree._rotateLeft t1 else Ok t1) = Ok t2 /\
                     _inorder t2 = _inorder t1) as (t2 & -> & E2).
  { destruct (RedBlackTree._isRed (RedBlackTree.rightOf t1)) eqn:Hr; cbn [andb]; [|eauto].
    destruct (negb _); [|eauto]. by apply rb_rotateLeft_spec. }
  cbn [rbind].
  destruct (RedBlackTree._isRed (RedBlackTree.leftOf t2)) eqn:Hl; cbn [andb].
  - destruct (RedBlackTree._isRed (RedBlackTree.leftOf (RedBlackTree.leftOf t2))).
    + destruct (rb_rotateRight_spec t2 Hl) as (t3 & -> & E3).
      eexists. split; [reflexivity|]. congruence.
    + eexists. split; [reflexivity|]. congruence.
  - eexists. split; [reflexivity|]. congruence.
Qed.

Lemma rb_insertNode_spec t value c :
  exists t' c', RedBlackTree._insertNode t value c = Ok (t', c') /\ inserted value t t'.
Proof.
  revert c. induction t as [|v l IHl r IHr h col]; intros c.
  - cbn. do 2 eexists. split; [reflexivity|]. apply inserted_leaf.
  - cbn [RedBlackTree._insertNode].
    destruct (Z.ltb_spec value v) as [Hlt|Hge].
    + unfold bind. destruct (IHl c) as (l' & c' & -> & Hins).
      destruct (rb_fixInsertion_spec (Node v l' r h col)) as (t' & Ht' & E).
      unfold RedBlackTree.lift. rewrite Ht'.
      do 2 eexists. split; [reflexivity|].
      eapply inserted_same_inorder; [|exact E]. by apply inserted_left.
    + destruct (Z.ltb_spec v value) as [Hgt|Hle].
      * unfold bind. destruct (IHr c) as (r' & c' & -> & Hins).
        destruct (rb_fixInsertion_spec (Node v l r' h col)) as (t' & Ht' & E).
        unfold RedBlackTree.lift. rewrite Ht'.
        do 2 eexists. split; [reflexivity|].
        eapply inserted_same_inorder; [|exact E]. by apply inserted_right.
      * do 2 eexists. split; [reflexivity|]. apply inserted_refl.
Qed.

Lemma rb_insert_spec s value :
  StronglySorted Z.lt (RedBlackTree.getValues s) ->
  exists s' evs, RedBlackTree.insert s value = Ok (s', evs) /\
                 StronglySorted Z.lt (RedBlackTree.getValues s').
Proof.
  intros Hord. unfold RedBlackTree.insert, RedBlackTree.getValues in *.
  destruct (rb_insertNode_spec (RedBlackTree.root s) value (RedBlackTree.nodeCount s))
    as (t' & c' & -> & Hins).
  cbn. do 2 eexists. split; [reflexivity|]. cbn.
  rewrite rb_setColor_inorder. by apply Hins.
Qed.

Lemma rb_insert_all_spec vs : forall s,
  StronglySorted Z.lt (RedBlackTree.getValues s) ->
  exists s', RedBlackTree.insert_all s vs = Ok s' /\
             StronglySorted Z.lt (RedBlackTree.getValues s').
Proof.
  induction vs as [|v vs IH]; intros s Hord; cbn [RedBlackTree.insert_all]; [eauto|].
  destruct (rb_insert_spec s v Hord) as (s1 & e1 & -> & H1). cbn. by apply IH.
Qed.

(** *** AVL tree *)

Lemma avl_updateHeight_inorder t : _inorder (AVLTree._updateHeight t) = _inorder t.
Proof. by destruct t. Qed.

Lemma avl_rotateRight_inorder y n :
  AVLTree._rotateRight y = Ok n -> _inorder n = _inorder y.
Proof.
  destruct y as [|yv [|xv xl T2 xh xc] yr yh yc]; try done.
  intros [= <-]. simpl. by rewrite <- app_assoc.
Qed.

Lemma avl_rotateLeft_inorder x n :
  AVLTree._rotateLeft x = Ok n -> _inorder n = _inorder x.
Proof.
  destruct x as [|xv xl [|yv T2 yr yh yc] xh xc]; try done.
  intros [= <-]. simpl. by rewrite <- app_assoc.
Qed.

Lemma avl_rebalanceAfterInsert_inorder n value n' :
  AVLTree.rebalanceAfterInsert n value = Ok n' -> _inorder n' = _inorder n.
Proof.
  unfold AVLTree.rebalanceAfterInsert.
  destruct n as [|v l r h c]; [done|]. cbn [AVLTree._updateHeight].
  set (h' := 1 + Z.max (AVLTree._getNodeHeight l) (AVLTree._getNodeHeight r)).
  set (b := AVLTree._getBalance (Node v l r h' c)).
  intros Hok.
  repeat match type of Hok with
    | rbind (if ?b then ?m1 else ?m2) _ = Ok _ =>
        let E := fresh "E" in
        destruct (if b then m1 else m2) as [[]|] eqn:E;
        cbn [rbind] in Hok; [| |discriminate Hok]
    end.
  - apply avl_rotateRight_inorder in Hok. by rewrite Hok.
  - apply avl_rotateLeft_inorder in Hok. by rewrite Hok.
  - destruct (AVLTree._rotateLeft l) as [l'|] eqn:El; [|done]. cbn [rbind] in Hok.
    apply avl_rotateRight_inorder in Hok. apply avl_rotateLeft_inorder in El.
    rewrite Hok. simpl. by rewrite El.
  - destruct (AVLTree._rotateRight r) as [r'|] eqn:Er; [|done]. cbn [rbind] in Hok.
    apply avl_rotateLeft_inorder in Hok. apply avl_rotateRight_inorder in Er.
    rewrite Hok. simpl. by rewrite Er.
  - by injection Hok as <-.
Qed.

Lemma avl_insertNode_inorder t value : forall c t' c',
  AVLTree._insertNode t value c = Ok (t', c') -> inserted value t t'.
Proof.
  induction t as [|v l IHl r IHr h col]; intros c t' c' Hok.
  - cbn in Hok. injection Hok as <- <-. apply inserted_leaf.
  - cbn [AVLTree._insertNode] in Hok.
    destruct (Z.ltb_spec value v) as [Hlt|Hge].
    + unfold bind in Hok.
      destruct (AVLTree._insertNode l value c) as [[l' c1]|] eqn:El; [|done].
      unfold AVLTree.lift in Hok.
      destruct (AVLTree.rebalanceAfterInsert _ _) as [n'|] eqn:En; [|done].
      injection Hok as <- <-.
      eapply inserted_same_inorder;
        [|exact (avl_rebalanceAfterInsert_inorder _ _ _ En)].
      apply inserted_left; [done|]. by eapply IHl.
    + destruct (Z.ltb_spec v value) as [Hgt|Hle].
      * unfold bind in Hok.
        destruct (AVLTree._insertNode r value c) as [[r' c1]|] eqn:Er; [|done].
        unfold AVLTree.lift in Hok.
        destruct (AVLTree.rebalanceAfterInsert _ _) as [n'|] eqn:En; [|done].
        injection Hok as <- <-.
        eapply inserted_same_inorder;
          [|exact (avl_rebalanceAfterInsert_inorder _ _ _ En)].
        apply inserted_right; [done|]. by eapply IHr.
      * injection Hok as <- <-. apply inserted_refl.
Qed.

End InOrder.

(** ** AVL tree: balance *)

Section AVLBalance.
Import AVLTree.

Local Abbreviation hgt := _getNodeHeight.

Lemma avl_height_nonneg t : avl t -> 0 <= hgt t.
Proof.
  induction t as [|v l IHl r IHr h c]; simpl; [lia|].
  intros (Hl & Hr & -> & _). specialize (IHl Hl). lia.
Qed.

Lemma avl_height_pos t : avl t -> t <> null -> 1 <= hgt t.
Proof.
  destruct t as [|v l r h c]; [done|]. simpl.
  intros (Hl & Hr & -> & _) _. pose proof (avl_height_nonneg l Hl). lia.
Qed.

Lemma avl_height_real t : avl t -> hgt t = _getHeight t.
Proof.
  induction t as [|v l IHl r IHr h c]; simpl; [done|].
  intros (Hl & Hr & -> & _). rewrite <- IHl, <- IHr by done. done.
Qed.

Ltac avl_nonneg :=
  repeat match goal with
    | Ha : avl ?t |- _ =>
        lazymatch goal with
        | _ : 0 <= hgt t |- _ => fail
        | _ => pose proof (avl_height_nonneg t Ha)
        end
    end.

(** *** Rotations on a subtree that is two levels out of balance *)

Lemma rotateRight_avl v0 l r h c :
  avl l -> avl r -> hgt l = hgt r + 2 -> 0 <= _getBalance l ->
  exists n', _rotateRight (Node v0 l r h c) = Ok n' /\ avl n' /\ n' <> null /\
             hgt l <= hgt n' <= hgt l + 1 /\ (_getBalance l = 1 -> hgt n' = hgt l).
Proof.
  intros Hl Hr Hh Hb. avl_nonneg.
  destruct l as [|xv xl xr xh xc]; [simpl in *; lia|].
  cbn in Hl, Hh, Hb. destruct Hl as (Hxl & Hxr & -> & Hbx). avl_nonneg.
  eexists. split; [reflexivity|]. cbn. repeat split; try done; lia.
Qed.

Lemma rotateLeft_avl v0 l r h c :
  avl l -> avl r -> hgt r = hgt l + 2 -> _getBalance r <= 0 ->
  exists n', _rotateLeft (Node v0 l r h c) = Ok n' /\ avl n' /\ n' <> null /\
             hgt r <= hgt n' <= hgt r + 1 /\ (_getBalance r = -1 -> hgt n' = hgt r).
Proof.
  intros Hl Hr Hh Hb. avl_nonneg.
  destruct r as [|yv yl yr yh yc]; [simpl in *; lia|].
  cbn in Hr, Hh, Hb. destruct Hr as (Hyl & Hyr & -> & Hby). avl_nonneg.
  eexists. split; [reflexivity|]. cbn. repeat split; try done; lia.
Qed.

Lemma rotateLeftRight_avl v0 l r h c :
  avl l -> avl r -> hgt l = hgt r + 2 -> _getBalance l < 0 ->
  exists l' n', _rotateLeft l = Ok l' /\ _rotateRight (Node v0 l' r h c) = Ok n' /\
                avl n' /\ n' <> null /\ hgt n' = hgt l.
Proof.
  intros Hl Hr Hh Hb. avl_nonneg.
  destruct l as [|xv xl xr xh xc]; [simpl in *; lia|].
  cbn in Hl, Hh, Hb. destruct Hl as (Hxl & Hxr & -> & Hbx). avl_nonneg.
  destruct xr as [|yv yl yr yh yc]; [simpl in *; lia|].
  cbn in Hxr, Hh, Hb, Hbx. destruct Hxr as (Hyl & Hyr & -> & Hby). avl_nonneg.
  do 2 eexists. split; [reflexivity|]. split; [reflexivity|].
  cbn. repeat split; try done; lia.
Qed.

Lemma rotateRightLeft_avl v0 l r h c :
  avl l -> avl r -> hgt r = hgt l + 2 -> 0 < _getBalance r ->
  exists r' n', _rotateRight r = Ok r' /\ _rotateLeft (Node v0 l r' h c) = Ok n' /\
                avl n' /\ n' <> null /\ hgt n' = hgt r.
Proof.
  intros Hl Hr Hh Hb. avl_nonneg.
  destruct r as [|yv yl yr yh yc]; [simpl in *; lia|].
  cbn in Hr, Hh, Hb. destruct Hr as (Hyl & Hyr & -> & Hby). avl_nonneg.
  destruct yl as [|xv xl xr xh xc]; [simpl in *; lia|].
  cbn in Hyl, Hh, Hb, Hby. destruct Hyl as (Hxl & Hxr & -> & Hbx). avl_nonneg.
  do 2 eexists. split; [reflexivity|]. split; [reflexivity|].
  cbn. repeat split; try done; lia.
Qed.

(** Decide the comparisons that guard the rotation cases. *)
Ltac ltb_cases :=
  repeat (cbn [rbind valueOf andb];
          match goal with
          | |- context [Z.ltb ?a ?b] => destruct (Z.ltb_spec a b); try lia
          | |- context [Z.leb ?a ?b] => destruct (Z.leb_spec a b); try lia
          end);
  cbn [rbind valueOf andb].

(** *** Rebalancing after an insert *)

Lemma rebalanceAfterInsert_spec v0 l r h c value :
  avl l -> avl r -> -2 <= hgt l - hgt r <= 2 ->
  (hgt l - hgt r = 2 -> grew_side l value) ->
  (hgt l - hgt r = -2 -> grew_side r value) ->
  exists n', rebalanceAfterInsert (Node v0 l r h c) value = Ok n' /\
             avl n' /\ n' <> null /\
             ((-1 <= hgt l - hgt r <= 1 /\ n' = Node v0 l r (1 + Z.max (hgt l) (hgt r)) c) \/
              (~ (-1 <= hgt l - hgt r <= 1) /\ hgt n' = Z.max (hgt l) (hgt r))).
Proof.
  intros Hl Hr Hrange Hleft Hright.
  unfold rebalanceAfterInsert. cbn [_updateHeight _getBalance].
  set (h' := 1 + Z.max (hgt l) (hgt r)).
  destruct (decide (hgt l - hgt r = 2)) as [E|NE2].
  - (* the left subtree is two levels taller *)
    specialize (Hleft E). destruct l as [|xv xl xr xh xc]; [done|].
    destruct Hleft as (Hne & Hlt & Hgt). cbn [_getNodeHeight] in *.
    destruct (Z.ltb_spec 1 (xh - hgt r)); [|lia]. cbn [rbind valueOf].
    destruct (Z.ltb_spec value xv) as [Hv|Hv]; cbn [rbind].
    + destruct (rotateRight_avl v0 (Node xv xl xr xh xc) r h' c) as (n' & -> & ? & ? & ? & Hn);
        [done|done|cbn; lia|cbn; lia|].
      exists n'. repeat split; try done. right. cbn in Hn. split; [lia|].
      rewrite Hn by lia. cbn. lia.
    + ltb_cases.
      destruct (rotateLeftRight_avl v0 (Node xv xl xr xh xc) r h' c) as (l' & n' & E1 & E2 & ? & ? & Hn);
        [done|done|cbn; lia|cbn; lia|].
      rewrite E1. cbn [rbind]. rewrite E2.
      exists n'. repeat split; try done. right. cbn in Hn. split; [lia|]. lia.
  - destruct (decide (hgt l - hgt r = -2)) as [E|NE].
    + (* the right subtree is two levels taller *)
      specialize (Hright E). destruct r as [|yv yl yr yh yc]; [done|].
      destruct Hright as (Hne & Hlt & Hgt). cbn [_getNodeHeight] in *.
      destruct (Z.ltb_spec 1 (hgt l - yh)); [lia|]. cbn [rbind valueOf].
      destruct (Z.ltb_spec (hgt l - yh) (-1)); [|lia]. cbn [rbind valueOf].
      destruct (Z.ltb_spec yv value) as [Hv|Hv]; cbn [rbind].
      * destruct (rotateLeft_avl v0 l (Node yv yl yr yh yc) h' c) as (n' & -> & ? & ? & ? & Hn);
          [done|done|cbn; lia|cbn; lia|].
        exists n'. repeat split; try done. right. cbn in Hn. split; [lia|].
        rewrite Hn by lia. cbn. lia.
      * ltb_cases.
        destruct (rotateRightLeft_avl v0 l (Node yv yl yr yh yc) h' c) as (r' & n' & E1 & E2 & ? & ? & Hn);
          [done|done|cbn; lia|cbn; lia|].
        rewrite E1. cbn [rbind]. rewrite E2.
        exists n'. repeat split; try done. right. cbn in Hn. split; [lia|]. lia.
    + (* no rotation *)
      ltb_cases. eexists. split; [reflexivity|].
      split; [cbn; repeat split; try done; lia|]. split; [done|].
      left. split; [lia|done].
Qed.

Lemma insertNode_avl t value : forall c,
  avl t ->
  exists t' c', _insertNode t value c = Ok (t', c') /\ avl t' /\ t' <> null /\
                (hgt t' = hgt t \/ (hgt t' = hgt t + 1 /\ (t = null \/ grew_side t' value))).
Proof.
  induction t as [|v l IHl r IHr h col]; intros c Havl.
  - cbn. do 2 eexists. split; [reflexivity|]. cbn. repeat split; try done; try lia.
    right. split; [lia|by left].
  - destruct Havl as (Hl & Hr & -> & Hbal).
    cbn [_insertNode].
    destruct (Z.ltb_spec value v) as [Hlt|Hge].
    + unfold bind. destruct (IHl c Hl) as (l' & c' & -> & Hl' & Hnn & Hgrow).
      destruct (rebalanceAfterInsert_spec v l' r (1 + Z.max (hgt l) (hgt r)) col value)
        as (n' & Hn' & Havl' & Hnn' & Hshape); try done.
      * lia.
      * intros E. destruct Hgrow as [?|(? & [->|?])]; [lia| |done].
        cbn in *. pose proof (avl_height_nonneg r Hr). lia.
      * intros E. pose proof (avl_height_nonneg l' Hl'). lia.
      * unfold lift. rewrite Hn'. do 2 eexists. split; [reflexivity|].
        split; [done|]. split; [done|]. cbn [_getNodeHeight].
        destruct Hshape as [(Hin & ->)|(Hout & ->)]; cbn [hgt grew_side].
        -- destruct (decide (Z.max (hgt l') (hgt r) = Z.max (hgt l) (hgt r))) as [E|E];
             [left; lia|right].
           split; [lia|]. right. repeat split; lia.
        -- left. lia.
    + destruct (Z.ltb_spec v value) as [Hgt|Hle].
      * unfold bind. destruct (IHr c Hr) as (r' & c' & -> & Hr' & Hnn & Hgrow).
        destruct (rebalanceAfterInsert_spec v l r' (1 + Z.max (hgt l) (hgt r)) col value)
          as (n' & Hn' & Havl' & Hnn' & Hshape); try done.
        -- lia.
        -- intros E. pose proof (avl_height_nonneg r' Hr'). lia.
        -- intros E. destruct Hgrow as [?|(? & [->|?])]; [lia| |done].
           cbn in *. pose proof (avl_height_nonneg l Hl). lia.
        -- unfold lift. rewrite Hn'. do 2 eexists. split; [reflexivity|].
           split; [done|]. split; [done|]. cbn [_getNodeHeight].
           destruct Hshape as [(Hin & ->)|(Hout & ->)]; cbn [hgt grew_side].
           ++ destruct (decide (Z.max (hgt l) (hgt r') = Z.max (hgt l) (hgt r))) as [E|E];
                [left; lia|right].
              split; [lia|]. right. repeat split; lia.
           ++ left. lia.
      * do 2 eexists. split; [reflexivity|]. cbn. repeat split; try done; try lia.
Qed.

(** *** Rebalancing after a delete *)

Lemma rebalanceAfterDelete_spec v0 l r h c :
  avl l -> avl r -> -2 <= hgt l - hgt r <= 2 ->
  exists n', rebalanceAfterDelete (Node v0 l r h c) = Ok n' /\ avl n' /\
             Z.max (hgt l) (hgt r) <= hgt n' <= 1 + Z.max (hgt l) (hgt r) /\
             (-1 <= hgt l - hgt r <= 1 -> hgt n' = 1 + Z.max (hgt l) (hgt r)).
Proof.
  intros Hl Hr Hrange.
  unfold rebalanceAfterDelete. cbn [_updateHeight _getBalance].
  set (h' := 1 + Z.max (hgt l) (hgt r)).
  destruct (Z.ltb_spec 1 (hgt l - hgt r)) as [Hb|Hb]; cbn [andb].
  - destruct (Z.leb_spec 0 (_getBalance l)) as [Hbl|Hbl].
    + destruct (rotateRight_avl v0 l r h' c) as (n' & -> & ? & ? & ? & Hn);
        [done|done|lia|lia|].
      exists n'. repeat split; try done; lia.
    + destruct (Z.ltb_spec (_getBalance l) 0); [|lia].
      destruct (rotateLeftRight_avl v0 l r h' c) as (l' & n' & E1 & E2 & ? & ? & Hn);
        [done|done|lia|lia|].
      rewrite E1. cbn [rbind]. rewrite E2.
      exists n'. repeat split; try done; lia.
  - destruct (Z.ltb_spec (hgt l - hgt r) (-1)) as [Hb'|Hb']; cbn [andb].
    + destruct (Z.leb_spec (_getBalance r) 0) as [Hbr|Hbr].
      * destruct (rotateLeft_avl v0 l r h' c) as (n' & -> & ? & ? & ? & Hn);
          [done|done|lia|lia|].
        exists n'. repeat split; try done; lia.
      * destruct (Z.ltb_spec 0 (_getBalance r)); [|lia].
        destruct (rotateRightLeft_avl v0 l r h' c) as (r' & n' & E1 & E2 & ? & ? & Hn);
          [done|done|lia|lia|].
        rewrite E1. cbn [rbind]. rewrite E2.
        exists n'. repeat split; try done; lia.
    + eexists. split; [reflexivity|].
      split; [cbn; repeat split; try done; lia|]. cbn [_getNodeHeight]. lia.
Qed.

Lemma deleteNode_avl t : forall value c,
  avl t ->
  exists t' c', _deleteNode t value c = Ok (t', c') /\ avl t' /\
                (hgt t' = hgt t \/ hgt t' = hgt t - 1).
Proof.
  induction t as [|v l IHl r IHr h col]; intros value c Havl.
  - cbn. do 2 eexists. split; [reflexivity|]. split; [done|]. by left.
  - destruct Havl as (Hl & Hr & -> & Hbal).
    pose proof (avl_height_nonneg l Hl). pose proof (avl_height_nonneg r Hr).
    cbn [_deleteNode].
    destruct (Z.ltb_spec value v) as [Hlt|Hge].
    + unfold bind. destruct (IHl value c Hl) as (l' & c' & -> & Hl' & Hh).
      destruct (rebalanceAfterDelete_spec v l' r (1 + Z.max (hgt l) (hgt r)) col)
        as (n' & Hn' & Havl' & Hb1 & Hb2); [done|done|lia|].
      unfold lift. rewrite Hn'. do 2 eexists. split; [reflexivity|].
      split; [done|]. cbn [_getNodeHeight]. lia.
    + destruct (Z.ltb_spec v value) as [Hgt|Hle].
      * unfold bind. destruct (IHr value c Hr) as (r' & c' & -> & Hr' & Hh).
        destruct (rebalanceAfterDelete_spec v l r' (1 + Z.max (hgt l) (hgt r)) col)
          as (n' & Hn' & Havl' & Hb1 & Hb2); [done|done|lia|].
        unfold lift. rewrite Hn'. do 2 eexists. split; [reflexivity|].
        split; [done|]. cbn [_getNodeHeight]. lia.
      * destruct l as [|lv ll lr lh lc].
        { cbn. do 2 eexists. split; [reflexivity|]. split; [done|].
          cbn [_getNodeHeight] in *. lia. }
        destruct r as [|rv rl rr rh rc].
        { cbn. do 2 eexists. split; [reflexivity|]. split; [done|].
          cbn [_getNodeHeight] in *. lia. }
        cbn [is_null orb _findMin]. unfold bind.
        destruct (IHr (_findMin_from rv rl) c Hr) as (r' & c' & -> & Hr' & Hh).
        destruct (rebalanceAfterDelete_spec (_findMin_from rv rl) (Node lv ll lr lh lc) r'
                    (1 + Z.max (hgt (Node lv ll lr lh lc)) (hgt (Node rv rl rr rh rc))) col)
          as (n' & Hn' & Havl' & Hb1 & Hb2); [done|done|lia|].
        unfold lift. rewrite Hn'. do 2 eexists. split; [reflexivity|].
        split; [done|]. cbn [_getNodeHeight] in *. lia.
Qed.

(** *** Every reachable AVL tree *)

Lemma apply_op_avl s o :
  avl (root s) -> exists s', apply_op s o = Ok s' /\ avl (root s').
Proof.
  intros Havl. destruct o as [v|v]; unfold apply_op, insert, delete.
  - destruct (insertNode_avl (root s) v (nodeCount s) Havl) as (t' & c' & -> & H1 & _).
    cbn. eauto.
  - destruct (deleteNode_avl (root s) v (nodeCount s) Havl) as (t' & c' & -> & H1 & _).
    cbn. eauto.
Qed.

Lemma run_avl ops : forall s,
  avl (root s) -> exists s', run s ops = Ok s' /\ avl (root s').
Proof.
  induction ops as [|o ops IH]; intros s Havl; cbn [run]; [eauto|].
  destruct (apply_op_avl s o Havl) as (s1 & -> & H1). cbn [rbind]. by apply IH.
Qed.

Lemma avl_every_node t :
  avl t ->
  every_node (fun n => -1 <= balanceFactor n <= 1 /\
                       _getBalance n = balanceFactor n /\
                       hgt n = _getHeight n) t.
Proof.
  induction t as [|v l IHl r IHr h col]; [done|].
  intros Havl. pose proof (avl_height_real _ Havl) as Hreal.
  destruct Havl as (Hl & Hr & -> & Hbal).
  cbn [every_node]. split; [|split; [by apply IHl|by apply IHr]].
  cbn [balanceFactor _getBalance]. 
  rewrite <- (avl_height_real l Hl), <- (avl_height_real r Hr). done.
Qed.

Lemma avl_checkBalance t : avl t -> _checkBalance t = true.
Proof.
  induction t as [|v l IHl r IHr h col]; [done|].
  intros (Hl & Hr & -> & Hbal). cbn [_checkBalance _getBalance].
  destruct (Z.ltb_spec 1 (Z.abs (hgt l - hgt r))); [lia|].
  by rewrite IHl, IHr.
Qed.

(** C5: after every sequence of [insert] and [delete] calls on an empty AVL
    tree (each call returns), every node has a balance factor
    height(left) - height(right) in {-1, 0, 1}; the stored heights are the
    real ones, so [_getBalance] computes that factor and [isBalanced] holds. *)
Theorem C5_avl_balanced (ops : list op) :
  exists s,
    run empty ops = Ok s /\
    every_node (fun n => -1 <= balanceFactor n <= 1 /\
                         _getBalance n = balanceFactor n /\
                         _getNodeHeight n = _getHeight n) (root s) /\
    _checkBalance (root s) = true.
Proof.
  destruct (run_avl ops empty I) as (s & Hrun & Havl).
  exists s. split; [done|]. split; [by apply avl_every_node|by apply avl_checkBalance].
Qed.

End AVLBalance.

(** ** In-order traversal after inserts *)

Section InOrderAfterInserts.

Lemma avl_insert_all_spec vs : forall s,
  AVLTree.avl (AVLTree.root s) -> ordered (AVLTree.root s) ->
  exists s', AVLTree.insert_all s vs = Ok s' /\
             AVLTree.avl (AVLTree.root s') /\ ordered (AVLTree.root s').
Proof.
  unfold AVLTree.insert_all.
  induction vs as [|v vs IH]; intros s Havl Hord; cbn [map AVLTree.run]; [eauto|].
  unfold AVLTree.apply_op, AVLTree.insert.
  destruct (insertNode_avl (AVLTree.root s) v (AVLTree.nodeCount s) Havl)
    as (t' & c' & Hins & Havl' & _).
  rewrite Hins. cbn [rbind]. apply IH; cbn [AVLTree.root]; [done|].
  by apply (avl_insertNode_inorder _ _ _ _ _ Hins).
Qed.

(** C2: for every sequence of values inserted one after the other into an
    empty BST, AVL tree or Red-Black tree, every insert returns and the
    in-order traversal of the resulting tree lists the stored values in
    non-decreasing order. *)
Theorem C2_inorder_sorted (vs : list Z) :
  (exists s, BSTTree.insert_all BSTTree.empty vs = Ok s /\
             Sorted Z.le (BSTTree.getValues s)) /\
  (exists s, AVLTree.insert_all AVLTree.empty vs = Ok s /\
             Sorted Z.le (AVLTree.getValues s)) /\
  (exists s, RedBlackTree.insert_all RedBlackTree.empty vs = Ok s /\
             Sorted Z.le (RedBlackTree.getValues s)).
Proof.
  assert (Hnil : StronglySorted Z.lt []) by constructor.
  split; [|split].
  - destruct (bst_insert_all_spec vs BSTTree.empty Hnil) as (s & Hs & Hord).
    exists s. split; [done|]. by apply increasing_nondecreasing.
  - destruct (avl_insert_all_spec vs AVLTree.empty I Hnil) as (s & Hs & _ & Hord).
    exists s. split; [done|]. by apply increasing_nondecreasing.
  - destruct (rb_insert_all_spec vs RedBlackTree.empty Hnil) as (s & Hs & Hord).
    exists s. split; [done|]. by apply increasing_nondecreasing.
Qed.

End InOrderAfterInserts.

(** ** B-Tree: key counts and leaf depth *)

Section BTreeShape.
Import BTree.
Local Open Scope nat_scope.

Implicit Types deg : nat.

Lemma btree_wf_unfold deg lo h n :
  wf deg lo h n <->
  lo <= length (keys n) <= 2 * deg - 1 /\
  match h with
  | O => isLeaf n = true /\ children n = []
  | S h' => isLeaf n = false /\ length (children n) = S (length (keys n)) /\
            Forall (good deg h') (children n)
  end.
Proof. destruct h; reflexivity. Qed.

Lemma btree_wf_weaken deg lo lo' h n : lo' <= lo -> wf deg lo h n -> wf deg lo' h n.
Proof. rewrite !btree_wf_unfold. intros Hlo (Hk & Hrest). split; [lia|done]. Qed.

Lemma btree_is_full_spec deg n :
  1 <= deg -> is_full deg n = true <-> length (keys n) = 2 * deg - 1.
Proof. intros Hdeg. unfold is_full. rewrite Z.eqb_eq. lia. Qed.

Lemma btree_is_full_false deg n :
  1 <= deg -> is_full deg n = false <-> length (keys n) <> 2 * deg - 1.
Proof. intros Hdeg. unfold is_full. rewrite Z.eqb_neq. lia. Qed.

(** *** The array loops *)

Lemma btree_leaf_loop_length_lt value : forall n ks,
  n < length ks -> length (leaf_loop n ks value) = length ks.
Proof.
  induction n as [|i IH]; intros ks Hn; cbn [leaf_loop].
  - rewrite length_aset. by rewrite decide_True.
  - destruct (js_lt value (aread ks i)).
    + rewrite IH; rewrite length_aset, decide_True by done; [done|lia].
    + rewrite length_aset. by rewrite decide_True.
Qed.

Lemma btree_leaf_loop_length value ks :
  length (leaf_loop (length ks) ks value) = S (length ks).
Proof.
  destruct (length ks) as [|i] eqn:Hlen; cbn [leaf_loop].
  - rewrite length_aset, Hlen. by rewrite decide_False by lia.
  - destruct (js_lt value (aread ks i)).
    + rewrite btree_leaf_loop_length_lt; rewrite length_aset, Hlen, decide_False by lia; [done|lia].
    + rewrite length_aset, Hlen. by rewrite decide_False by lia.
Qed.

Lemma btree_descend_loop_le value ks : forall n, descend_loop n ks value <= n.
Proof.
  induction n as [|i IH]; cbn [descend_loop]; [done|].
  destruct (js_lt value (aread ks i)); lia.
Qed.

(** *** Splitting a full child *)

Lemma btree_splitChild_spec deg h ks cs1 y cs2 lf :
  1 <= deg ->
  length ks = length cs1 + length cs2 ->
  wf deg 0 h y -> length (keys y) = 2 * deg - 1 ->
  exists y' z,
    _splitChild deg (mkNode ks (cs1 ++ Some y :: cs2) lf) (length cs1)
      = Ok (mkNode (take (length cs1) ks ++ None :: drop (length cs1) ks)
                   (cs1 ++ Some y' :: Some z :: cs2) lf) /\
    wf deg (deg - 1) h y' /\ wf deg (deg - 1) h z /\
    length (keys y') = deg - 1 /\ length (keys z) = deg - 1.
Proof.
  intros Hdeg Hks Hy Hfull. apply btree_wf_unfold in Hy as (_ & Hshape).
  unfold _splitChild. cbn [children keys BTree.isLeaf].
  rewrite (aread_lookup _ _ (Some y)) by (apply list_lookup_middle; done).
  destruct deg as [|d] eqn:Hd; [lia|]. rewrite <- Hd in *. clear Hd d.
  do 2 eexists. split; [|split; [|split; [|split]]].
  - f_equal. f_equal.
    + rewrite aread_set_length_ge by lia. apply shift_in_le. lia.
    + rewrite insert_middle.
      replace (length cs1 + 1) with (length (cs1 ++ [Some (mkNode
        (set_length (deg - 1) (keys y))
        (set_length (if BTree.isLeaf y then 0 else deg) (children y))
        (BTree.isLeaf y))])) by (rewrite length_app; simpl; lia).
      rewrite (cons_middle _ cs1 cs2), app_assoc, shift_in_middle.
      by rewrite <- app_assoc.
  - apply btree_wf_unfold. cbn [keys children BTree.isLeaf]. rewrite length_set_length.
    split; [lia|]. destruct h as [|h'].
    + destruct Hshape as (Hlf & Hcs). rewrite ?Hlf, ?Hcs. done.
    + destruct Hshape as (Hlf & Hlen & Hall). rewrite ?Hlf. split; [done|].
      rewrite length_set_length. split; [lia|].
      rewrite set_length_exact by lia. by apply Forall_take.
  - apply btree_wf_unfold. cbn [keys children BTree.isLeaf].
    rewrite length_map, length_seq. split; [lia|]. destruct h as [|h'].
    + destruct Hshape as (Hlf & Hcs). rewrite ?Hlf, ?Hcs. done.
    + destruct Hshape as (Hlf & Hlen & Hall). rewrite ?Hlf. split; [done|].
      rewrite read_from_offset by lia.
      rewrite length_take, length_drop. split; [lia|].
      by apply Forall_take, Forall_drop.
  - cbn [keys]. apply length_set_length.
  - cbn [keys]. by rewrite length_map, length_seq.
Qed.

(** *** Inserting below a node that has room *)

Lemma btree_insertNonFull_unfold deg fuel x value :
  _insertNonFull fuel deg x value =
    if BTree.isLeaf x then
      Ok (mkNode (leaf_loop (length (keys x)) (keys x) value) (children x) (BTree.isLeaf x))
    else
      match fuel with
      | O => Throw OutOfFuel
      | S fuel' =>
          let i := descend_loop (length (keys x)) (keys x) value in
          match aread (children x) i with
          | None => Throw TypeError
          | Some c =>
              let* (x1, i1) :=
                (if is_full deg c then
                   let* x1 := _splitChild deg x i in
                   Ok (x1, if js_gt value (aread (keys x1) i) then S i else i)
                 else Ok (x, i)) in
              match aread (children x1) i1 with
              | None => Throw TypeError
              | Some c1 =>
                  let* c2 := _insertNonFull fuel' deg c1 value in
                  Ok (mkNode (keys x1) (<[i1 := Some c2]> (children x1)) (BTree.isLeaf x1))
              end
          end
      end.
Proof. destruct fuel; reflexivity. Qed.

Lemma btree_insertNonFull_spec deg value h : 1 <= deg -> forall fuel lo x,
  h <= fuel -> wf deg lo h x -> length (keys x) < 2 * deg - 1 ->
  exists x', _insertNonFull fuel deg x value = Ok x' /\ wf deg lo h x'.
Proof.
  intros Hdeg. induction h as [|h' IH]; intros fuel lo x Hfuel Hwf Hroom;
    apply btree_wf_unfold in Hwf as (Hk & Hshape); rewrite btree_insertNonFull_unfold.
  - destruct Hshape as (Hleaf & Hcs). rewrite Hleaf.
    eexists. split; [reflexivity|]. apply btree_wf_unfold. cbn [keys children BTree.isLeaf].
    rewrite btree_leaf_loop_length. split; [lia|done].
  - destruct Hshape as (Hleaf & Hlen & Hall). rewrite Hleaf.
    destruct fuel as [|fuel']; [lia|].
    destruct x as [ks cs lf]. cbn [keys children BTree.isLeaf] in *. subst lf.
    cbn zeta.
    pose proof (btree_descend_loop_le value ks (length ks)) as Hi.
    set (i := descend_loop (length ks) ks value) in *.
    destruct (lookup_lt_is_Some_2 cs i ltac:(lia)) as [oc Hoc].
    pose proof (Forall_lookup_1 _ _ _ _ Hall Hoc) as Hgood.
    destruct oc as [c|]; [|done]. cbn [good] in Hgood.
    apply list_elem_of_split_length in Hoc as (cs1 & cs2 & -> & Hi1).
    rewrite length_app in Hlen. cbn [length] in Hlen.
    apply Forall_app in Hall as (Hall1 & Hall2).
    apply Forall_cons in Hall2 as (_ & Hall2).
    rewrite (aread_lookup _ _ (Some c)) by (rewrite Hi1; apply list_lookup_middle; done).
    destruct (is_full deg c) eqn:Hfull.
    + (* the child is full: split it, then descend *)
      apply btree_is_full_spec in Hfull; [|done].
      destruct (btree_splitChild_spec deg h' ks cs1 c cs2 false Hdeg ltac:(lia)
                  (btree_wf_weaken _ _ 0 _ _ ltac:(lia) Hgood) Hfull)
        as (y' & z & Hsplit & Hy' & Hz & Hky & Hkz).
      rewrite Hi1, Hsplit. cbn [rbind keys children BTree.isLeaf].
      assert (Hnone : aread (take (length cs1) ks ++ None :: drop (length cs1) ks)
                        (length cs1) = None).
      { apply aread_lookup. apply list_lookup_middle. rewrite length_take. lia. }
      rewrite Hnone. cbn [js_gt].
      rewrite (aread_lookup _ _ (Some y')) by (apply list_lookup_middle; done).
      destruct (IH fuel' (deg - 1) y' ltac:(lia) Hy' ltac:(lia)) as (c2 & -> & Hc2).
      cbn [rbind]. eexists. split; [reflexivity|].
      apply btree_wf_unfold. cbn [keys children BTree.isLeaf].
      rewrite insert_middle.
      rewrite length_app, length_take, !length_app. cbn [length]. rewrite length_drop.
      split; [lia|]. split; [done|]. split; [lia|].
      apply Forall_app. split; [done|]. repeat (apply Forall_cons; split); done.
    + (* the child has room *)
      apply btree_is_full_false in Hfull; [|done]. cbn [rbind keys children BTree.isLeaf].
      rewrite (aread_lookup _ _ (Some c)) by (rewrite Hi1; apply list_lookup_middle; done).
      apply btree_wf_unfold in Hgood as Hc. destruct Hc as (Hkc & _).
      destruct (IH fuel' (deg - 1) c ltac:(lia) Hgood ltac:(lia)) as (c2 & -> & Hc2).
      cbn [rbind]. eexists. split; [reflexivity|].
      apply btree_wf_unfold. cbn [keys children BTree.isLeaf].
      rewrite Hi1, insert_middle. rewrite length_app. cbn [length].
      split; [lia|]. split; [done|]. split; [lia|].
      apply Forall_app. split; [done|]. apply Forall_cons. done.
Qed.

Lemma btree_wf_levels deg h : forall lo n, wf deg lo h n -> h <= levels n.
Proof.
  induction h as [|h' IH]; intros lo n Hwf; [lia|].
  apply btree_wf_unfold in Hwf as (_ & _ & Hlen & Hall).
  destruct n as [ks cs lf]. cbn [children keys] in *.
  destruct cs as [|oc cs]; [simpl in Hlen; lia|].
  apply Forall_cons in Hall as (Hoc & _). destruct oc as [c|]; [|done].
  specialize (IH _ _ Hoc). cbn [levels foldr]. lia.
Qed.

(** *** The public insert *)

(** The first insertion below a root that [insert] has just created by
    splitting the old full root: the new root holds the one [undefined]
    separator, so the descent goes to the right half. *)
Lemma btree_insert_below_new_root deg value h y' z :
  1 <= deg ->
  wf deg (deg - 1) h y' -> wf deg (deg - 1) h z -> length (keys z) = deg - 1 ->
  exists r', _insertNonFull (levels (mkNode [None] [Some y'; Some z] false)) deg
               (mkNode [None] [Some y'; Some z] false) value = Ok r' /\
             wf deg 0 (S h) r'.
Proof.
  intros Hdeg Hy' Hz Hkz. cbn [levels foldr].
  rewrite btree_insertNonFull_unfold. cbn [BTree.isLeaf keys children length].
  cbn -[wf levels Nat.max is_full _insertNonFull].
  assert (Hfull : is_full deg z = false) by (apply btree_is_full_false; lia).
  rewrite Hfull. cbn -[wf levels Nat.max is_full _insertNonFull].
  destruct (btree_insertNonFull_spec deg value h Hdeg
              (levels y' `max` (levels z `max` 0)) (deg - 1) z) as (c2 & -> & Hc2).
  - pose proof (btree_wf_levels _ _ _ _ Hz). lia.
  - done.
  - lia.
  - cbn [rbind]. eexists. split; [reflexivity|].
    apply btree_wf_unfold. cbn [keys children BTree.isLeaf length].
    split; [lia|]. split; [done|]. split; [done|].
    repeat (apply Forall_cons; split); done.
Qed.

Lemma btree_insert_spec deg s value :
  1 <= deg -> tree_ok deg s ->
  exists s', insert s value = Ok (s', []) /\ tree_ok deg s' /\ root s' <> None.
Proof.
  intros Hpos (Hdeg & Hroot).
  unfold insert. rewrite Hdeg.
  destruct (root s) as [r|].
  - destruct Hroot as (h & Hwf).
    destruct (is_full deg r) eqn:Hfull.
    + apply btree_is_full_spec in Hfull; [|done].
      destruct (btree_splitChild_spec deg h [] [] r [] false Hpos eq_refl Hwf Hfull)
        as (y' & z & Hsplit & Hy' & Hz & Hky & Hkz).
      cbn [length app take drop] in Hsplit. rewrite Hsplit. cbn [rbind].
      destruct (btree_insert_below_new_root deg value h y' z Hpos Hy' Hz Hkz)
        as (r' & -> & Hr').
      cbn [rbind]. eexists. split; [reflexivity|]. split; [|done].
      split; [done|]. cbn [root]. eauto.
    + apply btree_is_full_false in Hfull; [|done].
      apply btree_wf_unfold in Hwf as Hb. destruct Hb as (Hk & _).
      destruct (btree_insertNonFull_spec deg value h Hpos (levels r) 0 r) as (r' & -> & Hr');
        [by eapply btree_wf_levels|done|lia|].
      cbn [rbind]. eexists. split; [reflexivity|]. split; [|done].
      split; [done|]. cbn [root]. eauto.
  - eexists. split; [reflexivity|]. split; [|done]. split; [done|]. cbn [root].
    exists 0. apply btree_wf_unfold. cbn. split; [lia|done].
Qed.

Lemma btree_insert_all_spec deg vs : 1 <= deg -> forall s,
  tree_ok deg s ->
  exists s', insert_all s vs = Ok s' /\ tree_ok deg s' /\
             (root s <> None \/ vs <> [] -> root s' <> None).
Proof.
  intros Hpos. induction vs as [|v vs IH]; intros s Hok; cbn [insert_all].
  - exists s. split; [done|]. split; [done|]. by intros [?|?].
  - destruct (btree_insert_spec deg s v Hpos Hok) as (s1 & -> & H1 & Hne). cbn [rbind].
    destruct (IH s1 H1) as (s2 & -> & H2 & Hne2).
    exists s2. split; [done|]. split; [done|]. intros _. apply Hne2. by left.
Qed.

(** *** Degree 0 *)

Lemma btree_insert_degree_0 s value :
  single_leaf s ->
  exists s', insert s value = Ok (s', []) /\ single_leaf s' /\ root s' <> None.
Proof.
  intros (Hdeg & Hroot). unfold insert. rewrite Hdeg.
  destruct (root s) as [r|].
  - destruct Hroot as (Hleaf & Hcs).
    assert (Hfull : is_full 0 r = false) by (unfold is_full; apply Z.eqb_neq; lia).
    rewrite Hfull, btree_insertNonFull_unfold, Hleaf, Hcs. cbn [rbind].
    eexists. split; [reflexivity|]. done.
  - eexists. split; [reflexivity|]. done.
Qed.

Lemma btree_insert_all_degree_0 vs : forall s,
  single_leaf s ->
  exists s', insert_all s vs = Ok s' /\ single_leaf s' /\
             (root s <> None \/ vs <> [] -> root s' <> None).
Proof.
  induction vs as [|v vs IH]; intros s Hok; cbn [insert_all].
  - exists s. split; [done|]. split; [done|]. by intros [?|?].
  - destruct (btree_insert_degree_0 s v Hok) as (s1 & -> & H1 & Hne). cbn [rbind].
    destruct (IH s1 H1) as (s2 & -> & H2 & Hne2).
    exists s2. split; [done|]. split; [done|]. intros _. apply Hne2. by left.
Qed.

(** *** What the shape says about nodes and leaves *)




End BTreeShape.

(** ** Scenarios *)

Section Scenarios.
Local Open Scope string_scope.

(** Inserting 50, 30, 70, 20, 40, 60, 80 into a BST. *)
Example bst_scenario :
  exists s, BSTTree.insert_all BSTTree.empty [50; 30; 70; 20; 40; 60; 80] = Ok s /\
            BSTTree.getValues s = [20; 30; 40; 50; 60; 70; 80].
Proof. eexists. split; [vm_compute; reflexivity|reflexivity]. Qed.

(** Inserting 30, 20, 40, 10, 25, 35, 50 into an AVL tree: height 3. *)
Example avl_scenario :
  exists s, AVLTree.insert_all AVLTree.empty [30; 20; 40; 10; 25; 35; 50] = Ok s /\
            _getHeight (AVLTree.root s) = 3 /\
            AVLTree._getBalance (AVLTree.root s) = 0.
Proof. eexists. split; [vm_compute; reflexivity|split; reflexivity]. Qed.

(** B-Tree with [t = 2] and five ascending values: the root has one key after
    the split, and that key is the [undefined] stored by [_splitChild]; the
    median 2 is in no node. *)
Example btree_scenario :
  exists s,
    BTree.insert_all (BTree.empty 2) [1; 2; 3; 4; 5] = Ok s /\
    BTree.root s = Some (BTree.mkNode [None]
                           [Some (BTree.mkNode [Some 1] [] true);
                            Some (BTree.mkNode [Some 3; Some 4; Some 5] [] true)]
                           false).
Proof. eexists. split; [vm_compute; reflexivity|reflexivity]. Qed.

(** Removing the only node of a Red-Black tree: [delete] returns [true] and
    no notification is emitted. *)
Example rb_delete_last_node_is_silent :
  exists s1 e1 s2,
    RedBlackTree.insert RedBlackTree.empty 7 = Ok (s1, e1) /\
    RedBlackTree.delete s1 7 = Ok (s2, true, []) /\
    RedBlackTree.root s2 = null /\ RedBlackTree.nodeCount s2 = 0.
Proof. do 3 eexists. repeat split. Qed.

(** Deleting one of two words from a Trie: the word is gone, yet [delete]
    returns [false], the word count stays and nothing is emitted. *)
Example trie_delete_is_silent :
  exists s1 e1 s2 e2 s3 e3,
    Trie.insert Trie.empty "ab" = Ok (s1, e1) /\
    Trie.insert s1 "cd" = Ok (s2, e2) /\
    Trie.delete s2 "ab" = Ok (s3, false, []) /\
    Trie.search s3 "ab" = Ok (None, e3) /\
    Trie.wordCount s3 = 2.
Proof. do 6 eexists. repeat split. Qed.

(** A B+ leaf split with [t = 2]: the middle key 2 of the full leaf
    [1, 2, 3] is copied into the parent and heads the new right leaf. *)
Example bplus_leaf_split :
  exists s,
    BPlusTree.insert_all (BPlusTree.empty 2) [1; 2; 3; 4] = Ok s /\
    BPlusTree.root s = Some (BPlusTree.mkNode [Some 2]
                               [Some (BPlusTree.mkNode [Some 1] [] true);
                                Some (BPlusTree.mkNode [Some 2; Some 4] [] true)]
                               false).
Proof. eexists. split; [vm_compute; reflexivity|reflexivity]. Qed.

End Scenarios.



(** ** The binary search trees against the reference list *)

Section SearchTreeContent.

Implicit Types (t : TreeNode).

Lemma list_insert_app_lt value l1 x l2 :
  value < x ->
  list_insert value (l1 ++ x :: l2) = list_insert value l1 ++ x :: l2.
Proof.
  intros Hlt. induction l1 as [|y l1 IH]; simpl.
  - destruct (Z.ltb_spec value x); [done|lia].
  - destruct (Z.ltb_spec value y); [done|].
    destruct (Z.ltb_spec y value); [by rewrite IH|done].
Qed.

Lemma list_insert_app_gt value l1 x l2 :
  (forall y, y ∈ l1 -> y < value) -> x < value ->
  list_insert value (l1 ++ x :: l2) = l1 ++ x :: list_insert value l2.
Proof.
  intros Hl1 Hlt. induction l1 as [|y l1 IH]; simpl.
  - destruct (Z.ltb_spec value x); [lia|].
    destruct (Z.ltb_spec x value); [done|lia].
  - pose proof (Hl1 y ltac:(left)).
    destruct (Z.ltb_spec value y); [lia|].
    destruct (Z.ltb_spec y value); [|lia].
    rewrite IH; [done|]. intros z Hz. apply Hl1. by right.
Qed.

Lemma list_insert_app_eq value l1 l2 :
  (forall y, y ∈ l1 -> y < value) ->
  list_insert value (l1 ++ value :: l2) = l1 ++ value :: l2.
Proof.
  intros Hl1. induction l1 as [|y l1 IH]; simpl.
  - by rewrite Z.ltb_irrefl.
  - pose proof (Hl1 y ltac:(left)).
    destruct (Z.ltb_spec value y); [lia|].
    destruct (Z.ltb_spec y value); [|lia].
    rewrite IH; [done|]. intros z Hz. apply Hl1. by right.
Qed.

Lemma list_insert_elem_of value l x :
  x ∈ list_insert value l <-> x = value \/ x ∈ l.
Proof.
  induction l as [|y l IH]; simpl.
  - rewrite list_elem_of_singleton, elem_of_nil. tauto.
  - destruct (Z.ltb_spec value y); [by rewrite elem_of_cons|].
    destruct (Z.ltb_spec y value).
    + rewrite !elem_of_cons, IH. tauto.
    + assert (value = y) as -> by lia. rewrite !elem_of_cons. tauto.
Qed.

Lemma list_insert_sorted value l :
  StronglySorted Z.lt l -> StronglySorted Z.lt (list_insert value l).
Proof.
  induction 1 as [|y l Hs IH Hall]; simpl.
  - repeat constructor.
  - destruct (Z.ltb_spec value y).
    + constructor; [by constructor|]. constructor; [done|].
      eapply Forall_impl; [done|]. simpl. lia.
    + destruct (Z.ltb_spec y value); [|by constructor].
      constructor; [done|]. apply Forall_forall. intros x Hx.
      apply list_insert_elem_of in Hx as [->|Hx]; [done|].
      by eapply Forall_forall in Hall.
Qed.

Lemma list_delete_app value l1 l2 :
  list_delete value (l1 ++ l2) = list_delete value l1 ++ list_delete value l2.
Proof. apply filter_app. Qed.

Lemma list_delete_absent value l :
  (forall y, y ∈ l -> y <> value) -> list_delete value l = l.
Proof.
  intros Hl. unfold list_delete. induction l as [|y l IH]; [done|].
  rewrite filter_cons_True by (apply Hl; left).
  rewrite IH; [done|]. intros z Hz. apply Hl. by right.
Qed.

Lemma list_delete_head value l :
  (forall y, y ∈ l -> y <> value) -> list_delete value (value :: l) = l.
Proof.
  intros Hl. unfold list_delete. rewrite filter_cons_False by (intros H; by apply H).
  by apply list_delete_absent.
Qed.

Lemma list_delete_elem_of value l x :
  x ∈ list_delete value l <-> x <> value /\ x ∈ l.
Proof. unfold list_delete. by rewrite list_elem_of_filter. Qed.

Lemma list_delete_sorted value l :
  StronglySorted Z.lt l -> StronglySorted Z.lt (list_delete value l).
Proof.
  induction 1 as [|y l Hs IH Hall]; [constructor|].
  unfold list_delete. destruct (decide (y <> value)).
  - rewrite filter_cons_True by done. constructor; [done|].
    apply Forall_forall. intros x Hx. apply list_elem_of_filter in Hx as [_ Hx].
    by eapply Forall_forall in Hall.
  - by rewrite filter_cons_False.
Qed.

(** The minimum found by [_findMin] heads the in-order sequence; the maximum
    found by [_findMax] ends it. *)
Lemma findMin_from_head v t :
  exists rest, _inorder t ++ [v] = _findMin_from v t :: rest.
Proof.
  revert v. induction t as [|v' l IHl r _ h c]; intros v; simpl.
  - by exists [].
  - destruct (IHl v') as [rest Hrest].
    exists (rest ++ _inorder r ++ [v]).
    change (_findMin_from v' l :: rest ++ _inorder r ++ [v])
      with ((_findMin_from v' l :: rest) ++ _inorder r ++ [v]).
    rewrite <- Hrest. by rewrite <- !app_assoc.
Qed.

Lemma findMax_from_last v t :
  exists front, v :: _inorder t = front ++ [_findMax_from v t].
Proof.
  revert v. induction t as [|v' l _ r IHr h c]; intros v; simpl.
  - by exists [].
  - destruct (IHr v') as [front Hfront].
    exists (v :: _inorder l ++ front).
    rewrite Hfront. simpl. by rewrite <- app_assoc.
Qed.

Lemma length_inorder_node v l r h c :
  Z.of_nat (length (_inorder (Node v l r h c))) =
  Z.of_nat (length (_inorder l)) + 1 + Z.of_nat (length (_inorder r)).
Proof. simpl. rewrite length_app. simpl. lia. Qed.

(** *** Binary search tree *)

Lemma bst_insertNode_content t value : forall c,
  ordered t -> t <> null ->
  exists t' c', BSTTree._insertNode t value c = Ok (t', c') /\
    _inorder t' = list_insert value (_inorder t) /\
    c' - c = Z.of_nat (length (_inorder t')) - Z.of_nat (length (_inorder t)).
Proof.
  induction t as [|v l IHl r IHr h col]; intros c Hord Hnn; [done|].
  apply ordered_node in Hord as (Hl & Hr & Hlv & Hrv).
  cbn [BSTTree._insertNode].
  destruct (Z.ltb_spec value v) as [Hlt|Hge].
  - destruct l as [|lv ll lr lh lc].
    + cbn [is_null]. unfold bind, countUp, ret.
      do 2 eexists. split; [reflexivity|]. unfold newTreeNode.
      rewrite !length_inorder_node. split; [|simpl; lia].
      cbn [_inorder]. by rewrite list_insert_app_lt.
    + cbn [is_null]. unfold bind.
      destruct (IHl c Hl ltac:(done)) as (l' & c' & -> & Hin & Hc).
      do 2 eexists. split; [reflexivity|].
      rewrite !length_inorder_node in *. split; [|lia].
      cbn [_inorder]. rewrite Hin. by rewrite list_insert_app_lt.
  - destruct (Z.ltb_spec v value) as [Hgt|Hle].
    + assert (Hlt' : forall y, y ∈ _inorder l -> y < value).
      { intros y Hy. specialize (Hlv y Hy). lia. }
      destruct r as [|rv rl rr rh rc].
      * cbn [is_null]. unfold bind, countUp, ret.
        do 2 eexists. split; [reflexivity|]. unfold newTreeNode.
        rewrite !length_inorder_node. split; [|simpl; lia].
        cbn [_inorder]. by rewrite list_insert_app_gt.
      * cbn [is_null]. unfold bind.
        destruct (IHr c Hr ltac:(done)) as (r' & c' & -> & Hin & Hc).
        do 2 eexists. split; [reflexivity|].
        rewrite !length_inorder_node in *. split; [|lia].
        cbn [_inorder]. rewrite Hin. by rewrite list_insert_app_gt.
    + assert (value = v) as -> by lia.
      do 2 eexists. split; [reflexivity|]. split; [|lia].
      cbn [_inorder]. by rewrite list_insert_app_eq.
Qed.

Lemma inorder_null t : _inorder t = [] -> t = null.
Proof.
  destruct t as [|v l r h c]; [done|]. simpl. intros H.
  by apply app_eq_nil in H as [_ H].
Qed.

Lemma bst_deleteNode_content t : forall value c,
  ordered t ->
  exists t' c', BSTTree._deleteNode t value c = Ok (t', c') /\
    _inorder t' = list_delete value (_inorder t) /\
    c' - c = Z.of_nat (length (_inorder t')) - Z.of_nat (length (_inorder t)).
Proof.
  induction t as [|v l IHl r IHr h col]; intros value c Hord.
  { cbn. do 2 eexists. split; [reflexivity|]. split; [done|simpl; lia]. }
  apply ordered_node in Hord as (Hl & Hr & Hlv & Hrv).
  assert (Hdl : forall x, x < v -> list_delete x (v :: _inorder r) = v :: _inorder r).
  { intros x Hx. apply list_delete_absent. intros y [->|Hy]%elem_of_cons; [lia|].
    specialize (Hrv y Hy). lia. }
  assert (Hdr : forall x, v <= x -> list_delete x (_inorder l) = _inorder l).
  { intros x Hx. apply list_delete_absent. intros y Hy. specialize (Hlv y Hy). lia. }
  assert (Hdv : list_delete v (v :: _inorder r) = _inorder r).
  { apply list_delete_head. intros y Hy. specialize (Hrv y Hy). lia. }
  cbn [BSTTree._deleteNode].
  destruct (Z.ltb_spec value v) as [Hlt|Hge].
  - unfold bind. destruct (IHl value c Hl) as (l' & c' & -> & Hin & Hc).
    do 2 eexists. split; [reflexivity|].
    rewrite !length_inorder_node in *. split; [|lia].
    cbn [_inorder]. by rewrite list_delete_app, Hdl, Hin.
  - destruct (Z.ltb_spec v value) as [Hgt|Hle].
    + unfold bind. destruct (IHr value c Hr) as (r' & c' & -> & Hin & Hc).
      do 2 eexists. split; [reflexivity|].
      rewrite !length_inorder_node in *. split; [|lia].
      cbn [_inorder]. rewrite list_delete_app, Hdr by lia.
      change (v :: _inorder r) with ([v] ++ _inorder r).
      rewrite list_delete_app, Hin.
      rewrite (list_delete_absent value [v]); [done|].
      intros y ->%list_elem_of_singleton. lia.
    + assert (value = v) as -> by lia.
      cbn [_inorder]. rewrite list_delete_app, Hdr, Hdv by lia.
      destruct l as [|lv ll lr lh lc], r as [|rv rl rr rh rc].
      * cbn [isLeaf]. unfold bind, countDown, ret.
        do 2 eexists. split; [reflexivity|]. split; [done|simpl; lia].
      * cbn [isLeaf hasOneChild is_null]. unfold bind, countDown, ret.
        do 2 eexists. split; [reflexivity|]. split; [done|].
        rewrite !length_app. simpl. lia.
      * cbn [isLeaf hasOneChild is_null]. unfold bind, countDown, ret.
        do 2 eexists. split; [reflexivity|]. rewrite app_nil_r. split; [done|].
        rewrite !length_app. simpl. lia.
      * cbn [isLeaf hasOneChild _findMin]. unfold bind.
        set (sv := _findMin_from rv rl).
        destruct (findMin_from_head rv rl) as [rest Hrest]. fold sv in Hrest.
        assert (Hr_eq : _inorder (Node rv rl rr rh rc) = sv :: rest ++ _inorder rr).
        { cbn [_inorder]. change (rv :: _inorder rr) with ([rv] ++ _inorder rr).
          rewrite app_assoc, Hrest. done. }
        destruct (IHr sv c Hr) as (r' & c' & -> & Hin & Hc).
        unfold ret. do 2 eexists. split; [reflexivity|].
        rewrite Hr_eq in Hin, Hc. unfold ordered in Hr. rewrite Hr_eq in Hr.
        apply StronglySorted_cons in Hr as [Hall Hr].
        rewrite list_delete_head in Hin.
        2:{ intros y Hy. rewrite Forall_forall in Hall. specialize (Hall y Hy). lia. }
        rewrite Hr_eq. cbn [_inorder]. rewrite Hin.
        split; [done|]. rewrite Hin in Hc. rewrite !length_app in *.
        cbn [length] in *. rewrite !length_app in *. lia.
Qed.

(** *** Rebuilding a binary search tree by midpoints *)

Lemma slice_split {A} (vals : list A) (s a b : nat) v :
  vals !! (s + a)%nat = Some v ->
  take (a + S b) (drop s vals) =
    take a (drop s vals) ++ v :: take b (drop (s + a + 1) vals).
Proof.
  intros Hv. rewrite <- take_take_drop, drop_drop.
  rewrite (drop_S vals v (s + a)%nat Hv). simpl.
  by replace (S (s + a)) with (s + a + 1)%nat by lia.
Qed.

Lemma inorder_nodes_values t :
  Forall2 (fun n v => exists l r h c, n = Node v l r h c) (_inorder_nodes t) (_inorder t).
Proof.
  induction t as [|v l IHl r IHr h c]; cbn [_inorder_nodes _inorder]; [constructor|].
  apply Forall2_app; [exact IHl|]. constructor; [|exact IHr]. by exists l, r, h, c.
Qed.

Lemma getHeight_nonneg t : 0 <= _getHeight t.
Proof. induction t; simpl; lia. Qed.

(** A binary tree of height [h] has fewer than [2^h] nodes and at least
    [h]. *)
Lemma size_lt_pow_height t :
  Z.of_nat (length (_inorder t)) + 1 <= 2 ^ _getHeight t.
Proof.
  induction t as [|v l IHl r IHr h c]; [simpl; lia|].
  rewrite length_inorder_node. cbn [_getHeight].
  pose proof (getHeight_nonneg l). pose proof (getHeight_nonneg r).
  replace (1 + Z.max (_getHeight l) (_getHeight r))
    with (Z.succ (Z.max (_getHeight l) (_getHeight r))) by lia.
  rewrite Z.pow_succ_r by lia.
  assert (2 ^ _getHeight l <= 2 ^ Z.max (_getHeight l) (_getHeight r))
    by (apply Z.pow_le_mono_r; lia).
  assert (2 ^ _getHeight r <= 2 ^ Z.max (_getHeight l) (_getHeight r))
    by (apply Z.pow_le_mono_r; lia).
  lia.
Qed.

Lemma height_le_size t : _getHeight t <= Z.of_nat (length (_inorder t)).
Proof.
  induction t as [|v l IHl r IHr h c]; [simpl; lia|].
  rewrite length_inorder_node. cbn [_getHeight].
  pose proof (getHeight_nonneg l). pose proof (getHeight_nonneg r). lia.
Qed.

Lemma buildBalancedTree_spec fuel : forall nodes vals (s n : nat),
  Forall2 (fun n v => exists l r h c, n = Node v l r h c) nodes vals ->
  (s + n <= length nodes)%nat -> (n <= fuel)%nat ->
  exists t,
    BSTTree._buildBalancedTree fuel nodes (Z.of_nat s) (Z.of_nat s + Z.of_nat n - 1) = Ok t /\
    _inorder t = take n (drop s vals) /\
    2 ^ _getHeight t <= Z.max 1 (2 * Z.of_nat n).
Proof.
  induction fuel as [|fuel IH]; intros nodes vals s n Hnodes Hlen Hfuel.
  - assert (n = 0)%nat as -> by lia. cbn [BSTTree._buildBalancedTree].
    destruct (Z.ltb_spec (Z.of_nat s + Z.of_nat 0 - 1) (Z.of_nat s)); [|lia].
    exists null. rewrite take_0. simpl. repeat split; lia.
  - cbn [BSTTree._buildBalancedTree].
    destruct (Z.ltb_spec (Z.of_nat s + Z.of_nat n - 1) (Z.of_nat s)) as [Hlt|Hge].
    { assert (n = 0)%nat as -> by lia. exists null. rewrite take_0. simpl.
      repeat split; lia. }
    set (a := ((n - 1) / 2)%nat). set (b := (n - 1 - a)%nat).
    assert (Hn : n = (a + S b)%nat) by lia.
    replace ((Z.of_nat s + (Z.of_nat s + Z.of_nat n - 1)) / 2)
      with (Z.of_nat (s + a)) by lia.
    unfold aget. destruct (Z.ltb_spec (Z.of_nat (s + a)) 0); [lia|].
    rewrite Nat2Z.id.
    destruct (lookup_lt_is_Some_2 nodes (s + a)%nat ltac:(lia)) as [nd Hnd].
    rewrite Hnd.
    destruct (Forall2_lookup_l _ _ _ _ _ Hnodes Hnd) as (v & Hv & (l0 & r0 & h0 & c0 & ->)).
    replace (Z.of_nat (s + a) - 1) with (Z.of_nat s + Z.of_nat a - 1) by lia.
    destruct (IH nodes vals s a Hnodes ltac:(lia) ltac:(lia)) as (l & -> & Hl & Hhl).
    replace (Z.of_nat (s + a) + 1) with (Z.of_nat (s + a + 1)) by lia.
    replace (Z.of_nat s + Z.of_nat n - 1)
      with (Z.of_nat (s + a + 1) + Z.of_nat b - 1) by lia.
    destruct (IH nodes vals (s + a + 1)%nat b Hnodes ltac:(lia) ltac:(lia))
      as (r & -> & Hr & Hhr).
    cbn [rbind]. eexists. split; [reflexivity|]. split.
    + cbn [_inorder]. rewrite Hl, Hr, Hn. symmetry. by apply slice_split.
    + cbn [_getHeight].
      pose proof (getHeight_nonneg l). pose proof (getHeight_nonneg r).
      replace (1 + Z.max (_getHeight l) (_getHeight r))
        with (Z.succ (Z.max (_getHeight l) (_getHeight r))) by lia.
      rewrite Z.pow_succ_r by lia.
      destruct (Z.max_spec (_getHeight l) (_getHeight r)) as [[_ ->]|[_ ->]]; lia.
Qed.

Lemma bst_balance_spec s :
  exists s' evs,
    BSTTree.balance s = Ok (s', evs) /\
    BSTTree.getValues s' = BSTTree.getValues s /\
    BSTTree.nodeCount s' = BSTTree.nodeCount s /\
    evs = (if (length (BSTTree.getValues s) <=? 2)%nat then []
           else [mkEvent TREE_RESET None s']) /\
    forall t, length (_inorder t) = length (BSTTree.getValues s) ->
              _getHeight (BSTTree.root s') <= _getHeight t.
Proof.
  unfold BSTTree.balance, BSTTree.getValues.
  pose proof (inorder_nodes_values (BSTTree.root s)) as Hnodes.
  pose proof (Forall2_length _ _ _ Hnodes) as Hlen. rewrite Hlen.
  destruct (Nat.leb_spec (length (_inorder (BSTTree.root s))) 2) as [Hle|Hgt].
  - exists s, []. repeat split; try done.
    intros t Ht. pose proof (size_lt_pow_height t) as Hpow. rewrite Ht in Hpow.
    pose proof (height_le_size (BSTTree.root s)) as Hh.
    pose proof (getHeight_nonneg t) as Hnn.
    destruct (Z.le_gt_cases (_getHeight (BSTTree.root s)) (_getHeight t)) as [|Hlt]; [done|].
    assert (_getHeight t = 0 \/ _getHeight t = 1) as [E|E] by lia;
      rewrite E in Hpow; simpl in Hpow; lia.
  - destruct (buildBalancedTree_spec (length (_inorder (BSTTree.root s)))
                (_inorder_nodes (BSTTree.root s)) (_inorder (BSTTree.root s))
                0 (length (_inorder (BSTTree.root s))) Hnodes ltac:(lia) ltac:(lia))
      as (t0 & Hb & Hin & Hh).
    change (Z.of_nat 0 + ?x - 1) with (x - 1) in Hb. change (Z.of_nat 0) with 0 in Hb.
    rewrite Hb. cbn [rbind]. do 2 eexists. split; [reflexivity|]. cbn.
    rewrite drop_0, firstn_all in Hin. repeat split; try done.
    intros t Ht. pose proof (size_lt_pow_height t) as Hpow. rewrite Ht in Hpow.
    pose proof (getHeight_nonneg t) as Hnn. pose proof (getHeight_nonneg t0) as Hnn0.
    destruct (Z.le_gt_cases (_getHeight t0) (_getHeight t)) as [|Hlt]; [done|].
    assert (2 ^ (_getHeight t + 1) <= 2 ^ _getHeight t0)
      by (apply Z.pow_le_mono_r; lia).
    rewrite Z.pow_add_r in * by lia. lia.
Qed.

(** *** The reference list at a node *)

Lemma list_insert_node value v l r h c :
  ordered (Node v l r h c) ->
  list_insert value (_inorder (Node v l r h c)) =
    if value <? v then list_insert value (_inorder l) ++ v :: _inorder r
    else if v <? value then _inorder l ++ v :: list_insert value (_inorder r)
    else _inorder (Node v l r h c).
Proof.
  intros (Hl & Hr & Hlv & Hrv)%ordered_node. cbn [_inorder].
  destruct (Z.ltb_spec value v); [by apply list_insert_app_lt|].
  assert (forall y, y ∈ _inorder l -> y < value).
  { intros y Hy. specialize (Hlv y Hy). lia. }
  destruct (Z.ltb_spec v value); [by apply list_insert_app_gt|].
  assert (value = v) as -> by lia. by apply list_insert_app_eq.
Qed.

Lemma list_delete_node value v l r h c :
  ordered (Node v l r h c) ->
  list_delete value (_inorder (Node v l r h c)) =
    if value <? v then list_delete value (_inorder l) ++ v :: _inorder r
    else if v <? value then _inorder l ++ v :: list_delete value (_inorder r)
    else _inorder l ++ _inorder r.
Proof.
  intros (Hl & Hr & Hlv & Hrv)%ordered_node. cbn [_inorder].
  rewrite list_delete_app.
  destruct (Z.ltb_spec value v).
  - f_equal. apply list_delete_absent. intros y [->|Hy]%elem_of_cons; [lia|].
    specialize (Hrv y Hy). lia.
  - rewrite (list_delete_absent value (_inorder l)).
    2:{ intros y Hy. specialize (Hlv y Hy). lia. }
    destruct (Z.ltb_spec v value).
    + change (v :: _inorder r) with ([v] ++ _inorder r).
      rewrite list_delete_app. rewrite (list_delete_absent value [v]); [done|].
      intros y ->%list_elem_of_singleton. lia.
    + assert (value = v) as -> by lia. rewrite list_delete_head; [done|].
      intros y Hy. specialize (Hrv y Hy). lia.
Qed.

(** Removing the in-order successor from the right subtree and putting it
    at the node leaves the sequence of the two subtrees. *)
Lemma list_delete_successor rv rl rr rh rc :
  ordered (Node rv rl rr rh rc) ->
  _findMin_from rv rl :: list_delete (_findMin_from rv rl) (_inorder (Node rv rl rr rh rc))
  = _inorder (Node rv rl rr rh rc).
Proof.
  intros Hr. destruct (findMin_from_head rv rl) as [rest Hrest].
  assert (Hr_eq : _inorder (Node rv rl rr rh rc) = _findMin_from rv rl :: rest ++ _inorder rr).
  { cbn [_inorder]. change (rv :: _inorder rr) with ([rv] ++ _inorder rr).
    rewrite app_assoc, Hrest. done. }
  unfold ordered in Hr. rewrite Hr_eq in *.
  apply StronglySorted_cons in Hr as [Hall Hr].
  rewrite list_delete_head; [done|].
  intros y Hy. rewrite Forall_forall in Hall. specialize (Hall y Hy). lia.
Qed.

Lemma list_delete_length value (l : list Z) :
  (length (list_delete value l) < length l)%nat <-> value ∈ l.
Proof.
  split.
  - intros Hlt. destruct (decide (value ∈ l)) as [|Hn]; [done|].
    rewrite list_delete_absent in Hlt; [lia|]. intros y Hy ->. done.
  - intros Hin. apply (length_filter_lt _ _ value); [done|]. by intros H.
Qed.

(** *** AVL tree *)

Lemma avl_insertNode_content t value : forall c t' c',
  ordered t -> AVLTree._insertNode t value c = Ok (t', c') ->
  _inorder t' = list_insert value (_inorder t) /\
  c' - c = Z.of_nat (length (_inorder t')) - Z.of_nat (length (_inorder t)).
Proof.
  induction t as [|v l IHl r IHr h col]; intros c t' c' Hord Hok.
  - cbn in Hok. injection Hok as <- <-. simpl. split; [done|lia].
  - rewrite list_insert_node by done.
    pose proof Hord as (Hl & Hr & _)%ordered_node.
    cbn [AVLTree._insertNode] in Hok.
    destruct (Z.ltb_spec value v) as [Hlt|Hge].
    + unfold bind in Hok.
      destruct (AVLTree._insertNode l value c) as [[l' c1]|] eqn:El; [|done].
      unfold AVLTree.lift in Hok.
      destruct (AVLTree.rebalanceAfterInsert _ _) as [n'|] eqn:En; [|done].
      injection Hok as <- <-.
      apply avl_rebalanceAfterInsert_inorder in En. rewrite En.
      destruct (IHl _ _ _ Hl El) as [Hin Hc]. cbn [_inorder]. rewrite <- Hin.
      split; [done|]. rewrite !length_app. cbn [length]. lia.
    + destruct (Z.ltb_spec v value) as [Hgt|Hle].
      * unfold bind in Hok.
        destruct (AVLTree._insertNode r value c) as [[r' c1]|] eqn:Er; [|done].
        unfold AVLTree.lift in Hok.
        destruct (AVLTree.rebalanceAfterInsert _ _) as [n'|] eqn:En; [|done].
        injection Hok as <- <-.
        apply avl_rebalanceAfterInsert_inorder in En. rewrite En.
        destruct (IHr _ _ _ Hr Er) as [Hin Hc]. cbn [_inorder]. rewrite <- Hin.
        split; [done|]. rewrite !length_app. cbn [length]. lia.
      * injection Hok as <- <-. split; [done|lia].
Qed.

Lemma avl_rebalanceAfterDelete_inorder n n' :
  AVLTree.rebalanceAfterDelete n = Ok n' -> _inorder n' = _inorder n.
Proof.
  unfold AVLTree.rebalanceAfterDelete.
  destruct n as [|v l r h c]; [by intros [= <-]|]. cbn [AVLTree._updateHeight].
  set (h' := 1 + Z.max (AVLTree._getNodeHeight l) (AVLTree._getNodeHeight r)).
  set (b := AVLTree._getBalance (Node v l r h' c)).
  intros Hok.
  repeat match type of Hok with
    | (if ?b then _ else _) = Ok _ => destruct b
    end.
  - apply avl_rotateRight_inorder in Hok. by rewrite Hok.
  - destruct (AVLTree._rotateLeft l) as [l'|] eqn:El; [|done]. cbn [rbind] in Hok.
    apply avl_rotateRight_inorder in Hok. apply avl_rotateLeft_inorder in El.
    rewrite Hok. simpl. by rewrite El.
  - apply avl_rotateLeft_inorder in Hok. by rewrite Hok.
  - destruct (AVLTree._rotateRight r) as [r'|] eqn:Er; [|done]. cbn [rbind] in Hok.
    apply avl_rotateLeft_inorder in Hok. apply avl_rotateRight_inorder in Er.
    rewrite Hok. simpl. by rewrite Er.
  - by injection Hok as <-.
Qed.

Lemma avl_deleteNode_content t : forall value c t' c',
  ordered t -> AVLTree._deleteNode t value c = Ok (t', c') ->
  _inorder t' = list_delete value (_inorder t) /\
  c' - c = Z.of_nat (length (_inorder t')) - Z.of_nat (length (_inorder t)).
Proof.
  induction t as [|v l IHl r IHr h col]; intros value c t' c' Hord Hok.
  - cbn in Hok. injection Hok as <- <-. simpl. split; [done|lia].
  - rewrite list_delete_node by done.
    pose proof Hord as (Hl & Hr & _)%ordered_node.
    cbn [AVLTree._deleteNode] in Hok.
    destruct (Z.ltb_spec value v) as [Hlt|Hge].
    + unfold bind in Hok.
      destruct (AVLTree._deleteNode l value c) as [[l' c1]|] eqn:El; [|done].
      unfold AVLTree.lift in Hok.
      destruct (AVLTree.rebalanceAfterDelete _) as [n'|] eqn:En; [|done].
      injection Hok as <- <-.
      apply avl_rebalanceAfterDelete_inorder in En. rewrite En.
      destruct (IHl _ _ _ _ Hl El) as [Hin Hc]. cbn [_inorder]. rewrite <- Hin.
      split; [done|]. rewrite !length_app. cbn [length]. lia.
    + destruct (Z.ltb_spec v value) as [Hgt|Hle].
      * unfold bind in Hok.
        destruct (AVLTree._deleteNode r value c) as [[r' c1]|] eqn:Er; [|done].
        unfold AVLTree.lift in Hok.
        destruct (AVLTree.rebalanceAfterDelete _) as [n'|] eqn:En; [|done].
        injection Hok as <- <-.
        apply avl_rebalanceAfterDelete_inorder in En. rewrite En.
        destruct (IHr _ _ _ _ Hr Er) as [Hin Hc]. cbn [_inorder]. rewrite <- Hin.
        split; [done|]. rewrite !length_app. cbn [length]. lia.
      * destruct l as [|lv ll lr lh lc].
        { cbn in Hok. injection Hok as <- <-. split; [done|].
          cbn [_inorder length app]. lia. }
        destruct r as [|rv rl rr rh rc].
        { cbn -[_inorder] in Hok. injection Hok as <- <-.
          rewrite app_nil_r. split; [done|].
          rewrite (length_inorder_node v). simpl. lia. }
        cbn [is_null orb _findMin] in Hok. unfold bind in Hok.
        destruct (AVLTree._deleteNode _ _ c) as [[r' c1]|] eqn:Er; [|done].
        unfold AVLTree.lift in Hok.
        destruct (AVLTree.rebalanceAfterDelete _) as [n'|] eqn:En; [|done].
        injection Hok as <- <-.
        apply avl_rebalanceAfterDelete_inorder in En. rewrite En.
        destruct (IHr _ _ _ _ Hr Er) as [Hin Hc].
        pose proof (list_delete_successor rv rl rr rh rc Hr) as Hsucc.
        rewrite <- Hin in Hsucc.
        cbn [_inorder] in *. rewrite Hsucc. split; [done|].
        rewrite <- Hsucc in Hc. rewrite !length_app in *. cbn [length] in *.
        rewrite !length_app in *. cbn [length] in *. lia.
Qed.

(** *** Red-Black tree *)

Lemma rb_insertNode_content t value : forall c,
  ordered t ->
  exists t' c', RedBlackTree._insertNode t value c = Ok (t', c') /\
    _inorder t' = list_insert value (_inorder t) /\
    c' - c = Z.of_nat (length (_inorder t')) - Z.of_nat (length (_inorder t)).
Proof.
  induction t as [|v l IHl r IHr h col]; intros c Hord.
  - cbn. do 2 eexists. split; [reflexivity|]. split; [done|simpl; lia].
  - rewrite list_insert_node by done.
    pose proof Hord as (Hl & Hr & _)%ordered_node.
    cbn [RedBlackTree._insertNode].
    destruct (Z.ltb_spec value v) as [Hlt|Hge].
    + unfold bind. destruct (IHl c Hl) as (l' & c1 & -> & Hin & Hc).
      unfold RedBlackTree.lift.
      destruct (rb_fixInsertion_spec (Node v l' r h col)) as (n' & -> & Hn).
      do 2 eexists. split; [reflexivity|]. rewrite Hn. cbn [_inorder].
      rewrite <- Hin. split; [done|]. rewrite !length_app. cbn [length]. lia.
    + destruct (Z.ltb_spec v value) as [Hgt|Hle].
      * unfold bind. destruct (IHr c Hr) as (r' & c1 & -> & Hin & Hc).
        unfold RedBlackTree.lift.
        destruct (rb_fixInsertion_spec (Node v l r' h col)) as (n' & -> & Hn).
        do 2 eexists. split; [reflexivity|]. rewrite Hn. cbn [_inorder].
        rewrite <- Hin. split; [done|]. rewrite !length_app. cbn [length]. lia.
      * do 2 eexists. split; [reflexivity|]. split; [done|lia].
Qed.

Lemma rb_simpleBSTDelete_content t : forall value c,
  ordered t ->
  exists t' c', RedBlackTree._simpleBSTDelete t value c = Ok (t', c') /\
    _inorder t' = list_delete value (_inorder t) /\
    c' - c = Z.of_nat (length (_inorder t')) - Z.of_nat (length (_inorder t)).
Proof.
  induction t as [|v l IHl r IHr h col]; intros value c Hord.
  - cbn. do 2 eexists. split; [reflexivity|]. split; [done|simpl; lia].
  - rewrite list_delete_node by done.
    pose proof Hord as (Hl & Hr & _)%ordered_node.
    cbn [RedBlackTree._simpleBSTDelete].
    destruct (Z.ltb_spec value v) as [Hlt|Hge].
    + unfold bind. destruct (IHl value c Hl) as (l' & c1 & -> & Hin & Hc).
      do 2 eexists. split; [reflexivity|]. cbn [_inorder].
      rewrite <- Hin. split; [done|]. rewrite !length_app. cbn [length]. lia.
    + destruct (Z.ltb_spec v value) as [Hgt|Hle].
      * unfold bind. destruct (IHr value c Hr) as (r' & c1 & -> & Hin & Hc).
        do 2 eexists. split; [reflexivity|]. cbn [_inorder].
        rewrite <- Hin. split; [done|]. rewrite !length_app. cbn [length]. lia.
      * destruct l as [|lv ll lr lh lc].
        { cbn [is_null]. unfold bind, countDown, ret.
          do 2 eexists. split; [reflexivity|]. split; [done|].
          cbn [_inorder length app]. lia. }
        destruct r as [|rv rl rr rh rc].
        { cbn [is_null]. unfold bind, countDown, ret.
          do 2 eexists. split; [reflexivity|]. rewrite app_nil_r. split; [done|].
          rewrite (length_inorder_node v). simpl. lia. }
        cbn [is_null _findMin]. unfold bind.
        destruct (IHr (_findMin_from rv rl) c Hr) as (r' & c1 & -> & Hin & Hc).
        unfold ret. do 2 eexists. split; [reflexivity|].
        pose proof (list_delete_successor rv rl rr rh rc Hr) as Hsucc.
        rewrite <- Hin in Hsucc.
        cbn [_inorder] in *. rewrite Hsucc. split; [done|].
        rewrite <- Hsucc in Hc. rewrite !length_app in *. cbn [length] in *.
        rewrite !length_app in *. cbn [length] in *. lia.
Qed.

(** *** Deleting a value that is not stored *)

Lemma bst_deleteNode_absent t value c :
  value ∉ _inorder t -> BSTTree._deleteNode t value c = Ok (t, c).
Proof.
  induction t as [|v l IHl r IHr h col]; intros Hn; [done|].
  cbn [_inorder] in Hn. rewrite elem_of_app, elem_of_cons in Hn.
  cbn [BSTTree._deleteNode]. unfold bind, ret.
  destruct (Z.ltb_spec value v); [rewrite IHl; tauto|].
  destruct (Z.ltb_spec v value); [rewrite IHr; tauto|].
  exfalso. apply Hn. right. left. lia.
Qed.

Lemma rb_simpleBSTDelete_absent t value c :
  value ∉ _inorder t -> RedBlackTree._simpleBSTDelete t value c = Ok (t, c).
Proof.
  induction t as [|v l IHl r IHr h col]; intros Hn; [done|].
  cbn [_inorder] in Hn. rewrite elem_of_app, elem_of_cons in Hn.
  cbn [RedBlackTree._simpleBSTDelete]. unfold bind, ret.
  destruct (Z.ltb_spec value v); [rewrite IHl; tauto|].
  destruct (Z.ltb_spec v value); [rewrite IHr; tauto|].
  exfalso. apply Hn. right. left. lia.
Qed.

Lemma avl_rebalanceAfterDelete_balanced v l r h c :
  AVLTree.avl (Node v l r h c) ->
  AVLTree.rebalanceAfterDelete (Node v l r h c) = Ok (Node v l r h c).
Proof.
  intros (Hl & Hr & Hh & Hb). unfold AVLTree.rebalanceAfterDelete.
  cbn [AVLTree._updateHeight AVLTree._getBalance]. rewrite <- Hh.
  destruct (Z.ltb_spec 1 (AVLTree._getNodeHeight l - AVLTree._getNodeHeight r)); [lia|].
  destruct (Z.ltb_spec (AVLTree._getNodeHeight l - AVLTree._getNodeHeight r) (-1)); [lia|].
  done.
Qed.

Lemma avl_deleteNode_absent t value c :
  AVLTree.avl t -> value ∉ _inorder t -> AVLTree._deleteNode t value c = Ok (t, c).
Proof.
  induction t as [|v l IHl r IHr h col]; intros Havl Hn; [done|].
  pose proof Havl as (Hl & Hr & _).
  cbn [_inorder] in Hn. rewrite elem_of_app, elem_of_cons in Hn.
  cbn [AVLTree._deleteNode]. unfold bind, AVLTree.lift.
  destruct (Z.ltb_spec value v).
  { rewrite IHl by tauto. by rewrite avl_rebalanceAfterDelete_balanced. }
  destruct (Z.ltb_spec v value).
  { rewrite IHr by tauto. by rewrite avl_rebalanceAfterDelete_balanced. }
  exfalso. apply Hn. right. left. lia.
Qed.

(** *** Searching *)

Lemma searchNode_absent t value : value ∉ _inorder t -> _searchNode t value = null.
Proof.
  induction t as [|v l IHl r IHr h col]; intros Hn; [done|].
  cbn [_inorder] in Hn. rewrite elem_of_app, elem_of_cons in Hn.
  cbn [_searchNode].
  destruct (Z.eqb_spec value v); [tauto|].
  destruct (Z.ltb_spec value v); [apply IHl|apply IHr]; tauto.
Qed.

Lemma searchNode_present t value :
  ordered t -> value ∈ _inorder t ->
  exists l r h c, _searchNode t value = Node value l r h c.
Proof.
  induction t as [|v l IHl r IHr h col]; intros Hord Hin.
  { by apply elem_of_nil in Hin. }
  apply ordered_node in Hord as (Hl & Hr & Hlv & Hrv).
  cbn [_inorder] in Hin. rewrite elem_of_app, elem_of_cons in Hin.
  cbn [_searchNode].
  destruct (Z.eqb_spec value v) as [->|Hne]; [by eauto|].
  destruct (Z.ltb_spec value v).
  - apply IHl; [done|]. destruct Hin as [|[|Hin]]; [done|done|].
    specialize (Hrv _ Hin). lia.
  - apply IHr; [done|]. destruct Hin as [Hin|[|]]; [|done|done].
    specialize (Hlv _ Hin). lia.
Qed.

(** *** The validity check of the binary search tree *)

Lemma isValidBSTHelper_spec t : forall lo hi,
  BSTTree._isValidBSTHelper t lo hi = true <->
  ordered t /\
  forall x, x ∈ _inorder t ->
    match lo with Some m => m < x | None => True end /\
    match hi with Some m => x < m | None => True end.
Proof.
  induction t as [|v l IHl r IHr h col]; intros lo hi.
  { simpl. split; [|done]. intros _. split; [constructor|].
    intros x Hx. by apply elem_of_nil in Hx. }
  cbn [BSTTree._isValidBSTHelper]. rewrite ordered_node.
  destruct (_ || _) eqn:E.
  - split; [done|]. intros [_ Hb]. exfalso.
    destruct (Hb v) as [H1 H2]. { cbn [_inorder]. rewrite elem_of_app, elem_of_cons. tauto. }
    apply orb_true_iff in E as [E|E].
    + destruct lo; [|done]. apply Z.leb_le in E. lia.
    + destruct hi; [|done]. apply Z.leb_le in E. lia.
  - apply orb_false_iff in E as [E1 E2].
    assert (Hv : match lo with Some m => m < v | None => True end /\
                 match hi with Some m => v < m | None => True end).
    { split; [destruct lo|destruct hi]; try done; apply Z.leb_gt in E1 || apply Z.leb_gt in E2; lia. }
    clear E1 E2. destruct Hv as [Hlo Hhi].
    rewrite andb_true_iff, IHl, IHr. cbn [_inorder]. split.
    + intros ((Hl & Hlb) & (Hr & Hrb)). split.
      * repeat split; try done; intros x Hx; [by apply Hlb|by apply Hrb].
      * intros x [Hx|[->|Hx]%elem_of_cons]%elem_of_app; [|done|].
        -- destruct (Hlb x Hx) as [H1 H2]. split; [done|]. destruct hi; [lia|done].
        -- destruct (Hrb x Hx) as [H1 H2]. split; [|done]. destruct lo; [lia|done].
    + intros ((Hl & Hr & Hlv & Hrv) & Hb). split; (split; [done|]); intros x Hx.
      * split; [|by apply Hlv]. apply Hb. rewrite elem_of_app. by left.
      * split; [by apply Hrv|]. apply Hb. rewrite elem_of_app, elem_of_cons. by right; right.
Qed.

(** *** The public operations *)

Lemma deleted_flag (c c' : Z) (value : Z) (l : list Z) :
  c' - c = Z.of_nat (length (list_delete value l)) - Z.of_nat (length l) ->
  (c' <? c) = bool_decide (value ∈ l).
Proof.
  intros Hc. pose proof (list_delete_length value l) as Hlen.
  destruct (Z.ltb_spec c' c); symmetry.
  - apply bool_decide_eq_true. apply Hlen. lia.
  - apply bool_decide_eq_false. intros Hin. apply Hlen in Hin. lia.
Qed.

Lemma bst_insert_content s value :
  ordered (BSTTree.root s) ->
  BSTTree.nodeCount s = Z.of_nat (length (BSTTree.getValues s)) ->
  exists s',
    BSTTree.insert s value = Ok (s', [mkEvent NODE_INSERTED (Some value) s']) /\
    BSTTree.getValues s' = list_insert value (BSTTree.getValues s) /\
    BSTTree.nodeCount s' = Z.of_nat (length (BSTTree.getValues s')).
Proof.
  unfold BSTTree.insert, BSTTree.getValues. intros Hord Hcount.
  destruct (BSTTree.root s) as [|v l r h c] eqn:Hroot.
  - cbn. eexists. split; [reflexivity|]. cbn. split; [done|]. simpl in Hcount. lia.
  - cbn [is_null].
    destruct (bst_insertNode_content (Node v l r h c) value (BSTTree.nodeCount s) Hord ltac:(done))
      as (t' & c' & -> & Hin & Hc).
    cbn [rbind]. eexists. split; [reflexivity|]. cbn [BSTTree.root BSTTree.nodeCount].
    split; [done|]. lia.
Qed.

Lemma bst_delete_content s value :
  ordered (BSTTree.root s) ->
  BSTTree.nodeCount s = Z.of_nat (length (BSTTree.getValues s)) ->
  exists s',
    BSTTree.delete s value =
      Ok (s', bool_decide (value ∈ BSTTree.getValues s),
          if bool_decide (value ∈ BSTTree.getValues s)
          then [mkEvent NODE_DELETED (Some value) s'] else []) /\
    BSTTree.getValues s' = list_delete value (BSTTree.getValues s) /\
    BSTTree.nodeCount s' = Z.of_nat (length (BSTTree.getValues s')).
Proof.
  unfold BSTTree.delete, BSTTree.getValues. intros Hord Hcount.
  destruct (bst_deleteNode_content (BSTTree.root s) value (BSTTree.nodeCount s) Hord)
    as (t' & c' & -> & Hin & Hc).
  cbn [rbind]. rewrite Hin in Hc. rewrite (deleted_flag _ _ _ _ Hc).
  eexists. split; [reflexivity|]. cbn [BSTTree.root BSTTree.nodeCount].
  split; [done|]. rewrite Hin. lia.
Qed.

Lemma bst_apply_op_content s o :
  ordered (BSTTree.root s) ->
  BSTTree.nodeCount s = Z.of_nat (length (BSTTree.getValues s)) ->
  exists s',
    BSTTree.apply_op s o = Ok s' /\
    ordered (BSTTree.root s') /\
    BSTTree.nodeCount s' = Z.of_nat (length (BSTTree.getValues s')) /\
    BSTTree.getValues s' =
      match o with
      | BSTTree.Insert v => list_insert v (BSTTree.getValues s)
      | BSTTree.Delete v => list_delete v (BSTTree.getValues s)
      | BSTTree.Balance => BSTTree.getValues s
      end.
Proof.
  intros Hord Hcount. destruct o as [v|v|]; cbn [BSTTree.apply_op].
  - destruct (bst_insert_content s v Hord Hcount) as (s' & -> & Hin & Hc).
    cbn [rbind]. exists s'. split; [done|]. split; [|done].
    unfold ordered. fold (BSTTree.getValues s'). rewrite Hin. by apply list_insert_sorted.
  - destruct (bst_delete_content s v Hord Hcount) as (s' & -> & Hin & Hc).
    cbn [rbind]. exists s'. split; [done|]. split; [|done].
    unfold ordered. fold (BSTTree.getValues s'). rewrite Hin. by apply list_delete_sorted.
  - destruct (bst_balance_spec s) as (s' & evs & -> & Hin & Hc & _).
    cbn [rbind]. exists s'. split; [done|]. split; [|split; [|done]].
    + unfold ordered. fold (BSTTree.getValues s'). by rewrite Hin.
    + by rewrite Hc, Hin.
Qed.

Lemma bst_run_content ops : forall s,
  ordered (BSTTree.root s) ->
  BSTTree.nodeCount s = Z.of_nat (length (BSTTree.getValues s)) ->
  exists s',
    BSTTree.run s ops = Ok s' /\
    ordered (BSTTree.root s') /\
    BSTTree.nodeCount s' = Z.of_nat (length (BSTTree.getValues s')) /\
    BSTTree.getValues s' =
      foldl (fun l o =>
               match o with
               | BSTTree.Insert v => list_insert v l
               | BSTTree.Delete v => list_delete v l
               | BSTTree.Balance => l
               end) (BSTTree.getValues s) ops.
Proof.
  induction ops as [|o ops IH]; intros s Hord Hcount; cbn [BSTTree.run foldl].
  - by exists s.
  - destruct (bst_apply_op_content s o Hord Hcount) as (s1 & -> & Hord1 & Hc1 & Hv1).
    cbn [rbind]. destruct (IH s1 Hord1 Hc1) as (s2 & -> & Hord2 & Hc2 & Hv2).
    exists s2. repeat split; try done. by rewrite Hv2, Hv1.
Qed.

Lemma bst_run_empty ops :
  exists s,
    BSTTree.run BSTTree.empty ops = Ok s /\
    ordered (BSTTree.root s) /\
    BSTTree.nodeCount s = Z.of_nat (length (BSTTree.getValues s)) /\
    BSTTree.getValues s = BSTTree.model ops.
Proof. apply (bst_run_content ops BSTTree.empty); [constructor|done]. Qed.

Lemma avl_apply_op_content s o s' :
  ordered (AVLTree.root s) ->
  AVLTree.nodeCount s = Z.of_nat (length (AVLTree.getValues s)) ->
  AVLTree.apply_op s o = Ok s' ->
  ordered (AVLTree.root s') /\
  AVLTree.nodeCount s' = Z.of_nat (length (AVLTree.getValues s')) /\
  AVLTree.getValues s' =
    match o with
    | AVLTree.Insert v => list_insert v (AVLTree.getValues s)
    | AVLTree.Delete v => list_delete v (AVLTree.getValues s)
    end.
Proof.
  unfold AVLTree.getValues. intros Hord Hcount Hop.
  destruct o as [v|v]; cbn [AVLTree.apply_op] in Hop.
  - unfold AVLTree.insert in Hop.
    destruct (AVLTree._insertNode _ _ _) as [[r c]|] eqn:E; [|done].
    cbn [rbind] in Hop. injection Hop as <-. cbn [AVLTree.root AVLTree.nodeCount].
    destruct (avl_insertNode_content _ _ _ _ _ Hord E) as [Hin Hc].
    split; [|split; [lia|done]].
    unfold ordered. rewrite Hin. by apply list_insert_sorted.
  - unfold AVLTree.delete in Hop.
    destruct (AVLTree._deleteNode _ _ _) as [[r c]|] eqn:E; [|done].
    cbn [rbind] in Hop. injection Hop as <-. cbn [AVLTree.root AVLTree.nodeCount].
    destruct (avl_deleteNode_content _ _ _ _ _ Hord E) as [Hin Hc].
    split; [|split; [lia|done]].
    unfold ordered. rewrite Hin. by apply list_delete_sorted.
Qed.

Lemma avl_run_content ops : forall s,
  AVLTree.avl (AVLTree.root s) ->
  ordered (AVLTree.root s) ->
  AVLTree.nodeCount s = Z.of_nat (length (AVLTree.getValues s)) ->
  exists s',
    AVLTree.run s ops = Ok s' /\
    AVLTree.avl (AVLTree.root s') /\
    ordered (AVLTree.root s') /\
    AVLTree.nodeCount s' = Z.of_nat (length (AVLTree.getValues s')) /\
    AVLTree.getValues s' =
      foldl (fun l o =>
               match o with
               | AVLTree.Insert v => list_insert v l
               | AVLTree.Delete v => list_delete v l
               end) (AVLTree.getValues s) ops.
Proof.
  induction ops as [|o ops IH]; intros s Havl Hord Hcount; cbn [AVLTree.run foldl].
  - by exists s.
  - destruct (apply_op_avl s o Havl) as (s1 & Hop & Havl1).
    destruct (avl_apply_op_content s o s1 Hord Hcount Hop) as (Hord1 & Hc1 & Hv1).
    rewrite Hop. cbn [rbind].
    destruct (IH s1 Havl1 Hord1 Hc1) as (s2 & -> & Havl2 & Hord2 & Hc2 & Hv2).
    exists s2. repeat split; try done. by rewrite Hv2, Hv1.
Qed.

Lemma avl_run_empty ops :
  exists s,
    AVLTree.run AVLTree.empty ops = Ok s /\
    AVLTree.avl (AVLTree.root s) /\
    ordered (AVLTree.root s) /\
    AVLTree.nodeCount s = Z.of_nat (length (AVLTree.getValues s)) /\
    AVLTree.getValues s = AVLTree.model ops.
Proof. apply (avl_run_content ops AVLTree.empty); [done|constructor|done]. Qed.

Lemma rb_insert_content s value :
  ordered (RedBlackTree.root s) ->
  RedBlackTree.nodeCount s = Z.of_nat (length (RedBlackTree.getValues s)) ->
  exists s',
    RedBlackTree.insert s value = Ok (s', [mkEvent NODE_INSERTED (Some value) s']) /\
    RedBlackTree.getValues s' = list_insert value (RedBlackTree.getValues s) /\
    RedBlackTree.nodeCount s' = Z.of_nat (length (RedBlackTree.getValues s')).
Proof.
  unfold RedBlackTree.insert, RedBlackTree.getValues. intros Hord Hcount.
  destruct (rb_insertNode_content (RedBlackTree.root s) value (RedBlackTree.nodeCount s) Hord)
    as (t' & c' & -> & Hin & Hc).
  cbn [rbind]. eexists. split; [reflexivity|].
  cbn [RedBlackTree.root RedBlackTree.nodeCount]. rewrite rb_setColor_inorder.
  split; [done|]. lia.
Qed.

Lemma rb_delete_content s value :
  ordered (RedBlackTree.root s) ->
  RedBlackTree.nodeCount s = Z.of_nat (length (RedBlackTree.getValues s)) ->
  exists s' evs,
    RedBlackTree.delete s value =
      Ok (s', bool_decide (value ∈ RedBlackTree.getValues s), evs) /\
    RedBlackTree.getValues s' = list_delete value (RedBlackTree.getValues s) /\
    RedBlackTree.nodeCount s' = Z.of_nat (length (RedBlackTree.getValues s')).
Proof.
  unfold RedBlackTree.delete, RedBlackTree.getValues. intros Hord Hcount.
  destruct (rb_simpleBSTDelete_content (RedBlackTree.root s) value
              (RedBlackTree.nodeCount s) Hord) as (t' & c' & -> & Hin & Hc).
  cbn [rbind]. rewrite Hin in Hc. rewrite (deleted_flag _ _ _ _ Hc).
  destruct (_ && _); do 2 eexists; (split; [reflexivity|]);
    cbn [RedBlackTree.root RedBlackTree.nodeCount]; rewrite ?rb_setColor_inorder;
    (split; [done|]); rewrite Hin; lia.
Qed.

Lemma rb_run_content ops : forall s,
  ordered (RedBlackTree.root s) ->
  RedBlackTree.nodeCount s = Z.of_nat (length (RedBlackTree.getValues s)) ->
  exists s',
    RedBlackTree.run s ops = Ok s' /\
    ordered (RedBlackTree.root s') /\
    RedBlackTree.nodeCount s' = Z.of_nat (length (RedBlackTree.getValues s')) /\
    RedBlackTree.getValues s' =
      foldl (fun l o =>
               match o with
               | RedBlackTree.Insert v => list_insert v l
               | RedBlackTree.Delete v => list_delete v l
               end) (RedBlackTree.getValues s) ops.
Proof.
  induction ops as [|o ops IH]; intros s Hord Hcount; cbn [RedBlackTree.run foldl].
  - by exists s.
  - assert (exists s1, RedBlackTree.apply_op s o = Ok s1 /\
              ordered (RedBlackTree.root s1) /\
              RedBlackTree.nodeCount s1 = Z.of_nat (length (RedBlackTree.getValues s1)) /\
              RedBlackTree.getValues s1 =
                match o with
                | RedBlackTree.Insert v => list_insert v (RedBlackTree.getValues s)
                | RedBlackTree.Delete v => list_delete v (RedBlackTree.getValues s)
                end) as (s1 & -> & Hord1 & Hc1 & Hv1).
    { destruct o as [v|v]; cbn [RedBlackTree.apply_op].
      - destruct (rb_insert_content s v Hord Hcount) as (s' & -> & Hin & Hc).
        cbn [rbind]. exists s'. split; [done|]. split; [|done].
        unfold ordered. fold (RedBlackTree.getValues s'). rewrite Hin.
        by apply list_insert_sorted.
      - destruct (rb_delete_content s v Hord Hcount) as (s' & evs & -> & Hin & Hc).
        cbn [rbind]. exists s'. split; [done|]. split; [|done].
        unfold ordered. fold (RedBlackTree.getValues s'). rewrite Hin.
        by apply list_delete_sorted. }
    cbn [rbind]. destruct (IH s1 Hord1 Hc1) as (s2 & -> & Hord2 & Hc2 & Hv2).
    exists s2. repeat split; try done. by rewrite Hv2, Hv1.
Qed.

Lemma rb_run_empty ops :
  exists s,
    RedBlackTree.run RedBlackTree.empty ops = Ok s /\
    ordered (RedBlackTree.root s) /\
    RedBlackTree.nodeCount s = Z.of_nat (length (RedBlackTree.getValues s)) /\
    RedBlackTree.getValues s = RedBlackTree.model ops.
Proof. apply (rb_run_content ops RedBlackTree.empty); [constructor|done]. Qed.

Lemma list_delete_length_present value (l : list Z) :
  StronglySorted Z.lt l -> value ∈ l ->
  (length (list_delete value l) + 1 = length l)%nat.
Proof.
  induction 1 as [|y l Hs IH Hall]; intros Hin.
  { by apply elem_of_nil in Hin. }
  rewrite Forall_forall in Hall.
  destruct (decide (y = value)) as [->|Hne].
  - rewrite list_delete_head; [simpl; lia|].
    intros z Hz. specialize (Hall z Hz). lia.
  - apply elem_of_cons in Hin as [->|Hin]; [done|].
    unfold list_delete in *. rewrite filter_cons_True by done.
    simpl. rewrite <- (IH Hin). lia.
Qed.

Lemma list_delete_gone value (l : list Z) : value ∉ list_delete value l.
Proof. rewrite list_delete_elem_of. tauto. Qed.

Lemma bst_delete_presence s value :
  ordered (BSTTree.root s) ->
  BSTTree.nodeCount s = Z.of_nat (length (BSTTree.getValues s)) ->
  exists s' evs,
    BSTTree.delete s value = Ok (s', bool_decide (value ∈ BSTTree.getValues s), evs) /\
    (~ value ∈ BSTTree.getValues s -> s' = s /\ evs = []) /\
    (value ∈ BSTTree.getValues s ->
       (value ∉ BSTTree.getValues s') /\
       BSTTree.nodeCount s' = BSTTree.nodeCount s - 1 /\
       evs = [mkEvent NODE_DELETED (Some value) s']).
Proof.
  intros Hord Hcount.
  destruct (bst_delete_content s value Hord Hcount) as (s' & Hd & Hin & Hc).
  rewrite Hd. do 2 eexists. split; [reflexivity|]. split.
  - intros Hn. rewrite bool_decide_eq_false_2 by done. split; [|done].
    unfold BSTTree.delete in Hd.
    rewrite bst_deleteNode_absent in Hd by done. cbn [rbind] in Hd.
    injection Hd as <- _ _. by destruct s.
  - intros Hp. rewrite bool_decide_eq_true_2 by done.
    split; [rewrite Hin; apply list_delete_gone|]. split; [|done].
    pose proof (list_delete_length_present value _ Hord Hp) as Hlen.
    fold (BSTTree.getValues s) in Hlen. rewrite Hc, Hcount, Hin. lia.
Qed.

Lemma avl_delete_presence s value :
  AVLTree.avl (AVLTree.root s) ->
  ordered (AVLTree.root s) ->
  AVLTree.nodeCount s = Z.of_nat (length (AVLTree.getValues s)) ->
  exists s' evs,
    AVLTree.delete s value = Ok (s', bool_decide (value ∈ AVLTree.getValues s), evs) /\
    (~ value ∈ AVLTree.getValues s -> s' = s /\ evs = []) /\
    (value ∈ AVLTree.getValues s ->
       (value ∉ AVLTree.getValues s') /\
       AVLTree.nodeCount s' = AVLTree.nodeCount s - 1 /\
       evs = [mkEvent NODE_DELETED (Some value) s']).
Proof.
  intros Havl Hord Hcount. unfold AVLTree.delete, AVLTree.getValues in *.
  destruct (deleteNode_avl (AVLTree.root s) value (AVLTree.nodeCount s) Havl)
    as (t' & c' & Hd & _).
  destruct (avl_deleteNode_content _ _ _ _ _ Hord Hd) as [Hin Hc].
  rewrite Hd. cbn [rbind]. rewrite Hin in Hc. rewrite (deleted_flag _ _ _ _ Hc).
  do 2 eexists. split; [reflexivity|]. cbn [AVLTree.root AVLTree.nodeCount]. split.
  - intros Hn. rewrite bool_decide_eq_false_2 by done. split; [|done].
    rewrite avl_deleteNode_absent in Hd by done. injection Hd as <- <-. by destruct s.
  - intros Hp. rewrite bool_decide_eq_true_2 by done.
    split; [rewrite Hin; apply list_delete_gone|]. split; [|done].
    pose proof (list_delete_length_present value _ Hord Hp) as Hlen. lia.
Qed.

Lemma rb_delete_presence s value :
  ordered (RedBlackTree.root s) ->
  RedBlackTree.nodeCount s = Z.of_nat (length (RedBlackTree.getValues s)) ->
  exists s' evs,
    RedBlackTree.delete s value =
      Ok (s', bool_decide (value ∈ RedBlackTree.getValues s), evs) /\
    (~ value ∈ RedBlackTree.getValues s -> s' = s /\ evs = []) /\
    (value ∈ RedBlackTree.getValues s ->
       (value ∉ RedBlackTree.getValues s') /\
       RedBlackTree.nodeCount s' = RedBlackTree.nodeCount s - 1 /\
       evs = if is_null (RedBlackTree.root s') then []
             else [mkEvent NODE_DELETED (Some value) s']).
Proof.
  intros Hord Hcount. unfold RedBlackTree.delete, RedBlackTree.getValues in *.
  destruct (rb_simpleBSTDelete_content (RedBlackTree.root s) value
              (RedBlackTree.nodeCount s) Hord) as (t' & c' & Hd & Hin & Hc).
  rewrite Hd. cbn [rbind]. rewrite Hin in Hc. rewrite (deleted_flag _ _ _ _ Hc).
  destruct (decide (value ∈ _inorder (RedBlackTree.root s))) as [Hp|Hn].
  - rewrite bool_decide_eq_true_2 by done. cbn [andb].
    pose proof (list_delete_length_present value _ Hord Hp) as Hlen.
    destruct t' as [|tv tl tr th tc]; cbn [is_null negb];
      do 2 eexists; (split; [reflexivity|]); (split; [done|]); intros _;
      cbn [RedBlackTree.root RedBlackTree.nodeCount RedBlackTree.setColor is_null];
      (split; [|split; [lia|done]]).
    + apply not_elem_of_nil.
    + change (_inorder (Node tv tl tr th BLACK)) with (_inorder (Node tv tl tr th tc)).
      rewrite Hin. apply list_delete_gone.
  - rewrite bool_decide_eq_false_2 by done. cbn [andb].
    do 2 eexists. split; [reflexivity|]. split; [|done]. intros _. split; [|done].
    rewrite rb_simpleBSTDelete_absent in Hd by done. injection Hd as <- <-. by destruct s.
Qed.

(** X1: after any sequence of [insert], [delete] and [balance] calls on an
    empty binary search tree every call returns, [getValues()] is the strictly
    increasing list obtained by making the same insertions (a duplicate is
    ignored) and removals on a list, and [getSize()] is its length. *)
Theorem bst_matches_sorted_list (ops : list BSTTree.op) :
  exists s,
    BSTTree.run BSTTree.empty ops = Ok s /\
    BSTTree.getValues s = BSTTree.model ops /\
    StronglySorted Z.lt (BSTTree.getValues s) /\
    BSTTree.nodeCount s = Z.of_nat (length (BSTTree.getValues s)).
Proof.
  destruct (bst_run_empty ops) as (s & Hrun & Hord & Hc & Hv). by exists s.
Qed.

(** X2: after any sequence of [insert] and [delete] calls on an empty AVL
    tree every call returns, [getValues()] is the strictly increasing list
    obtained by making the same insertions and removals on a list, and
    [getSize()] is its length. *)
Theorem avl_matches_sorted_list (ops : list AVLTree.op) :
  exists s,
    AVLTree.run AVLTree.empty ops = Ok s /\
    AVLTree.getValues s = AVLTree.model ops /\
    StronglySorted Z.lt (AVLTree.getValues s) /\
    AVLTree.nodeCount s = Z.of_nat (length (AVLTree.getValues s)).
Proof.
  destruct (avl_run_empty ops) as (s & Hrun & _ & Hord & Hc & Hv). by exists s.
Qed.

(** X3: after any sequence of [insert] and [delete] calls on an empty
    Red-Black tree every call returns, [getValues()] is the strictly
    increasing list obtained by making the same insertions and removals on a
    list, and [getSize()] is its length. *)
Theorem redblack_matches_sorted_list (ops : list RedBlackTree.op) :
  exists s,
    RedBlackTree.run RedBlackTree.empty ops = Ok s /\
    RedBlackTree.getValues s = RedBlackTree.model ops /\
    StronglySorted Z.lt (RedBlackTree.getValues s) /\
    RedBlackTree.nodeCount s = Z.of_nat (length (RedBlackTree.getValues s)).
Proof.
  destruct (rb_run_empty ops) as (s & Hrun & Hord & Hc & Hv). by exists s.
Qed.

(** X4: on a binary search tree, an AVL tree and a Red-Black tree reached by
    any sequence of calls, [delete(value)] returns whether [value] was stored.
    When it was not, the tree is left as it was and nothing is notified; when
    it was, the value is gone and the count is one less, and the deletion is
    notified (by the Red-Black tree only if the tree is not empty
    afterwards). *)
Theorem delete_reports_presence (value : Z) :
  (forall ops, exists s s' evs,
     BSTTree.run BSTTree.empty ops = Ok s /\
     BSTTree.delete s value = Ok (s', bool_decide (value ∈ BSTTree.getValues s), evs) /\
     (~ value ∈ BSTTree.getValues s -> s' = s /\ evs = []) /\
     (value ∈ BSTTree.getValues s ->
        (value ∉ BSTTree.getValues s') /\
        BSTTree.nodeCount s' = BSTTree.nodeCount s - 1 /\
        evs = [mkEvent NODE_DELETED (Some value) s'])) /\
  (forall ops, exists s s' evs,
     AVLTree.run AVLTree.empty ops = Ok s /\
     AVLTree.delete s value = Ok (s', bool_decide (value ∈ AVLTree.getValues s), evs) /\
     (~ value ∈ AVLTree.getValues s -> s' = s /\ evs = []) /\
     (value ∈ AVLTree.getValues s ->
        (value ∉ AVLTree.getValues s') /\
        AVLTree.nodeCount s' = AVLTree.nodeCount s - 1 /\
        evs = [mkEvent NODE_DELETED (Some value) s'])) /\
  (forall ops, exists s s' evs,
     RedBlackTree.run RedBlackTree.empty ops = Ok s /\
     RedBlackTree.delete s value =
       Ok (s', bool_decide (value ∈ RedBlackTree.getValues s), evs) /\
     (~ value ∈ RedBlackTree.getValues s -> s' = s /\ evs = []) /\
     (value ∈ RedBlackTree.getValues s ->
        (value ∉ RedBlackTree.getValues s') /\
        RedBlackTree.nodeCount s' = RedBlackTree.nodeCount s - 1 /\
        evs = if is_null (RedBlackTree.root s') then []
              else [mkEvent NODE_DELETED (Some value) s'])).
Proof.
  repeat split; intros ops.
  - destruct (bst_run_empty ops) as (s & Hrun & Hord & Hc & _).
    destruct (bst_delete_presence s value Hord Hc) as (s' & evs & H).
    by exists s, s', evs.
  - destruct (avl_run_empty ops) as (s & Hrun & Havl & Hord & Hc & _).
    destruct (avl_delete_presence s value Havl Hord Hc) as (s' & evs & H).
    by exists s, s', evs.
  - destruct (rb_run_empty ops) as (s & Hrun & Hord & Hc & _).
    destruct (rb_delete_presence s value Hord Hc) as (s' & evs & H).
    by exists s, s', evs.
Qed.

(** X5: on a binary search tree, an AVL tree and a Red-Black tree reached by
    any sequence of calls, [search(value)] returns a node holding [value]
    when [value] is stored and [null] when it is not, and notifies
    [found] accordingly. *)
Theorem search_finds_stored_values (value : Z) :
  (forall ops, exists s result,
     BSTTree.run BSTTree.empty ops = Ok s /\
     BSTTree.search s value =
       (result, [mkSearchEvent value (bool_decide (value ∈ BSTTree.getValues s)) s]) /\
     if bool_decide (value ∈ BSTTree.getValues s)
     then exists l r h c, result = Node value l r h c
     else result = null) /\
  (forall ops, exists s result,
     AVLTree.run AVLTree.empty ops = Ok s /\
     AVLTree.search s value =
       (result, [mkSearchEvent value (bool_decide (value ∈ AVLTree.getValues s)) s]) /\
     if bool_decide (value ∈ AVLTree.getValues s)
     then exists l r h c, result = Node value l r h c
     else result = null) /\
  (forall ops, exists s result,
     RedBlackTree.run RedBlackTree.empty ops = Ok s /\
     RedBlackTree.search s value =
       (result, [mkSearchEvent value (bool_decide (value ∈ RedBlackTree.getValues s)) s]) /\
     if bool_decide (value ∈ RedBlackTree.getValues s)
     then exists l r h c, result = Node value l r h c
     else result = null).
Proof.
  assert (Hsearch : forall t, ordered t ->
            negb (is_null (_searchNode t value)) = bool_decide (value ∈ _inorder t) /\
            if bool_decide (value ∈ _inorder t)
            then exists l r h c, _searchNode t value = Node value l r h c
            else _searchNode t value = null).
  { intros t Hord. destruct (decide (value ∈ _inorder t)) as [Hp|Hn].
    - rewrite bool_decide_eq_true_2 by done.
      destruct (searchNode_present t value Hord Hp) as (l & r & h & c & E).
      rewrite E. split; [done|]. by exists l, r, h, c.
    - rewrite bool_decide_eq_false_2 by done.
      by rewrite (searchNode_absent t value Hn). }
  repeat split; intros ops.
  - destruct (bst_run_empty ops) as (s & Hrun & Hord & _).
    destruct (Hsearch _ Hord) as [Hf Hr].
    exists s, (_searchNode (BSTTree.root s) value). split; [done|].
    unfold BSTTree.search, BSTTree.getValues. by rewrite Hf.
  - destruct (avl_run_empty ops) as (s & Hrun & _ & Hord & _).
    destruct (Hsearch _ Hord) as [Hf Hr].
    exists s, (_searchNode (AVLTree.root s) value). split; [done|].
    unfold AVLTree.search, AVLTree.getValues. by rewrite Hf.
  - destruct (rb_run_empty ops) as (s & Hrun & Hord & _).
    destruct (Hsearch _ Hord) as [Hf Hr].
    exists s, (_searchNode (RedBlackTree.root s) value). split; [done|].
    unfold RedBlackTree.search, RedBlackTree.getValues. by rewrite Hf.
Qed.

(** X6: [isValidBST()] answers [true] exactly when the in-order sequence of
    the tree is strictly increasing, whatever the tree. *)
Theorem isValidBST_decides_order (s : BSTTree.t) :
  BSTTree.isValidBST s = bool_decide (StronglySorted Z.lt (BSTTree.getValues s)).
Proof.
  unfold BSTTree.isValidBST, BSTTree.getValues.
  pose proof (isValidBSTHelper_spec (BSTTree.root s) None None) as Hspec.
  destruct (BSTTree._isValidBSTHelper _ _ _); symmetry.
  - apply bool_decide_eq_true. by apply Hspec.
  - apply bool_decide_eq_false. intros Hord.
    assert (false = true); [|done]. apply Hspec. split; [done|]. done.
Qed.

(** X7: [balance()] returns on every tree, keeps the in-order sequence and
    the count, and notifies a reset exactly when the tree has more than two
    nodes. *)
Theorem balance_keeps_content (s : BSTTree.t) :
  exists s' evs,
    BSTTree.balance s = Ok (s', evs) /\
    BSTTree.getValues s' = BSTTree.getValues s /\
    BSTTree.nodeCount s' = BSTTree.nodeCount s /\
    evs = if (length (BSTTree.getValues s) <=? 2)%nat then []
          else [mkEvent TREE_RESET None s'].
Proof.
  destruct (bst_balance_spec s) as (s' & evs & Hb & Hv & Hc & He & _).
  by exists s', evs.
Qed.

(** X8: after [balance()] the tree is as low as a binary tree with that
    many nodes can be. *)
Theorem balance_gives_least_height (s : BSTTree.t) :
  exists s' evs,
    BSTTree.balance s = Ok (s', evs) /\
    forall t : TreeNode,
      length (_inorder t) = length (BSTTree.getValues s') ->
      _getHeight (BSTTree.root s') <= _getHeight t.
Proof.
  destruct (bst_balance_spec s) as (s' & evs & Hb & Hv & _ & _ & Hh).
  exists s', evs. split; [done|]. intros t Ht. apply Hh. by rewrite <- Hv.
Qed.

(** X9: on the root of a binary search tree reached by any sequence of
    calls, [_findMin] returns the least stored value and [_findMax] the
    greatest; on the empty tree both throw a TypeError. *)
Theorem findMin_findMax_extremes (ops : list BSTTree.op) :
  exists s,
    BSTTree.run BSTTree.empty ops = Ok s /\
    match BSTTree.getValues s with
    | [] => _findMin (BSTTree.root s) = Throw TypeError /\
            _findMax (BSTTree.root s) = Throw TypeError
    | _ :: _ =>
        exists lo hi,
          _findMin (BSTTree.root s) = Ok lo /\ _findMax (BSTTree.root s) = Ok hi /\
          lo ∈ BSTTree.getValues s /\ hi ∈ BSTTree.getValues s /\
          forall x, x ∈ BSTTree.getValues s -> lo <= x <= hi
    end.
Proof.
  destruct (bst_run_empty ops) as (s & Hrun & Hord & _).
  exists s. split; [done|]. unfold BSTTree.getValues.
  destruct (BSTTree.root s) as [|v l r h c]; [done|].
  destruct (_inorder (Node v l r h c)) as [|x0 xs] eqn:E.
  { apply inorder_null in E. done. }
  rewrite <- E. clear x0 xs E.
  destruct (findMin_from_head v l) as [rest Hmin].
  destruct (findMax_from_last v r) as [front Hmax].
  exists (_findMin_from v l), (_findMax_from v r).
  split; [done|]. split; [done|].
  assert (E1 : _inorder (Node v l r h c) = _findMin_from v l :: rest ++ _inorder r).
  { cbn [_inorder]. change (v :: _inorder r) with ([v] ++ _inorder r).
    by rewrite app_assoc, Hmin. }
  assert (E2 : _inorder (Node v l r h c) = (_inorder l ++ front) ++ [_findMax_from v r]).
  { cbn [_inorder]. by rewrite Hmax, app_assoc. }
  split; [rewrite E1; by left|]. split; [rewrite E2, elem_of_app, list_elem_of_singleton; by right|].
  intros x Hx. split.
  - unfold ordered in Hord. rewrite E1 in Hord, Hx.
    apply StronglySorted_cons in Hord as [Hall _]. rewrite Forall_forall in Hall.
    apply elem_of_cons in Hx as [->|Hx]; [lia|]. specialize (Hall x Hx). lia.
  - unfold ordered in Hord. rewrite E2 in Hord, Hx.
    apply StronglySorted_app in Hord as (Hcross & _ & _).
    apply elem_of_app in Hx as [Hx|Hx]; [|apply list_elem_of_singleton in Hx; lia].
    specialize (Hcross x (_findMax_from v r) Hx ltac:(by apply list_elem_of_singleton)). lia.
Qed.

End SearchTreeContent.


(** ** Heights of the balanced trees *)

Section BalancedHeights.

(** From [2^(h/2) <= n + 1] to the logarithm. *)
Lemma height_log_bound (h n : Z) :
  0 <= h -> 0 <= n -> 2 ^ (h / 2) <= n + 1 -> h <= 2 * Z.log2 (n + 1) + 1.
Proof.
  intros Hh Hn Hpow.
  assert (h / 2 <= Z.log2 (n + 1)); [|lia].
  rewrite <- (Z.log2_pow2 (h / 2)) by lia. by apply Z.log2_le_mono.
Qed.

Lemma avl_size_bound t :
  AVLTree.avl t ->
  2 ^ (AVLTree._getNodeHeight t / 2) <= Z.of_nat (length (_inorder t)) + 1.
Proof.
  induction t as [|v l IHl r IHr h c]; [intros _; by vm_compute|].
  intros (Hl & Hr & Hh & Hb). specialize (IHl Hl). specialize (IHr Hr).
  pose proof (avl_height_nonneg l Hl). pose proof (avl_height_nonneg r Hr).
  rewrite length_inorder_node. cbn [AVLTree._getNodeHeight].
  destruct (decide (h = 1)) as [->|Hne]; [change (2 ^ (1 / 2)) with 1; lia|].
  set (k := h / 2 - 1).
  assert (2 ^ (h / 2) = 2 * 2 ^ k) as ->.
  { replace (h / 2) with (Z.succ k) by lia. rewrite Z.pow_succ_r by lia. done. }
  assert (2 ^ k <= 2 ^ (AVLTree._getNodeHeight l / 2)) by (apply Z.pow_le_mono_r; lia).
  assert (2 ^ k <= 2 ^ (AVLTree._getNodeHeight r / 2)) by (apply Z.pow_le_mono_r; lia).
  lia.
Qed.

(** X10: after any sequence of [insert] and [delete] calls on an empty AVL
    tree, [getHeight()] is at most [2 * log2(getSize() + 1) + 1]. *)
Theorem avl_height_logarithmic (ops : list AVLTree.op) :
  exists s,
    AVLTree.run AVLTree.empty ops = Ok s /\
    _getHeight (AVLTree.root s) <= 2 * Z.log2 (AVLTree.nodeCount s + 1) + 1.
Proof.
  destruct (avl_run_empty ops) as (s & Hrun & Havl & _ & Hc & _).
  exists s. split; [done|].
  pose proof (avl_size_bound _ Havl) as Hb.
  rewrite (avl_height_real _ Havl) in Hb. unfold AVLTree.getValues in Hc.
  apply height_log_bound; [apply getHeight_nonneg|lia|lia].
Qed.

End BalancedHeights.

(** ** Red-Black tree: the shape kept by [insert] *)

Section RedBlackShape.
Import RedBlackTree.

Ltac rb_solve :=
  cbn in *; unfold grown, infrared in *; cbn in *;
  intuition (try discriminate; try lia; try congruence).

Lemma rb_grown_refl t : redBlack t -> grown t t.
Proof. intros H. split; [done|]. destruct (_isRed t); auto. Qed.

Lemma rb_blacken t : redBlack t \/ infrared t -> redBlack (setColor BLACK t).
Proof. destruct t as [|v l r h []]; rb_solve. Qed.

Lemma rb_fix_left v l l' r h c :
  redBlack (Node v l r h c) -> grown l l' ->
  exists t', _fixInsertion (Node v l' r h c) = Ok t' /\ grown (Node v l r h c) t'.
Proof.
  intros Hrb Hg.
  destruct l as [|? ? ? ? []], r as [|? ? ? ? []], c;
    destruct l' as [|xv [|? ? ? ? []] xr xh []];
    cbn in Hrb, Hg |- *; unfold grown in *; cbn in Hg |- *;
    try (exfalso; rb_solve; fail);
    (eexists; split; [reflexivity|]); rb_solve.
Qed.

Lemma rb_fix_right v l r r' h c :
  redBlack (Node v l r h c) -> grown r r' ->
  exists t', _fixInsertion (Node v l r' h c) = Ok t' /\ grown (Node v l r h c) t'.
Proof.
  intros Hrb Hg.
  destruct l as [|? [|? ? ? ? []] ? ? []], r as [|? ? ? ? []], c;
    destruct r' as [|xv [|? ? ? ? []] xr xh []];
    cbn in Hrb, Hg |- *; unfold grown in *; cbn in Hg |- *;
    try (exfalso; rb_solve; fail);
    (eexists; split; [reflexivity|]); rb_solve.
Qed.

Lemma rb_insertNode_shape t value : forall c,
  redBlack t ->
  exists t' c', _insertNode t value c = Ok (t', c') /\ grown t t'.
Proof.
  induction t as [|v l IHl r IHr h col]; intros c Hrb.
  - cbn. do 2 eexists. split; [reflexivity|]. by cbn.
  - pose proof Hrb as (Hl & Hr & _).
    cbn [_insertNode].
    destruct (Z.ltb_spec value v) as [Hlt|Hge].
    + unfold bind. destruct (IHl c Hl) as (l' & c1 & -> & Hg).
      unfold lift. destruct (rb_fix_left v l l' r h col Hrb Hg) as (t' & -> & Hg').
      by do 2 eexists.
    + destruct (Z.ltb_spec v value) as [Hgt|Hle].
      * unfold bind. destruct (IHr c Hr) as (r' & c1 & -> & Hg).
        unfold lift. destruct (rb_fix_right v l r r' h col Hrb Hg) as (t' & -> & Hg').
        by do 2 eexists.
      * do 2 eexists. split; [reflexivity|]. by apply rb_grown_refl.
Qed.

Lemma rb_insert_shape s value :
  redBlack (root s) -> _isRed (root s) = false ->
  exists s' evs, insert s value = Ok (s', evs) /\
                 redBlack (root s') /\ _isRed (root s') = false.
Proof.
  intros Hrb Hblack. unfold insert.
  destruct (rb_insertNode_shape (root s) value (nodeCount s) Hrb) as (t' & c' & -> & Hbh & Hg).
  rewrite Hblack in Hg. cbn [rbind]. do 2 eexists. split; [reflexivity|].
  cbn [root]. split; [apply rb_blacken; by left|]. by destruct t'.
Qed.

Lemma rb_insert_all_shape vs : forall s,
  redBlack (root s) -> _isRed (root s) = false ->
  exists s', insert_all s vs = Ok s' /\
             redBlack (root s') /\ _isRed (root s') = false.
Proof.
  induction vs as [|v vs IH]; intros s Hrb Hblack; cbn [insert_all].
  - by exists s.
  - destruct (rb_insert_shape s v Hrb Hblack) as (s1 & evs & -> & Hrb1 & Hb1).
    cbn [rbind]. by apply IH.
Qed.

Lemma rb_black_paths t :
  redBlack t -> Forall (fun k => k = blackHeight t) (black_paths t).
Proof.
  induction t as [|v l IHl r IHr h c]; intros Hrb.
  - by repeat constructor.
  - destruct Hrb as (Hl & Hr & Hbh & _). cbn [black_paths blackHeight].
    apply Forall_fmap. apply Forall_app. split.
    + eapply Forall_impl; [exact (IHl Hl)|]. intros k ->. done.
    + eapply Forall_impl; [exact (IHr Hr)|]. intros k ->. simpl. by rewrite Hbh.
Qed.

Lemma rb_insert_all_run vs : forall s, insert_all s vs = run s (map Insert vs).
Proof.
  induction vs as [|v vs IH]; intros s; [done|].
  cbn [insert_all map run apply_op].
  destruct (insert s v) as [[s' evs]|]; [|done]. cbn [rbind]. apply IH.
Qed.

(** With the red-black shape a subtree of black height [b] has at least
    [2^b - 1] nodes and is at most [2b] high, plus one if its root is RED. *)
Lemma rb_size_bound t :
  redBlack t -> 2 ^ Z.of_nat (blackHeight t) <= Z.of_nat (length (_inorder t)) + 1.
Proof.
  induction t as [|v l IHl r IHr h c]; [intros _; by vm_compute|].
  intros (Hl & Hr & Hbh & _). specialize (IHl Hl). specialize (IHr Hr).
  rewrite length_inorder_node. cbn [blackHeight]. rewrite <- Hbh in IHr.
  destruct c; cbn [Nat.add].
  - assert (0 < 2 ^ Z.of_nat (blackHeight l)) by (apply Z.pow_pos_nonneg; lia). lia.
  - rewrite Nat2Z.inj_succ, Z.pow_succ_r by lia. lia.
Qed.

Lemma rb_height_bound t :
  redBlack t ->
  _getHeight t <= 2 * Z.of_nat (blackHeight t) + (if _isRed t then 1 else 0).
Proof.
  induction t as [|v l IHl r IHr h c]; [intros _; simpl; lia|].
  intros (Hl & Hr & Hbh & Hred & _). specialize (IHl Hl). specialize (IHr Hr).
  cbn [_getHeight blackHeight _isRed]. rewrite <- Hbh in IHr.
  destruct c.
  - destruct (Hred eq_refl) as [E1 E2]. rewrite E1 in IHl. rewrite E2 in IHr.
    cbn [Nat.add]. lia.
  - destruct (_isRed l), (_isRed r); lia.
Qed.

(** X11: after any sequence of [insert] calls on an empty Red-Black tree
    the root is not RED, no RED node has a RED child, a RED right child
    comes with a RED left child, and every path from the root to a null
    link passes the same number of BLACK nodes. *)
Theorem redblack_shape_after_inserts (vs : list Z) :
  exists s,
    insert_all empty vs = Ok s /\
    _isRed (root s) = false /\
    redBlack (root s) /\
    Forall (fun k => k = blackHeight (root s)) (black_paths (root s)).
Proof.
  destruct (rb_insert_all_shape vs empty) as (s & Hrun & Hrb & Hblack); [done|done|].
  exists s. repeat split; try done. by apply rb_black_paths.
Qed.

(** X12: after any sequence of [insert] calls on an empty Red-Black tree,
    [getHeight()] is at most [2 * log2(getSize() + 1) + 1]. *)
Theorem redblack_height_logarithmic (vs : list Z) :
  exists s,
    insert_all empty vs = Ok s /\
    _getHeight (root s) <= 2 * Z.log2 (nodeCount s + 1) + 1.
Proof.
  destruct (rb_insert_all_shape vs empty) as (s & Hrun & Hrb & Hblack); [done|done|].
  exists s. split; [done|].
  destruct (rb_run_empty (map Insert vs)) as (s0 & Hrun0 & _ & Hc & _).
  rewrite <- rb_insert_all_run, Hrun in Hrun0. injection Hrun0 as <-.
  unfold getValues in Hc.
  pose proof (rb_size_bound _ Hrb) as Hsize.
  pose proof (rb_height_bound _ Hrb) as Hheight. rewrite Hblack in Hheight.
  apply height_log_bound; [apply getHeight_nonneg|lia|].
  rewrite Hc. etransitivity; [|exact Hsize]. apply Z.pow_le_mono_r; lia.
Qed.

End RedBlackShape.


(** ** The four traversals of TreeBase *)

Section Traversals.

Lemma preorder_Permutation t : _preorder t ≡ₚ _inorder t.
Proof.
  induction t as [|v l IHl r IHr h c]; simpl; [done|].
  rewrite IHl, IHr. apply Permutation_middle.
Qed.

Lemma postorder_Permutation t : _postorder t ≡ₚ _inorder t.
Proof.
  induction t as [|v l IHl r IHr h c]; simpl; [done|].
  rewrite IHl, IHr. apply Permutation_app_head.
  symmetry. apply Permutation_cons_append.
Qed.

Lemma inorder_push (queue : list TreeNode) t :
  concat (_inorder <$> (if is_null t then queue else queue ++ [t])) =
  concat (_inorder <$> queue) ++ _inorder t.
Proof.
  destruct t as [|v l r h c]; cbn [is_null].
  - by rewrite app_nil_r.
  - rewrite fmap_app, concat_app. simpl. by rewrite app_nil_r.
Qed.

Lemma levelOrder_loop_spec fuel : forall queue,
  Forall (fun n => n <> null) queue ->
  (length (concat (_inorder <$> queue)) <= fuel)%nat ->
  exists vs, levelOrder_loop fuel queue = Ok vs /\
             vs ≡ₚ concat (_inorder <$> queue) /\
             head vs = head (concat (_preorder <$> queue)).
Proof.
  induction fuel as [|fuel IH]; intros queue Hnn Hlen.
  - destruct queue as [|[|v l r h c] q]; [by exists []|..].
    + by apply Forall_cons in Hnn as [? _].
    + simpl in Hlen. rewrite !length_app in Hlen. simpl in Hlen. lia.
  - destruct queue as [|[|v l r h c] q]; [by exists []|..].
    { by apply Forall_cons in Hnn as [? _]. }
    apply Forall_cons in Hnn as [_ Hq].
    cbn [levelOrder_loop].
    set (q1 := if is_null l then q else q ++ [l]).
    set (q2 := if is_null r then q1 else q1 ++ [r]).
    assert (Hq2 : concat (_inorder <$> q2) =
                  concat (_inorder <$> q) ++ _inorder l ++ _inorder r).
    { unfold q2, q1. by rewrite !inorder_push, <- app_assoc. }
    destruct (IH q2) as (rest & -> & Hperm & _).
    + unfold q2, q1. destruct l, r; cbn [is_null]; rewrite ?Forall_app, ?Forall_singleton; done.
    + rewrite Hq2. rewrite fmap_cons in Hlen. cbn [concat _inorder] in Hlen.
      rewrite !length_app in *. cbn [length] in Hlen. lia.
    + cbn [rbind]. eexists. split; [reflexivity|]. split; [|done].
      rewrite Hperm, Hq2. rewrite fmap_cons. cbn [concat _inorder].
      transitivity (v :: (_inorder l ++ _inorder r) ++ concat (_inorder <$> q)).
      * constructor. apply Permutation_app_comm.
      * change ((v :: _inorder l ++ _inorder r) ++ concat (_inorder <$> q)
                ≡ₚ (_inorder l ++ v :: _inorder r) ++ concat (_inorder <$> q)).
        apply Permutation_app_tail, Permutation_middle.
Qed.

Lemma levelOrderTraversal_spec t :
  exists vs, levelOrderTraversal t = Ok vs /\
             vs ≡ₚ _inorder t /\
             head vs = head (_preorder t).
Proof.
  unfold levelOrderTraversal. destruct t as [|v l r h c]; cbn [is_null].
  { by exists []. }
  destruct (levelOrder_loop_spec (length (_inorder (Node v l r h c))) [Node v l r h c])
    as (vs & Hvs & Hperm & Hhead).
  - by repeat constructor.
  - simpl. by rewrite app_nil_r.
  - exists vs. split; [done|]. simpl in Hperm, Hhead. rewrite app_nil_r in Hperm.
    done.
Qed.

(** X13: on every binary tree the pre-order, post-order and level-order
    traversals visit the values of the in-order traversal, each as often as
    it occurs there; the level-order loop ends and starts at the root. *)
Theorem traversals_visit_same_values (t : TreeNode) :
  _preorder t ≡ₚ _inorder t /\
  _postorder t ≡ₚ _inorder t /\
  exists vs, levelOrderTraversal t = Ok vs /\
             vs ≡ₚ _inorder t /\
             head vs = head (_preorder t).
Proof.
  split; [apply preorder_Permutation|]. split; [apply postorder_Permutation|].
  apply levelOrderTraversal_spec.
Qed.

End Traversals.

(** ** Min-Heap: the display tree, [search], [getMin] and the count *)

Section HeapDisplay.
Import MinHeap.
Implicit Types (a : list Z) (i j k : nat) (t : TreeNode).

(** [t] is the display tree of the slots below index [i]. *)
Local Abbreviation built a i t := (_buildTreeFromArray_loop (length a) a i = Ok t).

Lemma buildTree_fuel_mono fuel : forall a i t fuel',
  _buildTreeFromArray_loop fuel a i = Ok t -> (fuel <= fuel')%nat ->
  _buildTreeFromArray_loop fuel' a i = Ok t.
Proof.
  induction fuel as [|fuel IH]; intros a i t fuel' Hok Hle.
  - simpl in Hok. destruct (a !! i) eqn:E; [done|].
    destruct fuel'; simpl; by rewrite E.
  - destruct fuel' as [|fuel']; [lia|]. simpl in *.
    destruct (a !! i) eqn:E; [|done].
    destruct (_buildTreeFromArray_loop fuel a (i + (i + 0) + 1)) as [l|] eqn:El; [|done].
    destruct (_buildTreeFromArray_loop fuel a (i + (i + 0) + 2)) as [r|] eqn:Er; [|done].
    rewrite (IH _ _ _ fuel' El), (IH _ _ _ fuel' Er) by lia. done.
Qed.

Lemma built_node a i v l r h c :
  built a i (Node v l r h c) ->
  a !! i = Some v /\ built a (2 * i + 1) l /\ built a (2 * i + 2) r /\ h = 1 /\ c = RED.
Proof.
  intros Hb. destruct (length a) as [|n] eqn:Hn.
  - simpl in Hb. destruct (a !! i); done.
  - cbn [_buildTreeFromArray_loop] in Hb. destruct (a !! i) eqn:E; [|done].
    destruct (_buildTreeFromArray_loop n a (2 * i + 1)) as [l'|] eqn:El; [|done].
    destruct (_buildTreeFromArray_loop n a (2 * i + 2)) as [r'|] eqn:Er; [|done].
    cbn [rbind] in Hb. injection Hb as -> -> -> <- <-.
    split; [done|]. split; [by apply (buildTree_fuel_mono n); [|lia]|].
    split; [by apply (buildTree_fuel_mono n); [|lia]|done].
Qed.

Lemma built_null a i : built a i null -> (length a <= i)%nat.
Proof.
  intros Hb. destruct (a !! i) eqn:E.
  - destruct (length a) as [|n] eqn:Hn; cbn [_buildTreeFromArray_loop] in Hb;
      rewrite E in Hb; [done|].
    destruct (_buildTreeFromArray_loop n a _); [|done].
    destruct (_buildTreeFromArray_loop n a _); done.
  - by apply lookup_ge_None in E.
Qed.

Lemma built_ge a i : (length a <= i)%nat -> built a i null.
Proof.
  intros Hle. destruct (length a) eqn:Hn; simpl; by rewrite lookup_ge_None_2 by lia.
Qed.

Lemma built_exists a i : exists t, built a i t.
Proof. apply buildTreeFromArray_loop_ok. lia. Qed.

(** The queue of the level-order loop holds the display trees of
    consecutive slots. *)
Lemma heap_levelOrder_loop fuel : forall a k queue vs,
  (k <= length a)%nat ->
  Forall2 (fun i t => built a i t) (seq k (Nat.min (2 * k + 1) (length a) - k)) queue ->
  levelOrder_loop fuel queue = Ok vs ->
  vs = drop k a.
Proof.
  induction fuel as [|fuel IH]; intros a k queue vs Hk Hq Hok.
  - destruct queue as [|node q]; [|done]. simpl in Hok. injection Hok as <-.
    apply Forall2_length in Hq. rewrite length_seq in Hq. simpl in Hq.
    symmetry. apply drop_ge. lia.
  - destruct queue as [|node q].
    { simpl in Hok. injection Hok as <-.
      apply Forall2_length in Hq. rewrite length_seq in Hq. simpl in Hq.
      symmetry. apply drop_ge. lia. }
    destruct (Nat.min (2 * k + 1) (length a) - k)%nat as [|m] eqn:Hm.
    { inversion Hq. }
    cbn [seq] in Hq. apply Forall2_cons in Hq as [Hnode Hq].
    cbn [levelOrder_loop] in Hok.
    destruct node as [|v l r h c]; [done|].
    apply built_node in Hnode as (Hv & Hl & Hr & _ & _).
    set (q1 := if is_null l then q else q ++ [l]) in *.
    set (q2 := if is_null r then q1 else q1 ++ [r]) in *.
    destruct (levelOrder_loop fuel q2) as [rest|] eqn:Hrest; [|done].
    cbn [rbind] in Hok. injection Hok as <-.
    pose proof (lookup_lt_Some _ _ _ Hv) as Hlt.
    rewrite (drop_S _ v) by done. f_equal.
    apply (IH a (S k) q2); [lia| |done].
    assert (Hnull : forall i t, built a i t -> is_null t = bool_decide (length a <= i)%nat).
    { intros i t Ht. destruct t; cbn [is_null]; symmetry.
      - apply bool_decide_eq_true. by apply built_null.
      - apply bool_decide_eq_false. apply built_node in Ht as [Hi _].
        apply lookup_lt_Some in Hi. lia. }
    unfold q2, q1. rewrite (Hnull _ _ Hl), (Hnull _ _ Hr).
    destruct (decide (length a <= 2 * k + 1)%nat) as [H1|H1].
    + rewrite !bool_decide_eq_true_2 by lia.
      replace (Nat.min (2 * S k + 1) (length a) - S k)%nat with m by lia. done.
    + rewrite (bool_decide_eq_false_2 (length a <= 2 * k + 1)%nat) by done.
      assert (m = k) by lia. subst m.
      destruct (decide (length a <= 2 * k + 2)%nat) as [H2|H2].
      * rewrite bool_decide_eq_true_2 by done.
        replace (Nat.min (2 * S k + 1) (length a) - S k)%nat with (S k) by lia.
        rewrite seq_S. apply Forall2_app; [done|].
        replace (S k + k)%nat with (2 * k + 1)%nat by lia. by repeat constructor.
      * rewrite bool_decide_eq_false_2 by done.
        replace (Nat.min (2 * S k + 1) (length a) - S k)%nat with (S (S k)) by lia.
        rewrite !seq_S. apply Forall2_app; [apply Forall2_app; [done|]|].
        -- replace (S k + k)%nat with (2 * k + 1)%nat by lia. by repeat constructor.
        -- replace (S k + S k)%nat with (2 * k + 2)%nat by lia. by repeat constructor.
Qed.

Lemma heap_levelOrder a t :
  built a 0 t -> levelOrderTraversal t = Ok a.
Proof.
  intros Ht. unfold levelOrderTraversal.
  destruct t as [|v l r h c]; cbn [is_null].
  - apply built_null in Ht. destruct a; [done|simpl in Ht; lia].
  - destruct (levelOrder_loop_spec (length (_inorder (Node v l r h c))) [Node v l r h c])
      as (vs & Hvs & _).
    + by repeat constructor.
    + simpl. by rewrite app_nil_r.
    + rewrite Hvs. f_equal.
      pose proof Ht as (Hv & _)%built_node. apply lookup_lt_Some in Hv.
      assert (vs = drop 0 a) as ->; [|by rewrite drop_0].
      eapply heap_levelOrder_loop; [| |exact Hvs]; [lia|].
      replace (Nat.min (2 * 0 + 1) (length a) - 0)%nat with 1%nat by lia.
      by repeat constructor.
Qed.

(** *** Every reachable heap *)

Lemma heap_insert_built s v s' evs :
  insert s v = Ok (s', evs) ->
  built (array s') 0 (root s') /\ nodeCount s' = nodeCount s + 1.
Proof.
  unfold insert. destruct (_heapifyUp _ _) as [a'|]; [|done]. cbn [rbind].
  destruct (_buildTreeFromArray a' 0) as [r|] eqn:Hr; [|done]. cbn [rbind].
  intros [= <- _]. done.
Qed.

Lemma heap_delete_built s s' d evs :
  delete s = Ok (s', d, evs) ->
  built (array s) 0 (root s) ->
  built (array s') 0 (root s') /\ nodeCount s' = nodeCount s - (if d then 1 else 0).
Proof.
  unfold delete. destruct (array s) as [|m rest] eqn:Ha.
  { intros [= <- <- _] Hb. rewrite Ha. split; [done|lia]. }
  destruct (match removelast (m :: rest) with [] => _ | _ :: _ => _ end) as [a'|]; [|done].
  cbn [rbind]. destruct (_buildTreeFromArray a' 0) as [r|] eqn:Hr; [|done]. cbn [rbind].
  intros [= <- <- _] _. done.
Qed.

Lemma heap_run_inv ops : forall s,
  heap_property (array s) ->
  built (array s) 0 (root s) ->
  nodeCount s = Z.of_nat (length (array s)) ->
  exists s' evs,
    run s ops = Ok (s', evs) /\
    heap_property (array s') /\
    built (array s') 0 (root s') /\
    nodeCount s' = Z.of_nat (length (array s')).
Proof.
  induction ops as [|o ops IH]; intros s Hheap Hb Hc; cbn [run].
  - by exists s, [].
  - assert (exists s1 e1, apply_op s o = Ok (s1, e1) /\
              heap_property (array s1) /\
              built (array s1) 0 (root s1) /\
              nodeCount s1 = Z.of_nat (length (array s1)))
      as (s1 & e1 & -> & Hheap1 & Hb1 & Hc1).
    { destruct o as [v|]; cbn [apply_op].
      - destruct (heap_insert_spec s v Hheap) as (s1 & Hi & Hheap1 & Hperm).
        destruct (heap_insert_built _ _ _ _ Hi) as [Hb1 Hc1].
        rewrite Hi. do 2 eexists. split; [reflexivity|]. split; [done|]. split; [done|].
        apply Permutation_length in Hperm. simpl in Hperm. lia.
      - destruct (decide (array s = [])) as [He|Hne].
        + unfold delete. rewrite He. cbn [rbind]. do 2 eexists. split; [reflexivity|]. done.
        + destruct (heap_delete_spec s Hheap Hne) as (m & s1 & Hd & _ & Hheap1 & Hperm & _).
          destruct (heap_delete_built _ _ _ _ Hd Hb) as [Hb1 Hc1].
          rewrite Hd. cbn [rbind]. do 2 eexists. split; [reflexivity|].
          split; [done|]. split; [done|].
          apply Permutation_length in Hperm. simpl in Hperm. lia. }
    cbn [rbind]. destruct (IH s1 Hheap1 Hb1 Hc1) as (s2 & e2 & -> & H2).
    cbn [rbind]. by do 2 eexists.
Qed.

Lemma heap_run_empty ops :
  exists s evs,
    run empty ops = Ok (s, evs) /\
    heap_property (array s) /\
    built (array s) 0 (root s) /\
    nodeCount s = Z.of_nat (length (array s)).
Proof. apply heap_run_inv; [apply heap_property_nil|done|done]. Qed.

(** *** Finding the display node of a slot *)

Lemma indexOf_spec a value :
  (indexOf a value = -1 /\ value ∉ a) \/
  (exists i : nat, indexOf a value = Z.of_nat i /\ a !! i = Some value).
Proof.
  induction a as [|x a IH]; cbn [indexOf].
  - left. split; [done|apply not_elem_of_nil].
  - destruct (Z.eqb_spec x value) as [->|Hne].
    + right. by exists 0%nat.
    + destruct IH as [[-> Hn]|(i & -> & Hi)].
      * left. split; [done|]. rewrite not_elem_of_cons. done.
      * right. exists (S i). destruct (Z.eqb_spec (Z.of_nat i) (-1)); [lia|].
        split; [lia|done].
Qed.

Lemma findNodeAtIndex_sound t : forall a c target,
  built a c t ->
  _findNodeAtIndex t (Z.of_nat target) (Z.of_nat c) = null \/
  built a target (_findNodeAtIndex t (Z.of_nat target) (Z.of_nat c)).
Proof.
  induction t as [|v l IHl r IHr h col]; intros a c target Hb; [by left|].
  cbn [_findNodeAtIndex].
  destruct (Z.ltb_spec (Z.of_nat target) (Z.of_nat c)); [by left|].
  destruct (Z.eqb_spec (Z.of_nat c) (Z.of_nat target)) as [E|E].
  { right. by replace target with c by lia. }
  apply built_node in Hb as (_ & Hl & Hr & _).
  replace (2 * Z.of_nat c + 1) with (Z.of_nat (2 * c + 1)) by lia.
  replace (2 * Z.of_nat c + 2) with (Z.of_nat (2 * c + 2)) by lia.
  destruct (IHl a _ target Hl) as [->|Hfound].
  - cbn [is_null]. by apply IHr.
  - destruct (_findNodeAtIndex l _ _); [by apply IHr|]. by right.
Qed.

Lemma iter_parent_le k : forall j, (Nat.iter k (fun j => (j - 1) / 2) j <= j)%nat.
Proof.
  induction k as [|k IH]; intros j; [done|].
  rewrite Nat.iter_succ_r. etransitivity; [apply IH|]. lia.
Qed.

Lemma iter_parent_root k : forall j, (j <= k)%nat -> Nat.iter k (fun j => (j - 1) / 2)%nat j = 0%nat.
Proof.
  induction k as [|k IH]; intros j Hj; [simpl; lia|].
  rewrite Nat.iter_succ_r. apply IH. lia.
Qed.

Lemma findNodeAtIndex_complete k : forall a c t target,
  Nat.iter k (fun j => (j - 1) / 2)%nat target = c ->
  (target < length a)%nat ->
  built a c t ->
  _findNodeAtIndex t (Z.of_nat target) (Z.of_nat c) <> null.
Proof.
  induction k as [|k IH]; intros a c t target Hc Hlt Hb.
  - simpl in Hc. subst c. destruct t as [|v l r h col].
    + apply built_null in Hb. lia.
    + cbn [_findNodeAtIndex]. rewrite Z.ltb_irrefl, Z.eqb_refl. done.
  - rewrite Nat.iter_succ in Hc.
    set (m := Nat.iter k (fun j => (j - 1) / 2)%nat target) in *.
    destruct (decide (m = c)) as [Hmc|Hmc]; [by apply (IH a c t target)|].
    assert (m = 2 * c + 1 \/ m = 2 * c + 2)%nat as Hm by lia.
    pose proof (iter_parent_le k target) as Hle. fold m in Hle.
    destruct t as [|v l r h col].
    { apply built_null in Hb. lia. }
    cbn [_findNodeAtIndex].
    destruct (Z.ltb_spec (Z.of_nat target) (Z.of_nat c)); [lia|].
    destruct (Z.eqb_spec (Z.of_nat c) (Z.of_nat target)) as [E|E]; [done|].
    apply built_node in Hb as (_ & Hl & Hr & _).
    replace (2 * Z.of_nat c + 1) with (Z.of_nat (2 * c + 1)) by lia.
    replace (2 * Z.of_nat c + 2) with (Z.of_nat (2 * c + 2)) by lia.
    destruct Hm as [Hm1|Hm2].
    + pose proof (IH a _ l target Hm1 Hlt Hl) as Hfound.
      by destruct (_findNodeAtIndex l _ _).
    + pose proof (IH a _ r target Hm2 Hlt Hr) as Hfound.
      destruct (_findNodeAtIndex l _ _); done.
Qed.

(** X14: after any sequence of [insert] and [delete] calls on an empty
    Min-Heap, [getMin()] is [null] exactly when the heap is empty and
    otherwise a stored value that no stored value is below. *)
Theorem heap_getMin_is_least (ops : list op) :
  exists s evs,
    run empty ops = Ok (s, evs) /\
    match getMin s with
    | None => array s = []
    | Some m => m ∈ array s /\ forall x, x ∈ array s -> m <= x
    end.
Proof.
  destruct (heap_run_empty ops) as (s & evs & Hrun & Hheap & _).
  exists s, evs. split; [done|]. unfold getMin.
  destruct (array s) as [|m rest] eqn:Ha; [done|].
  split; [by left|]. intros x Hx.
  apply list_elem_of_lookup in Hx as [j Hj].
  pose proof (heap_root_least _ Hheap j (lookup_lt_Some _ _ _ Hj)) as Hle.
  by rewrite (val_lookup _ _ _ Hj) in Hle.
Qed.

(** X15: after any sequence of [insert] and [delete] calls on an empty
    Min-Heap, the level-order traversal of the display tree returns and
    visits exactly the backing array, slot by slot. *)
Theorem heap_display_is_level_order (ops : list op) :
  exists s evs,
    run empty ops = Ok (s, evs) /\
    levelOrderTraversal (root s) = Ok (array s).
Proof.
  destruct (heap_run_empty ops) as (s & evs & Hrun & _ & Hb & _).
  exists s, evs. split; [done|]. by apply heap_levelOrder.
Qed.

(** X16: after any sequence of [insert] and [delete] calls on an empty
    Min-Heap, [getSize()] is the length of the backing array, which is also
    the number of nodes of the display tree; the tree is empty exactly when
    the array is. *)
Theorem heap_size_counts_slots (ops : list op) :
  exists s evs,
    run empty ops = Ok (s, evs) /\
    nodeCount s = Z.of_nat (length (array s)) /\
    length (_inorder (root s)) = length (array s) /\
    is_null (root s) = bool_decide (array s = []).
Proof.
  destruct (heap_run_empty ops) as (s & evs & Hrun & _ & Hb & Hc).
  exists s, evs. split; [done|]. split; [done|].
  destruct (levelOrderTraversal_spec (root s)) as (vs & Hvs & Hperm & _).
  rewrite (heap_levelOrder _ _ Hb) in Hvs. injection Hvs as <-.
  split; [symmetry; by apply Permutation_length|].
  destruct (root s) as [|v l r h c]; cbn [is_null]; symmetry.
  - apply bool_decide_eq_true. apply Permutation_nil_r. by symmetry.
  - apply bool_decide_eq_false. intros He. rewrite He in Hperm.
    apply Permutation_nil_l in Hperm. simpl in Hperm. by destruct (_inorder l).
Qed.

(** X17: after any sequence of [insert] and [delete] calls on an empty
    Min-Heap, [search(value)] returns a display node holding [value] when
    the array holds it and [null] when it does not, and notifies [found]
    accordingly. *)
Theorem heap_search_finds_display_node (ops : list op) (value : Z) :
  exists s evs result,
    run empty ops = Ok (s, evs) /\
    search s value =
      (result, [mkSearchEvent value (bool_decide (value ∈ array s)) s]) /\
    if bool_decide (value ∈ array s)
    then exists l r, result = Node value l r 1 RED
    else result = null.
Proof.
  destruct (heap_run_empty ops) as (s & evs & Hrun & _ & Hb & _).
  exists s, evs. unfold search.
  destruct (indexOf_spec (array s) value) as [[-> Hn]|(i & -> & Hi)].
  - exists null. rewrite bool_decide_eq_false_2 by done. done.
  - assert (Hp : value ∈ array s) by (by eapply list_elem_of_lookup_2).
    rewrite bool_decide_eq_true_2 by done.
    destruct (Z.eqb_spec (Z.of_nat i) (-1)); [lia|].
    eexists. split; [done|]. split; [reflexivity|].
    pose proof (findNodeAtIndex_complete i (array s) 0%nat (root s) i
                  (iter_parent_root i i ltac:(lia)) (lookup_lt_Some _ _ _ Hi) Hb) as Hnn.
    destruct (findNodeAtIndex_sound (root s) (array s) 0%nat i Hb) as [E|Hfound]; [done|].
    change (Z.of_nat 0) with 0 in *.
    destruct (_findNodeAtIndex (root s) (Z.of_nat i) 0) as [|v l r h c]; [done|].
    apply built_node in Hfound as (Hv & _ & _ & -> & ->).
    rewrite Hi in Hv. injection Hv as <-. by exists l, r.
Qed.

(** X18: inserting any list of values into an empty Min-Heap and calling
    [delete()] as many times empties the heap, and the deletions notify the
    inserted values in non-decreasing order. *)
Theorem heap_sorts_any_list (vs : list Z) :
  exists s evs,
    run empty (map Insert vs ++ replicate (length vs) Delete) = Ok (s, evs) /\
    array s = [] /\
    deleted_values evs ≡ₚ vs /\
    Sorted Z.le (deleted_values evs).
Proof.
  rewrite heap_run_app.
  destruct (heap_run_inserts vs empty heap_property_nil) as (s1 & e1 & -> & H1 & P1 & D1).
  cbn [rbind]. rewrite app_nil_r in P1.
  destruct (heap_run_deletes (length vs) s1 H1) as (s2 & e2 & -> & He & P2 & S2).
  { by apply Permutation_length in P1. }
  cbn [rbind]. exists s2. eexists. split; [reflexivity|]. split; [done|].
  rewrite deleted_values_app, D1. cbn [app]. split.
  - by rewrite P2, P1.
  - by apply StronglySorted_Sorted.
Qed.

End HeapDisplay.


(** ** Segment tree: sums, point update and leaf search *)

Section Segment.
Import SegmentTree.












(** *** Every tree reached by inserts *)









End Segment.

(** ** Fenwick tree: the values [query] adds up *)

Section FenwickQuery.
Import FenwickTree.





End FenwickQuery.

(** ** [clear()] on the structures that keep their values in an array *)

Section ClearKeepsData.


End ClearKeepsData.


(** ** Trie: the stored words *)

Section TrieWords.
Import Trie.

(** *** The children map *)










(** *** Walking *)




(** *** [insert] *)




(** *** [delete] *)






(** *** Every trie reached from the empty one *)

Lemma toLowerCase_nonempty c w : exists c' w', toLowerCase (String c w) = String c' w'.
Proof. by eexists _, _. Qed.





(** *** Prefixes *)




(** *** Collecting the words *)

Local Open Scope string_scope.














End TrieWords.


(** ** The event bus *)

Section EventBusCalls.
Import EventBus.
Context {D : Type}.

(** The bus that holds the callbacks [l] under the one name [e]: an entry
    whose last callback is removed is deleted. *)
Local Abbreviation bus e l c :=
  (mk (match l%list with [] => [] | _ :: _ => [(e, l%list)] end) c).

Lemma bus_callbacks e (l : list Callback) c :
  match get e (events (bus e l c)) with Some cbs => cbs | None => [] end = l.
Proof. destruct l; cbn [events get]; [done|]. by rewrite String.eqb_refl. Qed.

Lemma on_bus e (l : list Callback) c cb : on (bus e l c) e cb = bus e (l ++ [cb]) c.
Proof.
  unfold on. rewrite bus_callbacks. cbn [events closures].
  destruct l as [|x l]; cbn [set app]; [done|]. by rewrite String.eqb_refl.
Qed.

Lemma off_bus e (l : list Callback) c cb :
  off (bus e l c) e cb = bus e (remove_first cb l) c.
Proof.
  unfold off. cbn [events closures].
  destruct l as [|x l]; [done|]. cbn [get]. rewrite String.eqb_refl.
  destruct (remove_first cb (x :: l)); cbn [remove set]; by rewrite String.eqb_refl.
Qed.

Lemma forEach_skip (throws : nat -> bool) (data : D) e (l : list Callback) c n : forall k,
  (length l <= k)%nat ->
  forEach throws n k (bus e l c) e data = (bus e l c, []).
Proof.
  induction n as [|n IH]; intros k Hk; cbn [forEach]; [done|].
  rewrite bus_callbacks, lookup_ge_None_2 by done. apply IH. lia.
Qed.

Lemma emit_bus (throws : nat -> bool) (data : D) e e' (l : list Callback) c :
  emit throws (bus e l c) e' data =
    if String.eqb e e' then forEach throws (length l) 0 (bus e l c) e' data
    else (bus e l c, []).
Proof.
  unfold emit. destruct l as [|x l]; cbn [events get].
  - by destruct (String.eqb e e').
  - by destruct (String.eqb e e').
Qed.

(** *** Plain handlers *)

Lemma foldl_on_bus e (ids : list nat) : forall (l : list Callback) c,
  foldl (fun s id => on s e (Handler id)) (bus e l c) ids
  = bus e (l ++ (Handler <$> ids)) c.
Proof.
  induction ids as [|id ids IH]; intros l c; cbn [foldl fmap list_fmap].
  - by rewrite app_nil_r.
  - rewrite on_bus, IH. by rewrite <- app_assoc.
Qed.

Lemma forEach_handlers (throws : nat -> bool) (data : D) e (ids : list nat) c n : forall k,
  (n + k = length ids)%nat ->
  forEach throws n k (bus e (Handler <$> ids) c) e data
  = (bus e (Handler <$> ids) c, (fun id => (id, data)) <$> drop k ids).
Proof.
  induction n as [|n IH]; intros k Hk; cbn [forEach].
  - by rewrite drop_ge by lia.
  - rewrite bus_callbacks.
    destruct (lookup_lt_is_Some_2 ids k ltac:(lia)) as [id Hid].
    rewrite list_lookup_fmap, Hid. cbn [fmap option_fmap option_map call].
    rewrite IH by lia. by rewrite (drop_S _ id k Hid).
Qed.


(** X27: after subscribing handlers with [on] to one event name on an
    empty bus, [emit] of that name calls every handler once with the data, in
    subscription order, whether or not some of them throw, and leaves the
    subscriptions as they were; [emit] of another name calls nothing. *)
Theorem emit_calls_handlers_in_order
    (throws : nat -> bool) (ids : list nat) (e e' : string) (data : D) :
  emit throws (foldl (fun s id => on s e (Handler id)) empty ids) e' data =
    (foldl (fun s id => on s e (Handler id)) empty ids,
     if String.eqb e e' then (fun id => (id, data)) <$> ids else []).
Proof.
  change empty with (bus e (@nil Callback) 0%nat). rewrite foldl_on_bus. cbn [app].
  rewrite emit_bus. destruct (String.eqb_spec e e') as [<-|Hne]; [|done].
  rewrite length_fmap, forEach_handlers by lia. by rewrite drop_0.
Qed.


(** *** Handlers subscribed with [once] *)

Local Abbreviation wr := (fun p : nat * nat => OnceCallback p.1 p.2).

Lemma evens_fmap {A B} (f : A -> B) (l : list A) : evens (f <$> l) = f <$> evens l.
Proof.
  enough (forall n (l : list A), (length l <= n)%nat -> evens (f <$> l) = f <$> evens l)
    by eauto.
  clear l. induction n as [|n IH]; intros [|x [|y l]] Hl; simpl in *; try done; try lia.
  f_equal. apply IH. lia.
Qed.

Lemma once_bus e (l : list Callback) c h :
  once (bus e l c) e h = bus e (l ++ [OnceCallback c h]) (S c).
Proof. unfold once. cbn [closures]. by rewrite on_bus. Qed.

Lemma foldl_once_bus e (hs : list nat) : forall (l : list Callback) c,
  foldl (fun s h => once s e h) (bus e l c) hs
  = bus e (l ++ (wr <$> zip (seq c (length hs)) hs)) (c + length hs)%nat.
Proof.
  induction hs as [|h hs IH]; intros l c; cbn [foldl].
  - simpl. by rewrite app_nil_r, Nat.add_0_r.
  - rewrite once_bus, IH. simpl. rewrite <- app_assoc. simpl.
    by replace (S (c + length hs))%nat with (c + S (length hs))%nat by lia.
Qed.

Lemma remove_first_mid (x : nat * nat) (rest : list (nat * nat)) : forall pre,
  x.1 ∉ pre.*1 ->
  remove_first (wr x) (wr <$> (pre ++ x :: rest)) = wr <$> (pre ++ rest).
Proof.
  induction pre as [|y pre IH]; intros Hx; simpl.
  - by rewrite Nat.eqb_refl.
  - rewrite fmap_cons, not_elem_of_cons in Hx. destruct Hx as [Hy Hx].
    change ((y :: pre) ++ x :: rest) with (y :: (pre ++ x :: rest)).
    change ((y :: pre) ++ rest) with (y :: (pre ++ rest)).
    destruct (Nat.eqb_spec y.1 x.1) as [E|_]; [by destruct Hy|].
    f_equal. by apply IH.
Qed.

Lemma forEach_once (data : D) e c n : forall (pre rest : list (nat * nat)),
  (length rest <= n)%nat ->
  NoDup ((pre ++ rest).*1) ->
  forEach (fun _ => false) n (length pre) (bus e (wr <$> (pre ++ rest)) c) e data
  = (bus e (wr <$> (pre ++ odds rest)) c, (fun p => (p.2, data)) <$> evens rest).
Proof.
  induction n as [|n IH]; intros pre rest Hn Hnd.
  - destruct rest; [|simpl in Hn; lia]. done.
  - destruct rest as [|x rest].
    { rewrite forEach_skip; [done|]. rewrite length_fmap, length_app. simpl. lia. }
    cbn [forEach]. rewrite bus_callbacks.
    rewrite list_lookup_fmap, lookup_app_r, Nat.sub_diag by lia.
    cbn [lookup list_lookup fmap option_fmap option_map call].
    rewrite off_bus, remove_first_mid.
    2: { rewrite fmap_app, fmap_cons in Hnd. apply NoDup_app in Hnd as (_ & Hd & _).
         intros Hin. apply (Hd _ Hin). left. }
    destruct rest as [|y rest].
    { rewrite forEach_skip; [done|]. rewrite length_fmap, length_app. simpl. lia. }
    replace (pre ++ y :: rest) with ((pre ++ [y]) ++ rest) by (by rewrite <- app_assoc).
    replace (S (length pre)) with (length (pre ++ [y])) by (rewrite length_app; simpl; lia).
    rewrite IH.
    + unfold odds. rewrite <- app_assoc. by destruct rest.
    + simpl in Hn. lia.
    + rewrite <- app_assoc. simpl.
      rewrite !fmap_app, !fmap_cons in *.
      apply NoDup_app in Hnd as (Hp & Hd & Hr). apply NoDup_cons in Hr as [_ Hr].
      apply NoDup_app. split_and!; [done| |done].
      intros z Hz Hin. apply (Hd z Hz). by right.
Qed.

(** X29: when handlers that do not throw are subscribed with [once] to one
    event name on an empty bus, [emit] of that name calls the first, third,
    fifth, ... of them and unsubscribes these; the second, fourth, ... are
    not called and stay subscribed, since every removal shifts the list
    that [forEach] is walking. *)
Theorem emit_once_skips_every_second (hs : list nat) (e : string) (data : D) :
  exists s',
    emit (fun _ => false) (foldl (fun s h => once s e h) empty hs) e data
      = (s', (fun h => (h, data)) <$> evens hs) /\
    listeners s' e = odds hs.
Proof.
  change empty with (bus e (@nil Callback) 0%nat).
  rewrite foldl_once_bus. cbn [app].
  set (ps := zip (seq 0 (length hs)) hs).
  assert (ps.*1 = seq 0 (length hs)) as H1
    by (apply fst_zip; rewrite length_seq; lia).
  assert (ps.*2 = hs) as H2 by (apply snd_zip; rewrite length_seq; lia).
  exists (bus e (wr <$> odds ps) (0 + length hs)%nat). split.
  - rewrite emit_bus, String.eqb_refl.
    rewrite (forEach_once data e _ _ [] ps).
    + f_equal. rewrite <- H2.
      by rewrite evens_fmap, <- list_fmap_compose.
    + by rewrite length_fmap.
    + simpl. rewrite H1. apply NoDup_seq.
  - unfold listeners. rewrite bus_callbacks.
    change (map handler (wr <$> odds ps)) with (handler <$> (wr <$> odds ps)).
    rewrite <- list_fmap_compose, <- H2.
    unfold odds. destruct ps as [|p ps']; [done|]. simpl.
    by rewrite evens_fmap.
Qed.

End EventBusCalls.

(** ** B-Tree search *)

Section BTreeSearch.
Import BTree.
Local Open Scope nat_scope.

Lemma btree_scan_le value : forall ks, scan ks value <= length ks.
Proof.
  induction ks as [|k ks IH]; simpl; [lia|]. destruct (js_gt value k); simpl; lia.
Qed.

Lemma btree_searchNode_unfold fuel node value :
  _searchNode fuel node value =
    let i := scan (keys node) value in
    if (i <? length (keys node)) && js_eq value (aread (keys node) i)
    then Ok (Some (node, i))
    else if BTree.isLeaf node then Ok None
    else
      match fuel with
      | O => Throw OutOfFuel
      | S fuel' =>
          match aread (children node) i with
          | None => Throw TypeError
          | Some c => _searchNode fuel' c value
          end
      end.
Proof. by destruct fuel. Qed.

Lemma btree_hit_holds_value value (ks : list (option Z)) i :
  (i <? length ks) && js_eq value (aread ks i) = true -> ks !! i = Some (Some value).
Proof.
  intros [Hi Heq]%andb_prop. apply Nat.ltb_lt, lookup_lt_is_Some_2 in Hi as [k Hk].
  unfold aread in Heq. rewrite Hk in *. destruct k as [k|]; [|done].
  simpl in Heq. apply Z.eqb_eq in Heq. by subst.
Qed.

Lemma btree_searchNode_spec deg value h : forall fuel lo n,
  wf deg lo h n -> h <= fuel ->
  exists r, _searchNode fuel n value = Ok r /\
            forall node i, r = Some (node, i) -> keys node !! i = Some (Some value).
Proof.
  induction h as [|h IH]; intros fuel lo n Hwf Hfuel;
    apply btree_wf_unfold in Hwf as (_ & Hshape);
    rewrite btree_searchNode_unfold; cbv zeta;
    destruct ((scan (keys n) value <? length (keys n))
              && js_eq value (aread (keys n) (scan (keys n) value))) eqn:Hhit.
  - eexists. split; [done|]. intros ? ? [= <- <-]. by apply btree_hit_holds_value.
  - destruct Hshape as (-> & _). by eexists.
  - eexists. split; [done|]. intros ? ? [= <- <-]. by apply btree_hit_holds_value.
  - destruct Hshape as (-> & Hlen & Hall). destruct fuel as [|fuel]; [lia|].
    pose proof (btree_scan_le value (keys n)) as Hi.
    destruct (lookup_lt_is_Some_2 (children n) (scan (keys n) value) ltac:(lia))
      as [oc Hoc].
    pose proof (Forall_lookup_1 _ _ _ _ Hall Hoc) as Hgood.
    unfold aread. rewrite Hoc. destruct oc as [c|]; [|done].
    apply (IH fuel _ c Hgood). lia.
Qed.

(** X30: on the B-Tree that inserts into an empty tree of any degree have
    built, [search(value)] returns without an exception, and a hit
    [{ node, index }] names a slot that holds the value. *)
Theorem btree_search_returns_slot_of_value (deg : nat) (vs : list Z) (value : Z) :
  exists s r,
    insert_all (empty deg) vs = Ok s /\
    search s value = Ok r /\
    forall node i, r = Some (node, i) -> keys node !! i = Some (Some value).
Proof.
  destruct (decide (deg = 0)) as [->|Hdeg].
  - destruct (btree_insert_all_degree_0 vs (empty 0)) as (s & Hs & (_ & Hroot) & _);
      [done|].
    exists s. unfold search. destruct (root s) as [r|]; [|by exists None].
    destruct Hroot as (Hleaf & _). rewrite btree_searchNode_unfold, Hleaf. cbv zeta.
    destruct ((scan (keys r) value <? length (keys r))
              && js_eq value (aread (keys r) (scan (keys r) value))) eqn:Hhit.
    + eexists. split; [done|]. split; [done|].
      intros ? ? [= <- <-]. by apply btree_hit_holds_value.
    + by exists None.
  - destruct (btree_insert_all_spec deg vs ltac:(lia) (empty deg))
      as (s & Hs & (_ & Hroot) & _); [done|].
    exists s. unfold search. destruct (root s) as [r|]; [|by exists None].
    destruct Hroot as (h & Hwf).
    destruct (btree_searchNode_spec deg value h (levels r) 0 r Hwf) as (res & Hres & Hslot).
    + by eapply btree_wf_levels.
    + by exists res.
Qed.

End BTreeSearch.
